(** * Open Contact Book: the geolocation pass of [data/contact.py]

    A shallow embedding of [get_geoID] and of the Python primitives it is
    written with ([str] methods, the [re] patterns, [urllib.parse.urlencode]),
    followed by the properties of the address resolution engine. *)

From Stdlib Require Import NArith Ascii String List Bool Lia.
From stdpp Require Import base option list strings gmap.

Local Open Scope N_scope.

(** ** Python strings

    A Python [str] is a sequence of Unicode code points; a code point is a
    number. *)

Abbreviation str := (list N).

(** A literal of the source, written as a Rocq string. *)
Definition py (s : string) : str := map N_of_ascii (list_ascii_of_string s).

Module Py.

(** [c in chars] for a one-character [c]. *)
Definition mem (c : N) (chars : str) : bool := existsb (N.eqb c) chars.

Fixpoint drop_while (p : N -> bool) (s : str) : str :=
  match s with
  | [] => []
  | c :: s' => if p c then drop_while p s' else s
  end.

Definition lstrip (chars s : str) : str := drop_while (fun c => mem c chars) s.
Definition rstrip (chars s : str) : str := rev (lstrip chars (rev s)).

(** [s.strip(chars)] *)
Definition strip (chars s : str) : str := rstrip chars (lstrip chars s).

(** White space of [str.strip()] without argument and of [\s]. *)
Definition is_space (c : N) : bool :=
  ((9 <=? c) && (c <=? 13)) || ((28 <=? c) && (c <=? 32))
  || (c =? 133) || (c =? 160) || (c =? 5760)
  || ((8192 <=? c) && (c <=? 8202))
  || (c =? 8232) || (c =? 8233) || (c =? 8239) || (c =? 8287) || (c =? 12288).

(** [s.strip()] *)
Definition strip_space (s : str) : str :=
  rev (drop_while is_space (rev (drop_while is_space s))).

Definition is_upper (c : N) : bool := (65 <=? c) && (c <=? 90).
Definition is_lower (c : N) : bool := (97 <=? c) && (c <=? 122).
Definition is_digit (c : N) : bool := (48 <=? c) && (c <=? 57).

(** [s.lower()] on the ASCII range. It is applied to the output of
    [unidecode], whose tables hold ASCII text only. *)
Definition lower_char (c : N) : N := if is_upper c then c + 32 else c.
Definition lower (s : str) : str := map lower_char s.

(** [s.split(sep)] for a one-character separator. *)
Fixpoint split (sep : N) (s : str) : list str :=
  match s with
  | [] => [[]]
  | c :: s' =>
      if c =? sep then [] :: split sep s'
      else match split sep s' with
           | p :: ps => (c :: p) :: ps
           | [] => [[c]]
           end
  end.

(** [old] is a prefix of [s]: what follows it. *)
Fixpoint strip_prefix (old s : str) : option str :=
  match old, s with
  | [], _ => Some s
  | _ :: _, [] => None
  | a :: old', c :: s' => if a =? c then strip_prefix old' s' else None
  end.

Fixpoint replace_loop (fuel : nat) (old new s : str) : str :=
  match fuel with
  | O => s
  | S fuel' =>
      match s with
      | [] => []
      | c :: s' =>
          match strip_prefix old s with
          | Some rest => new ++ replace_loop fuel' old new rest
          | None => c :: replace_loop fuel' old new s'
          end
      end
  end.

(** [s.replace(old, new)], for a non-empty [old]. *)
Definition replace (old new s : str) : str :=
  replace_loop (S (length s)) old new s.

End Py.

(** ** Regular expressions

    The patterns of the source use characters and character classes,
    concatenation, alternation, greedy repetition and the anchor [^]. The
    matcher is the backtracking one of Python's [re]: the first alternative
    is tried first, a repetition takes as many rounds as it can, and the
    first way to match that succeeds is the match. *)

Module Re.

Inductive regex : Type :=
| Eps
| Bol                         (* ^ *)
| Cls (p : N -> bool)         (* a character of a class *)
| Seq (r1 r2 : regex)
| Alt (r1 r2 : regex)
| Star (r : regex).           (* r*, greedy *)

Definition Chr (c : N) : regex := Cls (N.eqb c).
Definition Plus (r : regex) : regex := Seq r (Star r).     (* r+ *)
Definition Opt (r : regex) : regex := Alt r Eps.           (* r? *)
Definition Lit (s : str) : regex := fold_right (fun c r => Seq (Chr c) r) Eps s.
Definition Set_ (chars : str) : regex := Cls (fun c => Py.mem c chars).
Definition Dot : regex := Cls (fun c => negb (c =? 10)).   (* . *)
Definition Space : regex := Cls Py.is_space.               (* \s and [^\S] *)

Section Matcher.
(** A continuation receives whether the position is still the start of
    the text, and the text that is left. *)
Let cont : Type := bool -> str -> option str.

Fixpoint star_loop (step : bool -> str -> cont -> option str)
    (fuel : nat) (b : bool) (s : str) (k : cont) : option str :=
  match fuel with
  | O => k b s
  | S fuel' =>
      match step b s (fun b' s' =>
               if (length s' <? length s)%nat
               then star_loop step fuel' b' s' k else None) with
      | Some rest => Some rest
      | None => k b s
      end
  end.

Fixpoint rmatch (r : regex) (b : bool) (s : str) (k : cont) : option str :=
  match r with
  | Eps => k b s
  | Bol => if b then k b s else None
  | Cls p =>
      match s with
      | c :: s' => if p c then k false s' else None
      | [] => None
      end
  | Seq r1 r2 => rmatch r1 b s (fun b' s' => rmatch r2 b' s' k)
  | Alt r1 r2 =>
      match rmatch r1 b s k with
      | Some rest => Some rest
      | None => rmatch r2 b s k
      end
  | Star r1 => star_loop (rmatch r1) (S (length s)) b s k
  end.
End Matcher.

(** The match of [r] that starts at the head of [s], as the text left after
    it. No pattern of the source matches the empty string, and an empty
    match counts as none. *)
Definition match_at (r : regex) (b : bool) (s : str) : option str :=
  match rmatch r b s (fun _ rest => Some rest) with
  | Some rest => if (length rest <? length s)%nat then Some rest else None
  | None => None
  end.

Fixpoint sub_loop (r : regex) (repl : str) (fuel : nat) (b : bool) (s : str)
    : str :=
  match fuel with
  | O => s
  | S fuel' =>
      match s with
      | [] => []
      | c :: s' =>
          match match_at r b s with
          | Some rest => repl ++ sub_loop r repl fuel' false rest
          | None => c :: sub_loop r repl fuel' false s'
          end
      end
  end.

(** [re.sub(r, repl, s)]: every match, leftmost first, is replaced. *)
Definition sub (r : regex) (repl s : str) : str :=
  sub_loop r repl (S (length s)) true s.

(** The piece before the first match, and the pieces after it. *)
Fixpoint split_loop (r : regex) (fuel : nat) (b : bool) (s : str)
    : str * list str :=
  match fuel with
  | O => (s, [])
  | S fuel' =>
      match s with
      | [] => ([], [])
      | c :: s' =>
          match match_at r b s with
          | Some rest =>
              let '(p, ps) := split_loop r fuel' false rest in ([], p :: ps)
          | None =>
              let '(p, ps) := split_loop r fuel' false s' in (c :: p, ps)
          end
      end
  end.

(** [re.split(r, s)] for a pattern without groups. *)
Definition split (r : regex) (s : str) : list str :=
  let '(p, ps) := split_loop r (S (length s)) true s in p :: ps.

(** Two readings of a pattern, to tell where it cannot match: whether it
    matches the empty string, and the characters a match can start with. *)
Fixpoint nullable (r : regex) : bool :=
  match r with
  | Eps | Bol | Star _ => true
  | Cls _ => false
  | Seq r1 r2 => nullable r1 && nullable r2
  | Alt r1 r2 => nullable r1 || nullable r2
  end.

Fixpoint first (r : regex) (c : N) : bool :=
  match r with
  | Eps | Bol => false
  | Cls p => p c
  | Seq r1 r2 => first r1 c || (nullable r1 && first r2 c)
  | Alt r1 r2 => first r1 c || first r2 c
  | Star r1 => first r1 c
  end.

(** No match of [r] consumes the head of [s]. *)
Definition stuck (r : regex) (s : str) : bool :=
  match s with
  | [] => true
  | c :: _ => negb (first r c)
  end.

End Re.

(** ** [urllib.parse.urlencode] *)

Module Url.

Definition hex_digit (n : N) : N := if n <? 10 then 48 + n else 55 + n.

(** [%XX] *)
Definition percent (byte : N) : str :=
  [37; hex_digit (byte / 16); hex_digit (byte mod 16)].

Definition utf8 (c : N) : list N :=
  if c <? 128 then [c]
  else if c <? 2048 then [192 + c / 64; 128 + c mod 64]
  else if c <? 65536 then
    [224 + c / 4096; 128 + (c / 64) mod 64; 128 + c mod 64]
  else [240 + c / 262144; 128 + (c / 4096) mod 64;
        128 + (c / 64) mod 64; 128 + c mod 64].

(** The characters [quote] never escapes: letters, digits and [_.-~]. *)
Definition always_safe (c : N) : bool :=
  Py.is_upper c || Py.is_lower c || Py.is_digit c || Py.mem c (py "_.-~").

Definition quote_plus (s : str) : str :=
  flat_map (fun c =>
    if c =? 32 then [43]
    else if always_safe c then [c]
    else flat_map percent (utf8 c)) s.

Fixpoint join (sep : str) (l : list str) : str :=
  match l with
  | [] => []
  | [x] => x
  | x :: l' => x ++ sep ++ join sep l'
  end.

(** [urlencode] of a dict, given as its items in insertion order. *)
Definition urlencode (items : list (str * str)) : str :=
  join (py "&")
    (map (fun '(k, v) => quote_plus k ++ py "=" ++ quote_plus v) items).

End Url.

(** ** The data frame

    A row of the pandas frame is a dictionary from column names to cells; a
    column that is missing, or holds NaN in that row, has no entry. The
    frame is the list of its rows: after [reset_index] (line 197) the index
    of a row is its position. The frame comes from [cleanup_contact], whose
    [reindex] gives it an [adr] column. *)

Inductive cell : Type :=
| Str (s : str)
| Bool (b : bool).

Abbreviation row := (gmap string cell).

(** The tuple given to [progress.emit]. *)
Definition event : Type := nat * nat * nat * string * string.

Inductive exn : Type :=
| UnboundLocalError      (* a local variable read before it is bound *)
| AttributeError.        (* [unidecode] of a cell that is not a string: it
                            calls [string.encode], which a float (NaN) or
                            a boolean does not have *)

(** ** The collaborators of [get_geoID]

    What the function calls and this file does not define: the libraries
    [unidecode], [json] and [requests], and the modules [data.nominatim]
    and [data.spellcheck]. *)

Inductive reply (A : Type) : Type :=
| Returns (l : list A)     (* the call returned this list *)
| Raises.                  (* the call raised an exception *)
Arguments Returns {A} l.
Arguments Raises {A}.

Class Services : Type := {
  (* one entry of an answer of Nominatim, a decoded JSON object *)
  payload : Type;
  (* what a run reaches beyond its arguments: the cache and the network *)
  World : Type;
  (* the table of unidecode for a code point that is not ASCII; empty
     where it has none (errors="ignore") *)
  translit : N -> str;
  json_dumps : list payload -> str;
  (* GeoSpellChecker(["fr", "en"]).get_country_code_from_text *)
  get_country_code_from_text : str -> option str * str;
  (* Nominatim().fetch_cache_or_web *)
  fetch_cache_or_web : World -> str -> World * reply payload;
  (* requests.get('https://nominatim.openstreetmap.org/search'): whether
     it returned *)
  requests_get : World -> World * bool;
}.

(** ** The patterns of the source *)

Module Pat.
Import Re.

(** [(?:\(|\@ESCAPEDLEFTPARENTHESIS\@).*(?:\)|\@ESCAPEDRIGHTPARENTHESIS\@)] *)
Definition parenthesis : regex :=
  Seq (Alt (Chr 40) (Lit (py "@ESCAPEDLEFTPARENTHESIS@")))
    (Seq (Star Dot) (Alt (Chr 41) (Lit (py "@ESCAPEDRIGHTPARENTHESIS@")))).

(** [[\-\[\]\{\}]+] *)
Definition dashes : regex := Plus (Set_ (py "-[]{}")).

(** [[\n\r]+] *)
Definition newlines : regex := Plus (Set_ [10; 13]).

(** [\s+] *)
Definition spaces : regex := Plus Space.

(** [^\s*,\s*[^\S]] *)
Definition leading_comma : regex :=
  Seq Bol (Seq (Star Space) (Seq (Chr 44) (Seq (Star Space) Space))).

(** [[A-Z]+: ] *)
Definition tag : regex := Seq (Plus (Cls Py.is_upper)) (Lit (py ": ")).

(** [(\s?\,)+], and one round of it *)
Definition round : regex := Seq (Opt Space) (Chr 44).
Definition commas : regex := Plus round.

(** [[\+]+] *)
Definition pluses : regex := Plus (Chr 43).

End Pat.

(** ** Address normalization (lines 177-191 and 212-229) *)

(** [Series.replace(to_replace=r, value=v, regex=True, inplace=...)] on one
    string cell, which pandas does with [re.sub]. With [inplace=True] the
    column of the frame is changed, as pandas did when the source was
    written. Without it the call builds a new column that the source drops,
    and the frame keeps the old cell: so it is on line 188. *)
Definition series_replace (r : Re.regex) (value : str) (inplace : bool)
    (s : str) : str :=
  if inplace then Re.sub r value s else s.

(** The [geohint] of an [adr] cell. *)
Definition geohint (adr : str) : str :=
  let h := adr in
  let h := series_replace Pat.parenthesis (py " ") true h in
  let h := series_replace Pat.dashes (py " ") true h in
  let h := series_replace Pat.newlines (py ", ") true h in
  let h := series_replace Pat.spaces (py " ") false h in
  series_replace Pat.leading_comma [] true h.

(** The characters of [strip(" \n\r.;,:")]. *)
Definition trimmed : str := [32; 10; 13; 46; 59; 44; 58].

(** Lines 226 and 229: one piece of the split, trimmed, lowered, its runs
    of commas made one comma. *)
Definition normalize_elem (elem : str) : str :=
  let elem := Py.lower (Py.strip trimmed elem) in
  Re.sub Pat.commas (py ",") elem.

Section Engine.
Context `{Services}.

(** [unidecode.unidecode(s, errors="ignore")] *)
Definition unidecode (s : str) : str :=
  flat_map (fun c => if c <? 128 then [c] else translit c) s.

(** Lines 213-218. *)
Definition decode (hint : str) : str :=
  let decoded := unidecode hint in
  let decoded := Py.replace [34] [] decoded in
  let decoded := Py.replace (py "(c)") [] decoded in
  Py.replace (py "@") [] decoded.

(** The pieces of line 221, each as lines 226-229 leave it. *)
Definition elems_of_hint (hint : str) : list str :=
  map normalize_elem (Re.split Pat.tag (decode hint)).

(** The normalizer: from the raw address to the normalized pieces. *)
Definition normalize (raw : str) : list str := elems_of_hint (geohint raw).

(** The pieces that are queried (line 231). *)
Definition segments (raw : str) : list str :=
  filter (fun e => e <> []) (normalize raw).

(** ** The queries (lines 233-235 and their copies) *)

(** Whether a query carries the [countrycodes] key, and the code it
    carries; [urlencode] writes the code [None] as the text [None]. *)
Inductive restriction : Type :=
| Unrestricted
| Country (country_code : option str).

Definition code_text (country_code : option str) : str :=
  match country_code with
  | Some code => code
  | None => py "None"
  end.

Definition params (q : str) (r : restriction) : list (str * str) :=
  match r with
  | Unrestricted => [(py "q", q); (py "format", py "json")]
  | Country country_code =>
      [(py "q", q); (py "countrycodes", code_text country_code);
       (py "format", py "json")]
  end.

(** [re.sub(r"[\+]+", "+", urlencode({...})).strip("+")] *)
Definition build_query (q : str) (r : restriction) : str :=
  Py.strip (py "+") (Re.sub Pat.pluses (py "+") (Url.urlencode (params q r))).

(** [nominatim.fetch_cache_or_web(query)[0]]: [None] when the call or the
    subscript raises. *)
Definition first_result (w : World) (query : str) : World * option payload :=
  let '(w', r) := fetch_cache_or_web w query in
  (w', match r with
       | Returns (out :: _) => Some out
       | Returns [] => None
       | Raises => None
       end).

(** ** The windows (lines 262-267) *)

(** [sub_elems[-j]], for [1 <= j <= len(sub_elems)]. *)
Definition from_end (sub_elems : list str) (j : nat) : str :=
  nth (length sub_elems - j) sub_elems [].

(** [range(a, b)] *)
Definition range (a b : nat) : list nat := seq a (b - a).

(** The text [q] that round [i] of the outer loop builds. *)
Definition window (sub_elems : list str) (i : nat) : str :=
  fold_left
    (fun q j => Py.strip_space (from_end sub_elems j) ++ py "," ++ q)
    (range 2 (length sub_elems - i))
    (Py.strip_space (from_end sub_elems 1)).

(** The loop of lines 262-279 over the rounds [rounds] still to run:
    [Some out] when a round found [out] and broke out of the loop. *)
Fixpoint try_windows (country_code : option str) (sub_elems : list str)
    (rounds : list nat) (w : World) : World * option payload :=
  match rounds with
  | [] => (w, None)
  | i :: rounds' =>
      let q := window sub_elems i in
      match first_result w (build_query q (Country country_code)) with
      | (w', Some out) => (w', Some out)
      | (w', None) => try_windows country_code sub_elems rounds' w'
      end
  end.

(** ** One piece of an address (lines 226-293) *)

(** What the loop over the pieces of a row carries: the world, [result]
    and [flag_accurate]. *)
Definition acc : Type := World * list payload * bool.

(** The body of the loop of line 225. Each [try] is a call of
    [first_result] and each bare [except:] its [None] branch, whatever
    was raised; the [print] of line 293 writes to the standard output
    only and is left out. *)
Definition resolve_elem (a : acc) (elem : str) : acc :=
  let '(w, result, flag_accurate) := a in
  let elem := normalize_elem elem in
  if (length elem =? 0)%nat then a
  else
    match first_result w (build_query elem Unrestricted) with
    | (w, Some out) => (w, result ++ [out], true)
    | (w, None) =>
        let '(country_code, filtered) := get_country_code_from_text elem in
        match first_result w (build_query filtered (Country country_code)) with
        | (w, Some out) => (w, result ++ [out], flag_accurate)
        | (w, None) =>
            let sub_elems := Py.split 44 filtered in
            match try_windows country_code sub_elems
                    (range 0 (length sub_elems - 1)) w with
            | (w, Some out) => (w, result ++ [out], flag_accurate)
            | (w, None) =>
                let q := Py.strip_space (nth 0 sub_elems []) in
                match first_result w (build_query q (Country country_code)) with
                | (w, Some out) => (w, result ++ [out], flag_accurate)
                | (w, None) => (w, result, flag_accurate)
                end
            end
        end
    end.

(** Lines 210-293 for one row: from the [geohint] of the row to [result]
    and [flag_accurate]. *)
Definition resolve_row (w : World) (hint : str) : acc :=
  fold_left resolve_elem (Re.split Pat.tag (decode hint)) (w, [], false).

(** ** The pass over the frame (lines 152-303) *)

(** The state of a call: the world, what was emitted so far, the frame of
    the caller, which the function updates in place and returns, the loop
    variable [index] once it is bound, and the exception that ended the
    call if one did. *)
Record state : Type := {
  world : World;
  emitted : list event;
  data : list row;
  index : option nat;
  raised : option exn;
}.

Definition emit (progress : bool) (e : event) (st : state) : state :=
  if progress
  then {| world := world st; emitted := emitted st ++ [e]; data := data st;
          index := index st; raised := raised st |}
  else st.

Definition stage : string := "Fetch geolocation data".
Definition downloading : string :=
  "Downloading GPS coordinates from nominatim.org…".
Definition unreachable : string :=
  "nominatim.org can't be reached, geolocation will use the local cache if possible".

(** Line 178 and the in-place replacements after it, on one row. *)
Definition with_geohint (r : row) : row :=
  match r !! "adr"%string with
  | Some (Str adr) => <["geohint"%string := Str (geohint adr)]> r
  | Some c => <["geohint"%string := c]> r
  | None => delete "geohint"%string r
  end.

(** Lines 294-298: the cells written for a row. *)
Definition geoID_cell (result : list payload) : cell :=
  match result with
  | [] => Str (py "not found")
  | _ :: _ => Str (json_dumps result)
  end.

Definition write_outcome (result : list payload) (flag_accurate : bool)
    (r : row) : row :=
  <["exactlocation"%string := Bool flag_accurate]>
    (<["geoID"%string := geoID_cell result]> r).

(** [killswitch is not None and killswitch.is_set()] at row [i]: the
    switch, when given, tells what [is_set()] answers when it is asked at
    a row. *)
Definition set_at (killswitch : option (nat -> bool)) (i : nat) : bool :=
  match killswitch with
  | Some is_set => is_set i
  | None => false
  end.

(** The loop of line 200 over the rows [todo] that [iterrows] still
    yields, the next of them at index [i]. A [geohint] that is not a
    string ends the call on line 213: [unidecode] starts with
    [string.encode], and raises [AttributeError] on a float or a
    boolean. *)
Fixpoint rows_loop (progress : bool) (killswitch : option (nat -> bool))
    (entries : nat) (i : nat) (todo : list row) (st : state) : state :=
  match todo with
  | [] => st
  | r :: todo' =>
      let st := {| world := world st; emitted := emitted st; data := data st;
                   index := Some i; raised := raised st |} in
      let st := emit progress (i, 0%nat, entries, downloading, stage) st in
      if set_at killswitch i
      then emit progress (i, 0%nat, i, "cancel"%string, stage) st
      else
        match r !! "geohint"%string with
        | Some (Str hint) =>
            let '(w, result, flag_accurate) := resolve_row (world st) hint in
            rows_loop progress killswitch entries (S i) todo'
              {| world := w; emitted := emitted st;
                 data := alter (write_outcome result flag_accurate) i (data st);
                 index := index st; raised := raised st |}
        | _ =>
            {| world := world st; emitted := emitted st; data := data st;
               index := index st; raised := Some AttributeError |}
        end
  end.

(** Lines 152-197: the first report, the probe of the service, and the
    [geohint] column. *)
Definition before_rows (frame : list row) (progress : bool) (w : World)
    : state :=
  let entries := length frame in
  let st := {| world := w; emitted := []; data := frame;
               index := None; raised := None |} in
  let st := emit progress (0%nat, 0%nat, entries, downloading, stage) st in
  let '(w, reached) := requests_get (world st) in
  let st := {| world := w; emitted := emitted st; data := data st;
               index := index st; raised := raised st |} in
  let st := if reached then st
            else emit progress (0%nat, 0%nat, entries, unreachable, stage) st in
  {| world := world st; emitted := emitted st;
     data := map with_geohint (data st);
     index := index st; raised := raised st |}.

(** Lines 300-303, which an exception of the loop skips: the last report
    reads [index]. *)
Definition after_rows (progress : bool) (entries : nat) (st : state)
    : state :=
  match raised st with
  | Some _ => st
  | None =>
      if progress then
        match index st with
        | Some i => emit progress (i, entries, entries, "cancel"%string, stage) st
        | None =>
            {| world := world st; emitted := emitted st; data := data st;
               index := index st; raised := Some UnboundLocalError |}
        end
      else st
  end.

(** [get_geoID(data, progress, killswitch)], run in the world [w]:
    [progress] tells whether a signal is given. The state it ends in
    holds the frame, which is also what the function returns when it does
    not raise. *)
Definition get_geoID (frame : list row) (progress : bool)
    (killswitch : option (nat -> bool)) (w : World) : state :=
  let entries := length frame in
  let st := before_rows frame progress w in
  let st := rows_loop progress killswitch entries 0 (data st) st in
  after_rows progress entries st.
End Engine.

(** ** The candidates of a piece, as a list

    The queries that lines 232-293 can send for a piece [elem] that is
    already trimmed and not empty, in the order of the source, each as the
    text of its [q] and its restriction. *)

Section Candidates.
Context `{Services}.

Definition candidate : Type := str * restriction.

Definition query_of (c : candidate) : str := build_query (fst c) (snd c).

Definition candidates (elem : str) : list candidate :=
  let '(country_code, filtered) := get_country_code_from_text elem in
  let sub_elems := Py.split 44 filtered in
  (elem, Unrestricted)
  :: (filtered, Country country_code)
  :: map (fun i => (window sub_elems i, Country country_code))
       (range 0 (length sub_elems - 1))
  ++ [(Py.strip_space (nth 0 sub_elems []), Country country_code)].

(** The candidates are sent one after the other until one has a first
    result. *)
Fixpoint try_each (w : World) (cs : list candidate) : World * option payload :=
  match cs with
  | [] => (w, None)
  | c :: cs' =>
      match first_result w (query_of c) with
      | (w', Some out) => (w', Some out)
      | (w', None) => try_each w' cs'
      end
  end.

(** The candidates that [try_each] sends. *)
Fixpoint attempts (w : World) (cs : list candidate) : list candidate :=
  match cs with
  | [] => []
  | c :: cs' =>
      match first_result w (query_of c) with
      | (_, Some _) => [c]
      | (w', None) => c :: attempts w' cs'
      end
  end.

(** The first query of a trimmed piece, sent in [w], has a first result. *)
Definition exact_hit (w : World) (elem : str) : bool :=
  match first_result w (build_query elem Unrestricted) with
  | (_, Some _) => true
  | (_, None) => false
  end.

(** What a trimmed piece adds to [result] and [flag_accurate], given what
    its candidates found. *)
Definition conclude (a : acc) (elem : str) (found : World * option payload)
    : acc :=
  let '(w, result, flag_accurate) := a in
  (fst found,
   result ++ match snd found with Some out => [out] | None => [] end,
   exact_hit w elem || flag_accurate).

(** The number of components of a text between commas. *)
Definition components (q : str) : nat := length (Py.split 44 q).

(** The pieces of a [geohint] (line 221). *)
Definition pieces (hint : str) : list str := Re.split Pat.tag (decode hint).

(** The world in which piece [k] of the list is handled. *)
Definition world_before (w : World) (l : list str) (k : nat) : World :=
  fst (fst (fold_left resolve_elem (take k l) (w, [], false))).

(** The world after the row [r] of the loop, which found [w]. *)
Definition after_row (w : World) (r : row) : World :=
  match r !! "geohint"%string with
  | Some (Str hint) => fst (fst (resolve_row w hint))
  | _ => w
  end.

(** The world in which the loop reaches row [k] of the frame, in a call
    made in [w] that no row before [k] ends: the world after the probe
    and after the rows before [k], one after the other. *)
Definition world_at (frame : list row) (w : World) (k : nat) : World :=
  fold_left after_row (take k (map with_geohint frame))
    (fst (requests_get w)).

(** What a call shows apart from the progress it emitted. *)
Definition outcome (st : state) : World * list row * option nat * option exn :=
  (world st, data st, index st, raised st).

(** The columns that [get_geoID] writes. *)
Definition written : gset string :=
  {[ "geohint"%string; "geoID"%string; "exactlocation"%string ]}.

(** A row whose [adr] is a string. *)
Definition has_adr (r : row) : bool :=
  match r !! "adr"%string with
  | Some (Str _) => true
  | _ => false
  end.

(** The columns outside [written] are the same in both rows. *)
Definition same_elsewhere (r r' : row) : Prop :=
  forall col, col ∉ written -> r' !! col = r !! col.

(** ** Tidy texts

    A text on which every step of the normalization is the identity,
    the collapse of white space of line 188 included, whether its result
    is kept or dropped: ASCII without capitals, without the characters
    that the steps remove or replace (line breaks, the double quote, the
    opening parenthesis, the dash, the at sign, brackets and braces),
    whose only white space is the space, one at a time, without a comma
    right after white space or after another comma, and whose first and
    last characters are not trimmed. *)
Definition plain_char (c : N) : bool :=
  (c <? 128) && negb (Py.is_upper c)
  && negb (Py.mem c [10; 13; 34; 40; 45; 64; 91; 93; 123; 125]).

Fixpoint no_loose_comma (s : str) : bool :=
  match s with
  | c :: s' =>
      match s' with
      | d :: _ => negb ((Py.is_space c || (c =? 44)) && (d =? 44))
      | [] => true
      end && no_loose_comma s'
  | [] => true
  end.

(** Every white-space character is a space, and the next character is
    not white space. *)
Fixpoint single_spaces (s : str) : bool :=
  match s with
  | c :: s' =>
      (negb (Py.is_space c)
       || ((c =? 32) && match s' with
                        | d :: _ => negb (Py.is_space d)
                        | [] => true
                        end))
      && single_spaces s'
  | [] => true
  end.

Definition tidy (s : str) : bool :=
  forallb plain_char s && no_loose_comma s && single_spaces s
  && match s with
     | c :: _ => negb (Py.mem c trimmed) && negb (Py.is_space c)
     | [] => true
     end
  && match rev s with
     | c :: _ => negb (Py.mem c trimmed)
     | [] => true
     end.

(** The [killswitch] is not given, or is not set at any row below [k]. *)
Definition quiet_below (killswitch : option (nat -> bool)) (k : nat) : bool :=
  match killswitch with
  | Some is_set => forallb (fun i => negb (is_set i)) (seq 0 k)
  | None => true
  end.
End Candidates.

(** The same collaborators with a probe that answers [reached]. *)
Definition with_probe (S : Services) (reached : bool) : Services :=
  {| payload := @payload S;
     World := @World S;
     translit := @translit S;
     json_dumps := @json_dumps S;
     get_country_code_from_text := @get_country_code_from_text S;
     fetch_cache_or_web := @fetch_cache_or_web S;
     requests_get := fun w => (fst (@requests_get S w), reached) |}.

(** ** A Nominatim to run the examples with

    Modelled from the spec: the class [Nominatim] of [data/nominatim.py] and
    the checker of [data/spellcheck.py], which are not among the sources.
    The cache maps a query to the answer fetched for it; a call answers
    from the cache when it can, and else asks the service once and stores
    the answer. The service is reachable or not at each moment, a moment
    being the number of network exchanges made before. An entry of an
    answer is a text here, which [json.dumps] writes as a JSON string. *)

Module Demo.

Record net : Type := {
  cache : list (str * list str);
  clock : nat;
  asked : list str;        (* the queries given to fetch_cache_or_web *)
  fetched : list str;      (* those that went to the network *)
}.

Definition same (a b : str) : bool := bool_decide (a = b).

Fixpoint get (query : str) (c : list (str * list str)) : option (list str) :=
  match c with
  | [] => None
  | (k, v) :: c' => if same k query then Some v else get query c'
  end.

(** [json.dumps] of a text, as [ensure_ascii] has it by default: between
    double quotes, with a backslash before the double quote and the
    backslash, the short escapes of the control characters that have
    one, and every other character outside the range from the space to
    the tilde as [\uXXXX], by two surrogates above U+FFFF. *)
Definition hex_lower (n : N) : N := if n <? 10 then 48 + n else 87 + n.

Definition u_escape (n : N) : str :=
  [92; 117; hex_lower (n / 4096); hex_lower ((n / 256) mod 16);
   hex_lower ((n / 16) mod 16); hex_lower (n mod 16)].

Definition json_char (c : N) : str :=
  if c =? 34 then [92; 34]
  else if c =? 92 then [92; 92]
  else if c =? 8 then [92; 98]
  else if c =? 12 then [92; 102]
  else if c =? 10 then [92; 110]
  else if c =? 13 then [92; 114]
  else if c =? 9 then [92; 116]
  else if (32 <=? c) && (c <=? 126) then [c]
  else if c <? 65536 then u_escape c
  else u_escape (55296 + ((c - 65536) / 1024) mod 1024)
       ++ u_escape (56320 + (c - 65536) mod 1024).

Definition json_string (s : str) : str :=
  [34] ++ flat_map json_char s ++ [34].

(** [json.dumps] of a list of texts. *)
Definition dumps (l : list str) : str :=
  py "[" ++ Url.join (py ", ") (map json_string l) ++ py "]".

(** The table of [unidecode] on the letters of Latin-1, from U+00C0 to
    U+00FF. The examples hold no other character above ASCII. *)
Definition latin1 (c : N) : str :=
  if (192 <=? c) && (c <=? 255)
  then nth (N.to_nat (c - 192))
         (map py ["A"; "A"; "A"; "A"; "A"; "A"; "AE"; "C";
                  "E"; "E"; "E"; "E"; "I"; "I"; "I"; "I";
                  "D"; "N"; "O"; "O"; "O"; "O"; "O"; "x";
                  "O"; "U"; "U"; "U"; "U"; "Y"; "Th"; "ss";
                  "a"; "a"; "a"; "a"; "a"; "a"; "ae"; "c";
                  "e"; "e"; "e"; "e"; "i"; "i"; "i"; "i";
                  "d"; "n"; "o"; "o"; "o"; "o"; "o"; "/";
                  "o"; "u"; "u"; "u"; "u"; "y"; "th"; "y"]%string) []
  else [].

Section Service.
Variable reachable : nat -> bool.
Variable search : str -> list str.
Variable detect : str -> option str * str.

Definition fetch (w : net) (query : str) : net * reply str :=
  match get query (cache w) with
  | Some l =>
      ({| cache := cache w; clock := clock w;
          asked := asked w ++ [query]; fetched := fetched w |},
       Returns l)
  | None =>
      if reachable (clock w)
      then ({| cache := (query, search query) :: cache w;
               clock := S (clock w);
               asked := asked w ++ [query];
               fetched := fetched w ++ [query] |},
            Returns (search query))
      else ({| cache := cache w; clock := S (clock w);
               asked := asked w ++ [query];
               fetched := fetched w ++ [query] |},
            Raises)
  end.

Definition probe (w : net) : net * bool :=
  ({| cache := cache w; clock := S (clock w);
      asked := asked w; fetched := fetched w |},
   reachable (clock w)).

Definition services : Services :=
  {| payload := str;
     World := net;
     translit := latin1;
     json_dumps := dumps;
     get_country_code_from_text := detect;
     fetch_cache_or_web := fetch;
     requests_get := probe |}.
End Service.

(** A run starts with an empty cache. *)
Definition start : net :=
  {| cache := []; clock := 0; asked := []; fetched := [] |}.

(** A checker that finds no country: the text comes back unchanged. *)
Definition no_country (elem : str) : option str * str := (None, elem).

(** A checker that knows France when it ends the text. *)
Definition france (elem : str) : option str * str :=
  match Py.strip_prefix (rev (py "france")) (rev elem) with
  | Some rest => (Some (py "fr"), rev rest)
  | None => (None, elem)
  end.

(** A service that answers a query by itself when [known] holds of it,
    and by nothing otherwise. *)
Definition answers (known : str -> bool) (query : str) : list str :=
  if known query then [query] else [].

Definition always : nat -> bool := fun _ => true.
Definition never : nat -> bool := fun _ => false.
Definition after_first : nat -> bool := fun t => negb (t =? 0)%nat.

(** A reachable service that knows no place. *)
Definition nothing : Services :=
  services always (answers (fun _ => false)) no_country.

(** A reachable service that knows the one query [query]. *)
Definition only (query : str) : Services :=
  services always (answers (same query)) no_country.

(** A service that cannot be reached at the first exchange and answers
    every query from the second one on. *)
Definition late : Services :=
  services after_first (answers (fun _ => true)) france.

(** A service that is never reached. *)
Definition down : Services :=
  services never (answers (fun _ => true)) no_country.

(** A frame of one contact. *)
Definition contact (adr : string) : row := {[ "adr"%string := Str (py adr) ]}.

(** A contact whose frame already has a [geohint] column. *)
Definition annotated : row :=
  <[ "geohint"%string := Str (py "kept by the caller") ]> (contact "paris").

End Demo.

From stdpp Require Import sorting.
Local Open Scope N_scope.

(** * The rest of [data/contact.py]

    What the properties of the second part are stated with, and the two
    functions that come before [get_geoID] in a run: [list_vcf_in_directory]
    and [cleanup_contact]. *)

(** ** Runs of characters

    The text [s] in which every longest run of characters of the class [p]
    is replaced by [repl]; [inrun] tells that the character before [s] was
    of the class, its run being replaced already. *)
Fixpoint squeeze_from (p : N -> bool) (repl : str) (inrun : bool) (s : str)
    : str :=
  match s with
  | [] => []
  | c :: s' =>
      if p c then
        if inrun then squeeze_from p repl true s'
        else repl ++ squeeze_from p repl true s'
      else c :: squeeze_from p repl false s'
  end.

Definition squeeze (p : N -> bool) (repl : str) (s : str) : str :=
  squeeze_from p repl false s.

(** A query in which every run of [+] is one [+]. *)
Definition one_plus (s : str) : str := squeeze (N.eqb 43) (py "+") s.

(** The characters of an encoded value: the ones [quote] never escapes,
    the [+] of a space and the [%] of an escape, whose two digits are
    among the first. *)
Definition url_char (c : N) : bool :=
  Url.always_safe c || (c =? 43) || (c =? 37).

(** A code point that UTF-8 encodes: below 0x110000 and no surrogate.
    [quote_plus] raises on the others. *)
Definition code_point (c : N) : bool :=
  (c <? 55296) || ((57343 <? c) && (c <? 1114112)).

(** The number of times the character [c] occurs in [s]. *)
Fixpoint count (c : N) (s : str) : nat :=
  match s with
  | [] => 0%nat
  | d :: s' => ((if (c =? d)%N then 1 else 0) + count c s')%nat
  end.

(** ** The progress of [get_geoID] *)

(** A row whose [geohint] is a string. *)
Definition has_hint (r : row) : Prop :=
  exists hint, r !! "geohint"%string = Some (Str hint).

(** The report that opens row [i] of a frame of [entries] rows (line 202). *)
Definition row_event (entries i : nat) : event :=
  (i, 0%nat, entries, downloading, stage).

(** The report of the probe when it fails (line 163), if a report there is. *)
Definition probe_events (entries : nat) (reached : bool) : list event :=
  if reached then [] else [(0%nat, 0%nat, entries, unreachable, stage)].

(** ** Regular expressions with groups

    The patterns of [cleanup_contact] and of [list_vcf_in_directory] have
    groups, which the replacement or the caller reads. The matcher is the
    one of [Re], with the groups closed so far handed along; with
    [re.MULTILINE] the anchor [^] also holds after a line feed. *)

Module Rg.

Inductive regex : Type :=
| Eps
| Bol                         (* ^ *)
| Cls (p : N -> bool)         (* a character of a class *)
| Seq (r1 r2 : regex)
| Alt (r1 r2 : regex)
| Star (r : regex)            (* r*, greedy *)
| Grp (n : nat) (r : regex).  (* (r), the group of number n *)

Definition Chr (c : N) : regex := Cls (N.eqb c).
Definition Plus (r : regex) : regex := Seq r (Star r).     (* r+ *)
Definition Opt (r : regex) : regex := Alt r Eps.           (* r? *)
Definition Lit (s : str) : regex := fold_right (fun c r => Seq (Chr c) r) Eps s.
Definition Dot : regex := Cls (fun c => negb (c =? 10)).   (* . *)
Definition Space : regex := Cls Py.is_space.               (* \s and [^\S] *)
Definition NonSpace : regex := Cls (fun c => negb (Py.is_space c)).  (* \S *)
Definition Upper : regex := Cls Py.is_upper.               (* [A-Z] *)

(** The text of the groups closed so far, the last closed first. *)
Definition groups : Type := list (nat * str).

(** [match.group(n)] *)
Fixpoint group (n : nat) (g : groups) : str :=
  match g with
  | [] => []
  | (m, t) :: g' => if (n =? m)%nat then t else group n g'
  end.

(** A replacement: plain text and references [\n] to groups. *)
Inductive part : Type :=
| Raw (s : str)
| Ref (n : nat).

Definition expand (repl : list part) (g : groups) : str :=
  flat_map (fun p => match p with
                     | Raw s => s
                     | Ref n => group n g
                     end) repl.

Section Matcher.
Variable multiline : bool.

(** A continuation receives whether the position is one where [^]
    holds, the text that is left and the groups. *)
Let cont : Type := bool -> str -> groups -> option (str * groups).

Fixpoint star_loop (step : bool -> str -> groups -> cont -> option (str * groups))
    (fuel : nat) (b : bool) (s : str) (g : groups) (k : cont)
    : option (str * groups) :=
  match fuel with
  | O => k b s g
  | S fuel' =>
      match step b s g (fun b' s' g' =>
               if (length s' <? length s)%nat
               then star_loop step fuel' b' s' g' k else None) with
      | Some found => Some found
      | None => k b s g
      end
  end.

Fixpoint rmatch (r : regex) (b : bool) (s : str) (g : groups) (k : cont)
    : option (str * groups) :=
  match r with
  | Eps => k b s g
  | Bol => if b then k b s g else None
  | Cls p =>
      match s with
      | c :: s' => if p c then k (multiline && (c =? 10)) s' g else None
      | [] => None
      end
  | Seq r1 r2 => rmatch r1 b s g (fun b' s' g' => rmatch r2 b' s' g' k)
  | Alt r1 r2 =>
      match rmatch r1 b s g k with
      | Some found => Some found
      | None => rmatch r2 b s g k
      end
  | Star r1 => star_loop (rmatch r1) (S (length s)) b s g k
  | Grp n r1 =>
      rmatch r1 b s g (fun b' s' g' =>
        k b' s' ((n, take (length s - length s') s) :: g'))
  end.

(** The match of [r] that starts at the head of [s]: the text left
    after it and its groups. No pattern of the source matches the empty
    string, and an empty match counts as none. *)
Definition match_at (r : regex) (b : bool) (s : str)
    : option (str * groups) :=
  match rmatch r b s [] (fun _ rest g => Some (rest, g)) with
  | Some (rest, g) =>
      if (length rest <? length s)%nat then Some (rest, g) else None
  | None => None
  end.

(** Whether [^] holds after the text [matched] has been gone through. *)
Definition line_start (matched : str) : bool :=
  multiline && match last matched with
               | Some c => c =? 10
               | None => false
               end.

Fixpoint sub_loop (r : regex) (repl : list part) (fuel : nat) (b : bool)
    (s : str) : str :=
  match fuel with
  | O => s
  | S fuel' =>
      match s with
      | [] => []
      | c :: s' =>
          match match_at r b s with
          | Some (rest, g) =>
              expand repl g
              ++ sub_loop r repl fuel'
                   (line_start (take (length s - length rest) s)) rest
          | None => c :: sub_loop r repl fuel' (line_start [c]) s'
          end
      end
  end.

(** [re.sub(r, repl, s)]: every match, leftmost first, is replaced. *)
Definition sub (r : regex) (repl : list part) (s : str) : str :=
  sub_loop r repl (S (length s)) true s.

Fixpoint finditer_loop (r : regex) (fuel : nat) (b : bool) (s : str)
    : list groups :=
  match fuel with
  | O => []
  | S fuel' =>
      match s with
      | [] => []
      | c :: s' =>
          match match_at r b s with
          | Some (rest, g) =>
              g :: finditer_loop r fuel'
                     (line_start (take (length s - length rest) s)) rest
          | None => finditer_loop r fuel' (line_start [c]) s'
          end
      end
  end.

(** [re.finditer(r, s)]: the groups of every match, leftmost first. *)
Definition finditer (r : regex) (s : str) : list groups :=
  finditer_loop r (S (length s)) true s.
End Matcher.

End Rg.

(** The texts of the groups hold characters with the property [P] only. *)
Definition texts_of_groups (P : N -> Prop) (g : Rg.groups) : Prop :=
  Forall (fun e => Forall P e.2) g.

(** ** The patterns of the two functions *)

Module Pat2.
Import Rg.

(** Line 114: [\[\<\S+\{\}], then [.*] as group 1, then [\>\]]. *)
Definition basic : regex :=
  Seq (Chr 91) (Seq (Chr 60) (Seq (Plus NonSpace) (Seq (Chr 123) (Seq (Chr 125)
    (Seq (Grp 1 (Star Dot)) (Seq (Chr 62) (Chr 93))))))).

(** [[^;\]]] *)
Definition value_char (c : N) : bool := negb (Py.mem c [59; 93]).

(** Line 116: [\<\S+\{'?[A-Z]*'?:?\s?\[?'?], then [[A-Z]*] as group 1,
    then ['?\]?\}], then [[^;\]]*] as group 2, then [\>]. *)
Definition typed : regex :=
  Seq (Chr 60) (Seq (Plus NonSpace) (Seq (Chr 123)
    (Seq (Opt (Chr 39)) (Seq (Star Upper) (Seq (Opt (Chr 39))
      (Seq (Opt (Chr 58)) (Seq (Opt Space) (Seq (Opt (Chr 91))
        (Seq (Opt (Chr 39)) (Seq (Grp 1 (Star Upper)) (Seq (Opt (Chr 39))
          (Seq (Opt (Chr 93)) (Seq (Chr 125)
            (Seq (Grp 2 (Star (Cls value_char))) (Chr 62))))))))))))))).

(** [[ ]{2,}] (line 118) *)
Definition blanks : regex := Seq (Chr 32) (Plus (Chr 32)).

(** [^\s*,\s*[^\S]*] (line 120) *)
Definition leading : regex :=
  Seq Bol (Seq (Star Space) (Seq (Chr 44) (Seq (Star Space) (Star Space)))).

(** The class of line 70: a capital from A to Z, one of the five accented
    capitals of code points 201, 200, 202, 192 and 195, a dash or a
    semicolon. *)
Definition tag_char (c : N) : bool :=
  Py.is_upper c || Py.mem c [201; 200; 202; 192; 195; 45; 59].

(** Line 70: [^], then one or more of these characters as group 1, then
    a colon. *)
Definition tag_line : regex :=
  Seq Bol (Seq (Grp 1 (Plus (Cls tag_char))) (Chr 58)).

End Pat2.

(** The four replacements of lines 114-120 on the text of one cell. *)
Definition clean_basic (s : str) : str :=
  Rg.sub false Pat2.basic [Rg.Ref 1] s.
Definition clean_typed (s : str) : str :=
  Rg.sub false Pat2.typed [Rg.Ref 1; Rg.Raw (py ": "); Rg.Ref 2] s.
Definition clean_blanks (s : str) : str :=
  Rg.sub false Pat2.blanks [Rg.Raw (py " ")] s.
Definition clean_leading (s : str) : str :=
  Rg.sub false Pat2.leading [Rg.Raw (py " ")] s.

Definition clean (s : str) : str :=
  clean_leading (clean_blanks (clean_typed (clean_basic s))).

(** ** Frames with their columns

    [get_geoID] reads and writes columns by name, and its frame is the
    list of its rows. The two functions before it build the frame and
    order its columns: there a frame is the list of the names of its
    columns, distinct, and its rows; a cell that holds NaN has no entry in
    its row. Names are compared as Python compares strings, character by
    character. *)

Record table (A : Type) : Type := Table {
  columns : list string;
  rows : list (gmap string A);
}.
Arguments Table {A} columns rows.
Arguments columns {A} t.
Arguments rows {A} t.

(** What a cell of the frame of [list_vcf_in_directory] holds: the value
    of a vCard property, an object of [vobject], or a text. *)
Inductive item (obj : Type) : Type :=
| Obj (o : obj)
| Txt (s : str).
Arguments Obj {obj} o.
Arguments Txt {obj} s.

Section Frames.
Context {A : Type}.

(** The cell of column [c] is not NaN in the row. *)
Definition value_in (c : string) (r : gmap string A) : bool :=
  match r !! c with
  | Some _ => true
  | None => false
  end.

(** The cells of a row in the columns [cols]. *)
Definition restrict (cols : list string) (r : gmap string A)
    : gmap string A :=
  filter (fun kv => kv.1 ∈ cols) r.

(** [data.dropna(axis=1, how="all")]: the columns that hold a value in
    some row are kept. *)
Definition dropna (t : table A) : table A :=
  let cols := List.filter (fun c => existsb (value_in c) (rows t))
                (columns t) in
  Table cols (map (restrict cols) (rows t)).

(** One row of [data.fillna(v)]. *)
Definition fill_row (v : A) (cols : list string) (r : gmap string A)
    : gmap string A :=
  fold_right (fun c m => if value_in c m then m else <[c := v]> m) r cols.

Definition fillna (v : A) (t : table A) : table A :=
  Table (columns t) (map (fill_row v (columns t)) (rows t)).

(** [data.reindex(columns=cols)]: the columns [cols], in that order; a
    column that the frame did not have holds NaN. *)
Definition reindex (cols : list string) (t : table A) : table A :=
  Table cols (map (restrict cols) (rows t)).

(** The column [c] is one of the frame and holds a value in some row. *)
Definition holds_value (t : table A) (c : string) : bool :=
  bool_decide (c ∈ columns t) && existsb (value_in c) (rows t).
End Frames.

(** [l.remove(x)] for an [x] that is in [l]: its first occurrence goes. *)
Fixpoint remove_first (x : string) (l : list string) : list string :=
  match l with
  | [] => []
  | y :: l' => if decide (x = y) then l' else y :: remove_first x l'
  end.

(** [sorted(l)] on names. *)
Definition sorted (l : list string) : list string := merge_sort String.le l.

Definition forced_cols_start : list string :=
  ["categories"; "fn"; "n"; "org"; "role"; "email"; "adr"; "tel"]%string.

(** Lines 130-137: the order of the columns. *)
Definition reordered (names : list string) : list string :=
  let original_cols := sorted names in
  let original_cols :=
    fold_left (fun cols elem =>
                 if bool_decide (elem ∈ cols) then remove_first elem cols
                 else cols)
      forced_cols_start original_cols in
  forced_cols_start ++ original_cols.

(** [data.replace(to_replace=..., value=..., regex=True)] with the
    substitution [f] on the texts of a frame of texts. *)
Definition replace_cell (f : str -> str) (c : cell) : cell :=
  match c with
  | Str s => Str (f s)
  | Bool b => Bool b
  end.

Definition replace_cells (f : str -> str) (t : table cell) : table cell :=
  Table (columns t) (map (fmap (replace_cell f)) (rows t)).

Definition prepare : string := "Prepare data".

Section Cleanup.
Context {obj : Type}.
(** [str(o)] for a value [o] of [vobject]. *)
Variable str_of : obj -> str.

Definition text_of (x : item obj) : str :=
  match x with
  | Obj o => str_of o
  | Txt s => s
  end.

(** [data.astype("str")] *)
Definition astype_str (t : table (item obj)) : table cell :=
  Table (columns t) (map (fmap (fun x => Str (text_of x))) (rows t)).

(** What a call of [cleanup_contact] leaves: the frame of the caller,
    which lines 101 and 104 change in place, the frame it returns, which
    is another one from line 107 on, and what it emitted. *)
Record cleaned : Type := {
  caller : table (item obj);
  returned : table cell;
  reports : list event;
}.

(** [cleanup_contact(data, progress, killswitch)]; the function never
    reads its [killswitch]. *)
Definition cleanup_contact (data : table (item obj)) (progress : bool)
    (killswitch : option (nat -> bool)) : cleaned :=
  let data := fillna (Txt []) (dropna data) in
  let fresh := astype_str data in
  let fresh := replace_cells clean_basic fresh in
  let fresh := replace_cells clean_typed fresh in
  let fresh := replace_cells clean_blanks fresh in
  let fresh := replace_cells clean_leading fresh in
  let cols := reordered (columns fresh) in
  {| caller := data;
     returned := reindex cols fresh;
     reports :=
       if progress
       then [(0, 0, 3, "Formatting the database"%string, prepare);
             (1, 0, 3, "Cleaning tags"%string, prepare);
             (2, 0, 3, "Sorting data"%string, prepare);
             (3, 0, 3, "Sorted"%string, prepare)]%nat
       else [] |}.
End Cleanup.

(** ** [list_vcf_in_directory] *)

(** The tuples that this function gives to [progress.emit] do not all
    have the same length: a tuple is the list of its fields. *)
Inductive field : Type :=
| Num (n : nat)
| Msg (s : string).

Definition report : Type := list field.

(** Python compares two texts character by character. *)
Fixpoint str_leb (a b : str) : bool :=
  match a, b with
  | [], _ => true
  | _ :: _, [] => false
  | x :: a', y :: b' => (x <? y) || ((x =? y) && str_leb a' b')
  end.

Definition str_le (a b : str) : Prop := str_leb a b = true.

#[global] Instance str_le_dec : RelDecision str_le :=
  fun a b => decide (str_leb a b = true).

(** [sorted(l)] on texts. *)
Definition sorted_names (l : list str) : list str := merge_sort str_le l.

(** [s.endswith(suffix)] *)
Definition endswith (suffix s : str) : bool :=
  match Py.strip_prefix (rev suffix) (rev s) with
  | Some _ => true
  | None => false
  end.

(** [os.path.join(directory, file)], as [posixpath] has it. *)
Definition path_join (directory file : str) : str :=
  if match file with c :: _ => c =? 47 | [] => false end then file
  else match rev directory with
       | [] => file
       | c :: _ => if c =? 47 then directory ++ file
                   else directory ++ 47 :: file
       end.

(** A dict is the list of its items in the order of insertion;
    [d[k] = v]. *)
Fixpoint set_key {A : Type} (k : string) (v : A) (d : list (string * A))
    : list (string * A) :=
  match d with
  | [] => [(k, v)]
  | (k', v') :: d' =>
      if decide (k = k') then (k, v) :: d' else (k', v') :: set_key k v d'
  end.

(** [pd.DataFrame(contacts)] for a list of dicts: one row for each dict,
    and for columns the keys, in the order in which they first come. *)
Definition add_keys {A : Type} (cols : list string) (d : list (string * A))
    : list string :=
  fold_left (fun cols k => if bool_decide (k ∈ cols) then cols else cols ++ [k])
    (map fst d) cols.

Definition data_frame {A : Type} (contacts : list (list (string * A)))
    : table A :=
  Table (fold_left add_keys contacts [])
        (map (fun d => list_to_map d) contacts).

Inductive vcf_error : Type :=
| ReadError      (* [open] or [read] raised *)
| EncodeError    (* [encode] raised: the text holds a surrogate *)
| ParseError.    (* [readOne] raised, or gave no card *)

Definition reading : string := "Reading directory".
Definition parsing : string := "Parsing files".

Section Directory.
Context `{Services} {obj : Type}.
(** [open(path, "r").read()]: [None] when it raises. *)
Variable read_text : str -> option str.
(** [vo.readOne(content).contents], the properties of the card with
    their values: [None] when it raises. *)
Variable read_one : str -> option (list (string * obj)).

(** The tags that line 71 finds in a card. *)
Definition tags (content : str) : list str :=
  map (Rg.group 1) (Rg.finditer true Pat2.tag_line content).

(** Lines 73-75: each tag found is replaced, wherever its text stands
    in the card, by what [unidecode] makes of it. *)
Definition clean_tags (content : str) : str :=
  fold_left (fun content tag => Py.replace tag (unidecode tag) content)
    (tags content) content.

(** The state of the loop over the files. *)
Record scan : Type := {
  contacts : list (list (string * item obj));
  sent : list report;
  current_file : nat;
  failure : option vcf_error;
}.

Definition send (progress : bool) (e : nat -> report) (st : scan) : scan :=
  if progress
  then {| contacts := contacts st; sent := sent st ++ [e (current_file st)];
          current_file := current_file st; failure := failure st |}
  else st.

Definition fail (e : vcf_error) (st : scan) : scan :=
  {| contacts := contacts st; sent := sent st;
     current_file := current_file st; failure := Some e |}.

(** Lines 48-50: the report of a file, after which the counter moves
    on; without signal the counter stays. *)
Definition count_file (progress : bool) (files_number : nat) (st : scan)
    : scan :=
  let st := send progress
              (fun n => [Num n; Num 0; Num files_number;
                         Msg parsing; Msg reading]) st in
  if progress
  then {| contacts := contacts st; sent := sent st;
          current_file := S (current_file st); failure := failure st |}
  else st.

(** The loop of line 45 over the names [todo] still to come, the next
    of them being the one of rank [i]. *)
Fixpoint files_loop (progress : bool) (killswitch : option (nat -> bool))
    (directory : str) (files_number : nat) (i : nat) (todo : list str)
    (st : scan) : scan :=
  match todo with
  | [] => st
  | file :: todo' =>
      let st := count_file progress files_number st in
      if set_at killswitch i
      then send progress
             (fun n => [Num n; Num 0; Num n; Num files_number;
                        Msg "cancel"; Msg reading]) st
      else if endswith (py ".vcf") file then
        let path := path_join directory file in
        match read_text path with
        | None => fail ReadError st
        | Some content =>
            if forallb code_point content then
              let content := clean_tags content in
              match read_one content with
              | None => fail ParseError st
              | Some parsed =>
                  let parsed := map (fun kv => (kv.1, Obj kv.2)) parsed in
                  let parsed := set_key "file" (Txt path) parsed in
                  files_loop progress killswitch directory files_number
                    (S i) todo'
                    {| contacts := contacts st ++ [parsed];
                       sent := sent st;
                       current_file := current_file st;
                       failure := failure st |}
              end
            else fail EncodeError st
        end
      else files_loop progress killswitch directory files_number (S i)
             todo' st
  end.

(** What lines 60-79 make of the file [file] when they do not raise:
    the properties of its card, and its path under the key [file]. *)
Definition contact_of (directory file : str)
    : option (list (string * item obj)) :=
  let path := path_join directory file in
  content ← read_text path;
  if forallb code_point content then
    parsed ← read_one (clean_tags content);
    Some (set_key "file" (Txt path) (map (fun kv => (kv.1, Obj kv.2)) parsed))
  else None.

(** A name that is not the one of a card, or whose card is read and
    parsed without exception. *)
Definition good (directory file : str) : Prop :=
  endswith (py ".vcf") file = true -> is_Some (contact_of directory file).

(** The contacts of the cards among the names [names]. *)
Definition contacts_of (directory : str) (names : list str)
    : list (list (string * item obj)) :=
  omap (fun file => if endswith (py ".vcf") file
                    then contact_of directory file else None) names.

(** The report that opens the file of rank [n] (line 49). *)
Definition file_report (files_number n : nat) : report :=
  [Num n; Num 0; Num files_number; Msg parsing; Msg reading].

(** What a call leaves: the frame it returns unless it raised, what it
    emitted, and the exception if it raised. *)
Record listing : Type := {
  listed : option (table (item obj));
  file_reports : list report;
  file_error : option vcf_error;
}.

(** [list_vcf_in_directory(directory, progress, killswitch)], where
    [all_files] is what [os.listdir(directory)] returns. *)
Definition list_vcf_in_directory (directory : str) (all_files : list str)
    (progress : bool) (killswitch : option (nat -> bool)) : listing :=
  let files_number := length all_files in
  let st := files_loop progress killswitch directory files_number 0
              (sorted_names all_files)
              {| contacts := []; sent := []; current_file := 0;
                 failure := None |} in
  match failure st with
  | Some e =>
      {| listed := None; file_reports := sent st; file_error := Some e |}
  | None =>
      let st := send progress
                  (fun n => [Num n; Num files_number; Num files_number;
                             Msg parsing; Msg reading]) st in
      {| listed := Some (data_frame (contacts st)); file_reports := sent st;
         file_error := None |}
  end.
End Directory.

(** ** Examples to run the two functions on *)

Module Sample.

(** A frame of two contacts, one without address; the column [tel]
    holds no value. The values are texts already. *)
Definition two : table (item str) :=
  Table ["tel"; "note"; "fn"; "adr"]%string
    [ {[ "fn"%string := Obj (py "[<FN{}Jo>]");
         "adr"%string := Obj (py "[<ADR{}paris>]") ]};
      {[ "fn"%string := Obj (py "[<FN{}Al>]");
         "note"%string := Obj (py "[<NOTE{}x>]") ]} ].

(** A frame of one contact who has a name only. *)
Definition nameless : table (item str) :=
  Table ["fn"]%string [ {[ "fn"%string := Obj (py "[<FN{}Jo>]") ]} ].

Definition plain (s : str) : str := s.

(** A directory of two cards and a picture. *)
Definition names : list str := [py "b.vcf"; py "a.jpg"; py "a.vcf"].

Definition card (path : str) : option str :=
  Some (py "BEGIN:VCARD" ++ [10] ++ py "FN:" ++ path).

Definition parse (content : str) : option (list (string * str)) :=
  Some [("fn"%string, content)].

(** A parser that fails on the card of [a.vcf]. *)
Definition parse_but_a (content : str) : option (list (string * str)) :=
  if endswith (py "a.vcf") content then None
  else Some [("fn"%string, content)].

End Sample.

(** * Properties *)

(** ** The primitives on examples

    Each value below is what Python gives for the same call. *)

Example sub_commas_example :
  Re.sub Pat.commas (py ",") (py "a  ,b , ,, c") = py "a ,b, c".
Proof. vm_compute. reflexivity. Qed.

Example sub_leading_comma_example :
  Re.sub Pat.leading_comma [] (py " , x") = py "x"
  /\ Re.sub Pat.leading_comma [] (py ",, x") = py ",, x"
  /\ Re.sub Pat.leading_comma [] (9 :: py ",a") = 9 :: py ",a".
Proof. vm_compute. repeat split. Qed.

Example sub_parenthesis_example :
  Re.sub Pat.parenthesis (py " ") (py "a (b) c (d) e") = py "a   e"
  /\ Re.sub Pat.parenthesis (py " ") (py "x @ESCAPEDLEFTPARENTHESIS@y) z")
     = py "x   z"
  /\ Re.sub Pat.parenthesis (py " ") [40; 97; 10; 41] = [40; 97; 10; 41].
Proof. vm_compute. repeat split. Qed.

Example sub_dashes_example :
  Re.sub Pat.dashes (py " ") (py "a-b[c]{d}--e") = py "a b c d e".
Proof. vm_compute. reflexivity. Qed.

Example sub_newlines_example :
  Re.sub Pat.newlines (py ", ") [97; 10; 13; 10; 98] = py "a, b".
Proof. vm_compute. reflexivity. Qed.

Example split_tag_example :
  Re.split Pat.tag (py "HOME: a WORK: b") = [[]; py "a "; py "b"]
  /\ Re.split Pat.tag (py "AbC: x") = [py "Ab"; py "x"]
  /\ Re.split Pat.tag (py "A: B: c") = [[]; []; py "c"]
  /\ Re.split Pat.tag (py "x HOME: ") = [py "x "; []].
Proof. vm_compute. repeat split. Qed.

Example str_methods_example :
  Py.strip trimmed (py " ,a.b;: ") = py "a.b"
  /\ Py.split 44 [] = [[]]
  /\ Py.split 44 (py "a,b,") = [py "a"; py "b"; []]
  /\ Py.strip_space [28; 32; 97; 32; 133] = py "a"
  /\ Py.replace (py "(c)") [] (py "ab(c)b(c(c))") = py "abb(c)"
  /\ Py.lower (py "12 Rue-De") = py "12 rue-de".
Proof. vm_compute. repeat split. Qed.

Example build_query_example :
  build_query (py "12 rue, paris") Unrestricted
  = py "q=12+rue%2C+paris&format=json"
  /\ build_query (py "a  b") (Country None)
     = py "q=a+b&countrycodes=None&format=json"
  /\ build_query (py " a+b ") (Country (Some (py "fr")))
     = py "q=+a%2Bb+&countrycodes=fr&format=json"
  /\ build_query [233; 126; 120; 47; 121] Unrestricted
     = py "q=%C3%A9~x%2Fy&format=json"
  /\ build_query [97; 9; 98] Unrestricted = py "q=a%09b&format=json".
Proof. vm_compute. repeat split. Qed.

(** ** The fallback chain of a piece *)

Section Chain.
Context `{Services}.

Lemma try_each_app (l1 l2 : list candidate) : forall w,
  try_each w (l1 ++ l2) =
    match try_each w l1 with
    | (w', Some out) => (w', Some out)
    | (w', None) => try_each w' l2
    end.
Proof.
  induction l1 as [|c l1 IH]; intros w; simpl; [reflexivity|].
  destruct (first_result w (query_of c)) as [w' [out|]]; [reflexivity|].
  apply IH.
Qed.

Lemma try_windows_try_each country_code sub_elems rounds : forall w,
  try_windows country_code sub_elems rounds w =
    try_each w
      (map (fun i => (window sub_elems i, Country country_code)) rounds).
Proof.
  induction rounds as [|i rounds IH]; intros w; simpl; [reflexivity|].
  unfold query_of; simpl.
  destruct (first_result w _) as [w' [out|]]; [reflexivity|].
  apply IH.
Qed.

(** The nested handlers of lines 232-293 send the candidates of the piece
    in order and stop at the first result. *)
Lemma resolve_elem_try_each w result flag_accurate elem :
  normalize_elem elem <> [] ->
  resolve_elem (w, result, flag_accurate) elem =
    conclude (w, result, flag_accurate) (normalize_elem elem)
      (try_each w (candidates (normalize_elem elem))).
Proof.
  intros Hne. unfold resolve_elem, conclude, exact_hit.
  destruct (normalize_elem elem) as [|c0 e] eqn:He; [congruence|].
  simpl Nat.eqb. cbv iota.
  unfold candidates.
  destruct (get_country_code_from_text (c0 :: e)) as [country_code filtered].
  cbn [try_each]. unfold query_of. cbn [fst snd].
  destruct (first_result w (build_query (c0 :: e) Unrestricted))
    as [w1 [out|]]; [reflexivity|].
  destruct (first_result w1 (build_query filtered (Country country_code)))
    as [w2 [out|]]; [reflexivity|].
  rewrite try_each_app, <- try_windows_try_each.
  destruct (try_windows _ _ _ w2) as [w3 [out|]]; [reflexivity|].
  cbn [try_each]. unfold query_of. cbn [fst snd].
  destruct (first_result w3 _) as [w4 [out|]]; cbn [fst snd orb];
    [reflexivity | now rewrite app_nil_r].
Qed.

Lemma resolve_elem_empty a elem :
  normalize_elem elem = [] -> resolve_elem a elem = a.
Proof.
  intros He. unfold resolve_elem. destruct a as [[w result] flag].
  rewrite He. reflexivity.
Qed.

Lemma attempts_prefix cs : forall w, attempts w cs `prefix_of` cs.
Proof.
  induction cs as [|c cs IH]; intros w; simpl; [reflexivity|].
  destruct (first_result w (query_of c)) as [w' [out|]].
  - exists cs. reflexivity.
  - apply prefix_cons, IH.
Qed.

Lemma candidates_length elem :
  length (candidates elem) =
    (components (snd (get_country_code_from_text elem)) + 2)%nat.
Proof.
  unfold candidates, components.
  destruct (get_country_code_from_text elem) as [cc filtered]; simpl.
  rewrite length_app, length_map. unfold range. rewrite length_seq. simpl.
  assert (0 < length (Py.split 44 filtered))%nat.
  { destruct filtered as [|c s]; simpl; [lia|].
    destruct (c =? 44); simpl; [lia|].
    destruct (Py.split 44 s); simpl; lia. }
  lia.
Qed.
End Chain.

(** ** The windows *)

Section Windows.

Lemma split_nonempty sep s : Py.split sep s <> [].
Proof.
  destruct s as [|c s]; simpl; [discriminate|].
  destruct (c =? sep); [discriminate|].
  destruct (Py.split sep s); discriminate.
Qed.

Lemma split_without sep s :
  Forall (fun c => c <> sep) s -> Py.split sep s = [s].
Proof.
  induction 1 as [|c s Hc _ IH]; simpl; [reflexivity|].
  destruct (N.eqb_spec c sep); [contradiction|]. now rewrite IH.
Qed.

Lemma split_app_sep sep x s :
  Forall (fun c => c <> sep) x ->
  Py.split sep (x ++ sep :: s) = x :: Py.split sep s.
Proof.
  induction 1 as [|c x Hc _ IH]; simpl.
  - now rewrite N.eqb_refl.
  - destruct (N.eqb_spec c sep); [contradiction|]. now rewrite IH.
Qed.

Lemma split_pieces sep s :
  Forall (Forall (fun c => c <> sep)) (Py.split sep s).
Proof.
  induction s as [|c s IH]; simpl.
  - repeat constructor.
  - destruct (N.eqb_spec c sep) as [->|Hc].
    + constructor; [constructor | exact IH].
    + destruct (Py.split sep s) as [|p ps]; [repeat constructor; assumption|].
      inversion IH; subst. constructor; [constructor|]; assumption.
Qed.

Lemma split_join l :
  l <> [] -> Forall (Forall (fun c => c <> 44)) l ->
  Py.split 44 (Url.join (py ",") l) = l.
Proof.
  intros Hl Hall. induction Hall as [|x l Hx Hall IH]; [congruence|].
  destruct l as [|y l].
  - simpl. now apply split_without.
  - change (Url.join (py ",") (x :: y :: l))
      with (x ++ 44 :: Url.join (py ",") (y :: l)).
    rewrite split_app_sep by assumption. f_equal. now apply IH.
Qed.

Lemma drop_while_Forall (P : N -> Prop) p s :
  Forall P s -> Forall P (Py.drop_while p s).
Proof.
  induction 1 as [|c s Hc Hs IH]; simpl; [constructor|].
  destruct (p c); [assumption | now constructor].
Qed.

Lemma strip_space_Forall (P : N -> Prop) s :
  Forall P s -> Forall P (Py.strip_space s).
Proof.
  intros Hs. unfold Py.strip_space.
  apply Forall_rev, drop_while_Forall, Forall_rev, drop_while_Forall, Hs.
Qed.

(** Round [i] of the loop of line 262 builds the text of the components
    after component [i]: the last [n - 1 - i] of them. *)
Lemma window_suffix (sub_elems : list str) (i : nat) :
  (S i < length sub_elems)%nat ->
  window sub_elems i =
    Url.join (py ",") (map Py.strip_space (drop (S i) sub_elems)).
Proof.
  intros Hi. unfold window, range.
  set (n := length sub_elems) in *.
  assert (Hgen : forall c, (c + 1 <= n)%nat ->
    fold_left
      (fun q j => Py.strip_space (from_end sub_elems j) ++ py "," ++ q)
      (seq 2 c) (Py.strip_space (from_end sub_elems 1)) =
    Url.join (py ",") (map Py.strip_space (drop (n - 1 - c) sub_elems))).
  { induction c as [|c IH]; intros Hc.
    - simpl. unfold from_end. fold n.
      replace (n - 1 - 0)%nat with (n - 1)%nat by lia.
      destruct (lookup_lt_is_Some_2 sub_elems (n - 1)) as [x Hx]; [lia|].
      rewrite (drop_S _ x) by exact Hx.
      rewrite drop_ge by (fold n; lia). simpl.
      now rewrite (nth_lookup_Some _ _ _ _ Hx).
    - rewrite seq_S, fold_left_app, IH by lia. cbn [fold_left]. unfold from_end. fold n.
      destruct (lookup_lt_is_Some_2 sub_elems (n - (2 + c))) as [x Hx]; [lia|].
      destruct (lookup_lt_is_Some_2 sub_elems (n - 1 - c)) as [y Hy]; [lia|].
      rewrite (nth_lookup_Some _ _ _ _ Hx).
      replace (n - 1 - S c)%nat with (n - (2 + c))%nat by lia.
      rewrite (drop_S _ x (n - (2 + c))) by exact Hx.
      replace (S (n - (2 + c))) with (n - 1 - c)%nat by lia.
      rewrite (drop_S _ y (n - 1 - c)) by exact Hy.
      reflexivity. }
  rewrite Hgen by lia. do 3 f_equal. lia.
Qed.

Lemma components_window (filtered : str) (i : nat) :
  (S i < components filtered)%nat ->
  components (window (Py.split 44 filtered) i) =
    (components filtered - 1 - i)%nat.
Proof.
  unfold components. intros Hi.
  rewrite window_suffix by exact Hi.
  rewrite split_join.
  - rewrite length_map, length_drop. lia.
  - intros Hnil. apply (f_equal length) in Hnil.
    rewrite length_map, length_drop in Hnil. simpl in Hnil. lia.
  - apply Forall_map, Forall_drop.
    eapply Forall_impl; [apply split_pieces|].
    intros x Hx. now apply strip_space_Forall.
Qed.

Lemma components_first (filtered : str) :
  components (Py.strip_space (nth 0 (Py.split 44 filtered) [])) = 1%nat.
Proof.
  unfold components. rewrite split_without; [reflexivity|].
  apply strip_space_Forall.
  pose proof (split_pieces 44 filtered) as Hall.
  destruct (Py.split 44 filtered) as [|x l]; simpl; [constructor|].
  now inversion Hall.
Qed.
End Windows.

Section Order.
Context `{Services}.

(** After the first candidate, the candidate at position [k + 1] has
    [n - k] components, and the last one has one, for a text left by the
    checker that has [n] of them. *)
Lemma candidates_components elem k c :
  candidates elem !! S k = Some c ->
  components (fst c) =
    Nat.max 1 (components (snd (get_country_code_from_text elem)) - k).
Proof.
  unfold candidates.
  destruct (get_country_code_from_text elem) as [cc filtered].
  cbn [snd]. set (n := components filtered).
  assert (Hn : (0 < n)%nat).
  { unfold n, components. pose proof (split_nonempty 44 filtered).
    destruct (Py.split 44 filtered); [congruence | simpl; lia]. }
  change (length (Py.split 44 filtered)) with n.
  rewrite lookup_cons. cbn [Nat.pred].
  destruct k as [|k]; simpl.
  - intros [= <-]. simpl. fold n. lia.
  - intros Hk.
    apply lookup_app_Some in Hk as [Hk | [Hlen Hk]].
    + change (map ?f ?l) with (f <$> l) in Hk.
      rewrite list_lookup_fmap in Hk.
      destruct (range 0 (n - 1) !! k) as [i|] eqn:Hi; [|discriminate].
      apply lookup_seq in Hi as [-> Hi]. injection Hk as <-.
      cbn [fst]. rewrite components_window by (fold n; lia). fold n. lia.
    + rewrite length_map in Hlen, Hk. unfold range in Hlen, Hk.
      rewrite length_seq in Hlen, Hk.
      destruct (k - (n - 1 - 0))%nat as [|m] eqn:Hm; [|discriminate].
      injection Hk as <-. cbn [fst]. rewrite components_first. lia.
Qed.

Lemma first_result_cases w query :
  first_result w query =
    match fetch_cache_or_web w query with
    | (w', Returns (out :: _)) => (w', Some out)
    | (w', Returns []) => (w', None)
    | (w', Raises) => (w', None)
    end.
Proof.
  unfold first_result.
  destruct (fetch_cache_or_web w query) as [w' [[|out l]|]]; reflexivity.
Qed.

Lemma resolve_elem_flag a elem :
  snd (resolve_elem a elem) = true <->
  snd a = true \/
  (normalize_elem elem <> [] /\
   exact_hit (fst (fst a)) (normalize_elem elem) = true).
Proof.
  destruct a as [[w result] flag].
  destruct (decide (normalize_elem elem = [])) as [He|He].
  - rewrite resolve_elem_empty by exact He. simpl. tauto.
  - rewrite resolve_elem_try_each by exact He. unfold conclude. simpl.
    rewrite orb_true_iff. tauto.
Qed.

Lemma fold_resolve_flag l : forall a,
  snd (fold_left resolve_elem l a) = true <->
  snd a = true \/
  exists k elem,
    l !! k = Some elem /\ normalize_elem elem <> [] /\
    exact_hit (fst (fst (fold_left resolve_elem (take k l) a)))
      (normalize_elem elem) = true.
Proof.
  induction l as [|x l IH]; intros a.
  - simpl. split; [tauto|]. intros [Ha|(k & elem & Hk & _)]; [exact Ha|].
    discriminate.
  - cbn [fold_left]. rewrite IH, resolve_elem_flag. split.
    + intros [[Ha|[Hx Hhit]]|(k & elem & Hk & He & Hhit)].
      * now left.
      * right. exists 0%nat, x. auto.
      * right. exists (S k), elem. auto.
    + intros [Ha|(k & elem & Hk & He & Hhit)]; [tauto|].
      destruct k as [|k].
      * injection Hk as <-. left. right. auto.
      * right. exists k, elem. auto.
Qed.
End Order.

(** ** The exact flag, the bound on the candidates, the two kinds of failure *)

Section Claims_of_the_chain.
Context `{Services}.

(** C1, as the code has it: the flag of a row is true if and only if the
    first, unrestricted query of at least one of its non-empty pieces had
    a result, in the world in which that piece was handled. *)
Theorem exact_flag_of_some_piece (w : World) (hint : str) :
  snd (resolve_row w hint) = true <->
  exists k elem,
    pieces hint !! k = Some elem /\ normalize_elem elem <> [] /\
    exact_hit (world_before w (pieces hint) k) (normalize_elem elem) = true.
Proof.
  unfold resolve_row, world_before. fold (pieces hint).
  rewrite fold_resolve_flag. simpl. split.
  - intros [Hf|Hex]; [discriminate | exact Hex].
  - intros Hex. right. exact Hex.
Qed.

(** C2, as the code has it: a piece whose text left by the checker has
    [n] components has [n + 2] candidates, the first, unrestricted one
    and [2 + (n - 1)] that follow it; they are sent in their order until
    the first result, so at most [n + 2] are sent; and after the first
    one, a later candidate never has more components than an earlier
    one. *)
Theorem candidates_bound_and_order (w : World) (result : list payload)
    (flag_accurate : bool) (elem : str) :
  normalize_elem elem <> [] ->
  let e := normalize_elem elem in
  let n := components (snd (get_country_code_from_text e)) in
  resolve_elem (w, result, flag_accurate) elem =
    conclude (w, result, flag_accurate) e (try_each w (candidates e))
  /\ attempts w (candidates e) `prefix_of` candidates e
  /\ length (candidates e) = (n + 2)%nat
  /\ length (tail (candidates e)) = (2 + (n - 1))%nat
  /\ (length (attempts w (candidates e)) <= n + 2)%nat
  /\ (forall i j ci cj,
        (0 < i)%nat -> (i <= j)%nat ->
        candidates e !! i = Some ci -> candidates e !! j = Some cj ->
        (components (fst cj) <= components (fst ci))%nat).
Proof.
  intros He e n.
  pose proof (attempts_prefix (candidates e) w) as Hpre.
  pose proof (candidates_length e) as Hlen. fold n in Hlen.
  assert (Hn : (0 < n)%nat).
  { unfold n, components.
    pose proof (split_nonempty 44 (snd (get_country_code_from_text e))).
    destruct (Py.split 44 _); [congruence | simpl; lia]. }
  repeat split.
  - now apply resolve_elem_try_each.
  - exact Hpre.
  - exact Hlen.
  - destruct (candidates e); simpl in *; lia.
  - apply prefix_length in Hpre. lia.
  - intros i j ci cj Hi Hij Hci Hcj.
    destruct i as [|i]; [lia|]. destruct j as [|j]; [lia|].
    rewrite (candidates_components e i ci Hci).
    rewrite (candidates_components e j cj Hcj). fold n. lia.
Qed.

(** C4, as the code has it: the candidates of a piece are sent in order;
    the first result ends the chain and is recorded; an empty answer and
    an exception both lead to the next candidate. *)
Theorem any_failure_advances (w : World) (result : list payload)
    (flag_accurate : bool) (elem : str) :
  normalize_elem elem <> [] ->
  resolve_elem (w, result, flag_accurate) elem =
    conclude (w, result, flag_accurate) (normalize_elem elem)
      (try_each w (candidates (normalize_elem elem)))
  /\ forall w0 c cs,
       try_each w0 (c :: cs) =
         match fetch_cache_or_web w0 (query_of c) with
         | (w', Returns (out :: _)) => (w', Some out)
         | (w', Returns []) => try_each w' cs
         | (w', Raises) => try_each w' cs
         end.
Proof.
  intros He. split; [now apply resolve_elem_try_each|].
  intros w0 c cs. cbn [try_each]. rewrite first_result_cases.
  destruct (fetch_cache_or_web w0 (query_of c)) as [w' [[|out l]|]];
    reflexivity.
Qed.
End Claims_of_the_chain.

(** C3: on the text [a,b,c] the loop of line 262 builds [b,c] and then [c],
    where the comment of line 265 announces the last [n = length - i]
    components, [a,b,c] and then [b,c]. *)
Theorem windows_of_three_components :
  map (window (Py.split 44 (py "a,b,c"))) (range 0 2) = [py "b,c"; py "c"].
Proof. reflexivity. Qed.

(** C1 fails as stated: of the two pieces of [HOME: a WORK: b] only the
    second has its first query answered, and the flag of the row is true. *)
Lemma exact_flag_with_a_failed_piece :
  let hint := py "HOME: a WORK: b" in
  let w := Demo.start in
  snd (@resolve_row (Demo.only (py "q=b&format=json")) w hint) = true
  /\ exists k elem,
       @pieces (Demo.only (py "q=b&format=json")) hint !! k = Some elem
       /\ normalize_elem elem <> []
       /\ @exact_hit (Demo.only (py "q=b&format=json"))
            (@world_before (Demo.only (py "q=b&format=json")) w
               (@pieces (Demo.only (py "q=b&format=json")) hint) k)
            (normalize_elem elem) = false.
Proof.
  split; [vm_compute; reflexivity|].
  exists 1%nat, (py "a "). split; [|split].
  - vm_compute. reflexivity.
  - vm_compute. discriminate.
  - vm_compute. reflexivity.
Qed.

(** C2 fails as stated: the text [a, b] has two components and four
    different queries are sent for it, more than [2 + (2 - 1)]. *)
Lemma four_candidates_for_two_components :
  let w := fst (fst (@resolve_elem Demo.nothing (Demo.start, [], false) (py "a, b"))) in
  components (snd (Demo.no_country (normalize_elem (py "a, b")))) = 2%nat
  /\ Demo.asked w =
       [py "q=a%2C+b&format=json"; py "q=a%2C+b&countrycodes=None&format=json";
        py "q=b&countrycodes=None&format=json";
        py "q=a&countrycodes=None&format=json"]
  /\ NoDup (Demo.asked w)
  /\ ~ (length (Demo.asked w) <= 2 + (2 - 1))%nat.
Proof.
  split; [|split; [|split]].
  - vm_compute. reflexivity.
  - vm_compute. reflexivity.
  - apply (bool_decide_unpack _). vm_compute. reflexivity.
  - vm_compute. lia.
Qed.

(** C4 fails as stated: the first query of [paris, france] finds the service
    unavailable; the next candidate is sent to the network all the same,
    and the piece is resolved with its answer. *)
Lemma unavailable_then_fetched :
  let q1 := py "q=paris%2C+france&format=json" in
  let q2 := py "q=paris%2C+&countrycodes=fr&format=json" in
  snd (@fetch_cache_or_web Demo.late Demo.start q1) = Raises
  /\ match @resolve_elem Demo.late (Demo.start, [], false) (py "paris, france") with
     | (w, result, _) => Demo.fetched w = [q1; q2] /\ result = [q2]
     end.
Proof. vm_compute. repeat split. Qed.

(** ** The pass over the rows *)

Section Pass.
Context `{Services}.

Lemma outcome_emit progress e st : outcome (emit progress e st) = outcome st.
Proof. destruct progress; reflexivity. Qed.

Lemma world_emit progress e st : world (emit progress e st) = world st.
Proof. destruct progress; reflexivity. Qed.

Lemma data_emit progress e st : data (emit progress e st) = data st.
Proof. destruct progress; reflexivity. Qed.

Lemma index_emit progress e st : index (emit progress e st) = index st.
Proof. destruct progress; reflexivity. Qed.

Lemma raised_emit progress e st : raised (emit progress e st) = raised st.
Proof. destruct progress; reflexivity. Qed.

Lemma quiet_below_spec killswitch k :
  quiet_below killswitch k = true ->
  forall j, (j < k)%nat -> set_at killswitch j = false.
Proof.
  unfold quiet_below, set_at. destruct killswitch as [is_set|]; [|reflexivity].
  rewrite forallb_forall. intros Hall j Hj.
  apply negb_true_iff, Hall, in_seq. lia.
Qed.

Section Invariant.
(** A property of the world that every row keeps, and what it then
    tells about the result and the flag of a row. *)
Variable P : World -> Prop.
Variable Q : str -> list payload -> bool -> Prop.
Hypothesis row_keeps : forall w hint,
  P w ->
  P (fst (fst (resolve_row w hint)))
  /\ Q hint (snd (fst (resolve_row w hint))) (snd (resolve_row w hint)).

(** The loop writes an outcome into every row from [i] up to the row
    [k] at which the switch is first set, or up to the end, whichever
    comes first, and leaves the other rows as they are. *)
Lemma rows_loop_until progress killswitch entries k : forall todo i st,
  (i <= k)%nat ->
  (forall j, (i <= j < k)%nat -> set_at killswitch j = false) ->
  ((k < i + length todo)%nat -> set_at killswitch k = true) ->
  (forall j r, (i + j < k)%nat -> todo !! j = Some r ->
               exists hint, r !! "geohint"%string = Some (Str hint)) ->
  P (world st) ->
  let st' := rows_loop progress killswitch entries i todo st in
  let stop := Nat.min k (i + length todo) in
  (stop = k \/ P (world st'))
  /\ raised st' = raised st
  /\ length (data st') = length (data st)
  /\ (forall j, (j < i \/ stop <= j)%nat -> data st' !! j = data st !! j)
  /\ (forall j r, (i <= j < stop)%nat -> data st !! j = Some r ->
        exists hint result flag_accurate,
          todo !! (j - i)%nat ≫= (fun r0 => r0 !! "geohint"%string)
            = Some (Str hint)
          /\ Q hint result flag_accurate
          /\ data st' !! j = Some (write_outcome result flag_accurate r))
  /\ (todo <> [] -> index st' = Some (Nat.min k (i + length todo - 1))).
Proof.
  induction todo as [|r todo IH]; intros i st Hik Hquiet Hset Hhint HP.
  - simpl. replace (Nat.min k (i + 0)) with i by lia.
    split; [|split; [|split; [|split; [|split]]]];
      try reflexivity; try congruence.
    + destruct (decide (i = k)); [left; assumption | right; exact HP].
    + intros j r' Hj. lia.
  - cbn [rows_loop length]. cbn [length] in Hset.
    set (st1 := emit progress (i, 0%nat, entries, downloading, stage) _).
    assert (Hw1 : world st1 = world st) by (unfold st1; now rewrite world_emit).
    assert (Hd1 : data st1 = data st) by (unfold st1; now rewrite data_emit).
    assert (Hr1 : raised st1 = raised st) by (unfold st1; now rewrite raised_emit).
    assert (Hi1 : index st1 = Some i) by (unfold st1; now rewrite index_emit).
    destruct (set_at killswitch i) eqn:Hkill.
    + (* the switch is set at this row *)
      assert (i = k) as ->.
      { destruct (decide (i = k)); [assumption|].
        rewrite Hquiet in Hkill by lia. discriminate. }
      replace (Nat.min k (k + S (length todo))) with k by lia.
      rewrite world_emit, raised_emit, data_emit, index_emit.
      rewrite Hr1, Hd1, Hi1.
      split; [|split; [|split; [|split; [|split]]]]; try reflexivity.
      * now left.
      * intros j r' Hj. lia.
      * intros _. f_equal. lia.
    + assert (i < k)%nat as Hlt.
      { destruct (decide (i = k)) as [->|]; [|lia].
        rewrite Hset in Hkill by (simpl; lia). discriminate. }
      destruct (Hhint 0%nat r) as [hint Hh]; [lia | reflexivity |].
      rewrite Hh. rewrite Hw1.
      destruct (row_keeps (world st) hint HP) as [HP' HQ].
      destruct (resolve_row (world st) hint) as [[w result] flag].
      cbn [fst snd] in HP', HQ.
      set (st2 := {| world := w |}).
      specialize (IH (S i) st2).
      destruct IH as (IHP & IHr & IHlen & IHout & IHin & IHidx).
      * lia.
      * intros j Hj. apply Hquiet. lia.
      * intros Hk. apply Hset. lia.
      * intros j r' Hj Hr'. apply (Hhint (S j) r'); [lia | exact Hr'].
      * exact HP'.
      * replace (Nat.min k (i + S (length todo)))
          with (Nat.min k (S i + length todo)) by lia.
        assert (Hd2 : data st2 = alter (write_outcome result flag) i (data st)).
        { unfold st2. cbn [data]. now rewrite Hd1. }
        split; [|split; [|split; [|split; [|split]]]].
        -- exact IHP.
        -- rewrite IHr. exact Hr1.
        -- rewrite IHlen, Hd2. apply length_alter.
        -- intros j Hj. rewrite IHout by lia. rewrite Hd2.
           apply list_lookup_alter_ne. lia.
        -- intros j r' Hj Hr'. destruct (decide (j = i)) as [->|Hne].
           ++ exists hint, result, flag. split; [|split; [exact HQ|]].
              { rewrite Nat.sub_diag. cbn. exact Hh. }
              rewrite IHout by lia. rewrite Hd2, list_lookup_alter_eq, Hr'.
              reflexivity.
           ++ destruct (IHin j r') as (hint' & res' & fl' & Hh' & HQ' & Hd');
                [lia | |].
              { rewrite Hd2.
                rewrite list_lookup_alter_ne by lia. exact Hr'. }
              exists hint', res', fl'. split; [|split; assumption].
              replace (j - i)%nat with (S (j - S i)) by lia. exact Hh'.
        -- intros _. destruct todo as [|r' todo'].
           ++ simpl. unfold st2. cbn [index]. rewrite Hi1. f_equal. lia.
           ++ rewrite IHidx by discriminate. f_equal. simpl. lia.
Qed.

Lemma before_rows_outcome frame progress w :
  outcome (before_rows frame progress w) =
    (fst (requests_get w), map with_geohint frame, None, None).
Proof.
  unfold before_rows, outcome. rewrite world_emit. cbn [world].
  destruct (requests_get w) as [w1 reached].
  destruct reached, progress; reflexivity.
Qed.

Lemma after_rows_data progress entries st :
  data (after_rows progress entries st) = data st.
Proof.
  unfold after_rows. destruct (raised st); [reflexivity|].
  destruct progress; [|reflexivity]. now destruct (index st).
Qed.

Lemma after_rows_world progress entries st :
  world (after_rows progress entries st) = world st.
Proof.
  unfold after_rows. destruct (raised st); [reflexivity|].
  destruct progress; [|reflexivity]. now destruct (index st).
Qed.

Lemma after_rows_index progress entries st :
  index (after_rows progress entries st) = index st.
Proof.
  unfold after_rows. destruct (raised st); [reflexivity|].
  destruct progress; [|reflexivity].
  destruct (index st) eqn:Hi; [now rewrite index_emit | reflexivity].
Qed.

Lemma after_rows_raised progress entries st :
  raised (after_rows progress entries st) =
    match raised st with
    | Some e => Some e
    | None =>
        if progress then
          match index st with
          | Some _ => None
          | None => Some UnboundLocalError
          end
        else None
    end.
Proof.
  unfold after_rows. destruct (raised st) eqn:Hr; [exact Hr|].
  destruct progress; [|exact Hr].
  destruct (index st); [now rewrite raised_emit | reflexivity].
Qed.

Lemma with_geohint_has_adr r :
  has_adr r = true ->
  exists hint, with_geohint r !! "geohint"%string = Some (Str hint).
Proof.
  unfold has_adr, with_geohint.
  destruct (r !! "adr"%string) as [[adr|b]|]; try discriminate.
  intros _. exists (geohint adr). apply lookup_insert_eq.
Qed.

(** The whole call, when the switch is first set at row [k], or never
    if [k] is not a row: the rows before [k] get their outcome, the
    others only their [geohint], and the call raises only when there
    is no row and a progress signal. *)
Lemma get_geoID_until frame progress killswitch w k :
  quiet_below killswitch k = true ->
  ((k < length frame)%nat -> set_at killswitch k = true) ->
  forallb has_adr (take k frame) = true ->
  P (fst (requests_get w)) ->
  let st' := get_geoID frame progress killswitch w in
  let stop := Nat.min k (length frame) in
  (stop = k \/ P (world st'))
  /\ raised st' =
       (if progress && (length frame =? 0)%nat
        then Some UnboundLocalError else None)
  /\ length (data st') = length frame
  /\ (forall j r, (j < stop)%nat -> frame !! j = Some r ->
        exists hint result flag_accurate,
          with_geohint r !! "geohint"%string = Some (Str hint)
          /\ Q hint result flag_accurate
          /\ data st' !! j =
               Some (write_outcome result flag_accurate (with_geohint r)))
  /\ (forall j r, (stop <= j)%nat -> frame !! j = Some r ->
        data st' !! j = Some (with_geohint r))
  /\ (frame <> [] -> index st' = Some (Nat.min k (length frame - 1))).
Proof.
  intros Hquiet Hset Hadr HP. unfold get_geoID.
  pose proof (before_rows_outcome frame progress w) as Hb.
  set (st0 := before_rows frame progress w) in *.
  unfold outcome in Hb. injection Hb as Hw0 Hd0 Hi0 Hr0.
  rewrite Hd0.
  destruct (rows_loop_until progress killswitch (length frame) k
              (map with_geohint frame) 0%nat st0)
    as (HP' & Hr & Hlen & Hout & Hin & Hidx).
  - lia.
  - intros j Hj. apply (quiet_below_spec _ _ Hquiet). lia.
  - rewrite length_map. exact Hset.
  - intros j r Hj Hr.
    change (map with_geohint frame) with (with_geohint <$> frame) in Hr.
    rewrite list_lookup_fmap in Hr.
    destruct (frame !! j) as [r0|] eqn:Hr0'; [|discriminate].
    injection Hr as <-. apply with_geohint_has_adr.
    rewrite forallb_forall in Hadr. apply Hadr.
    apply list_elem_of_In, list_elem_of_lookup. exists j.
    rewrite lookup_take_lt by lia. exact Hr0'.
  - rewrite Hw0. exact HP.
  - rewrite length_map in HP', Hout, Hin, Hidx. cbn [Nat.add] in *.
    set (st1 := rows_loop _ _ _ _ _ _) in *.
    rewrite Hd0 in Hlen, Hout, Hin. rewrite length_map in Hlen.
    rewrite after_rows_data, after_rows_world.
    split; [exact HP'|]. split; [|split; [exact Hlen|split; [|split]]].
    + rewrite after_rows_raised, Hr, Hr0.
      destruct progress; [|reflexivity]. cbn [andb].
      destruct frame as [|r0 frame]; cbn [length Nat.eqb].
      * unfold st1. cbn [map rows_loop]. rewrite Hi0. reflexivity.
      * rewrite Hidx by discriminate. reflexivity.
    + intros j r Hj Hr'.
      destruct (Hin j (with_geohint r))
        as (hint & res & fl & Hh & HQ & Hd); [lia | |].
      { change (map with_geohint frame) with (with_geohint <$> frame).
        now rewrite list_lookup_fmap, Hr'. }
      exists hint, res, fl. split; [|split; assumption].
      rewrite Nat.sub_0_r in Hh.
      change (map with_geohint frame) with (with_geohint <$> frame) in Hh.
      rewrite list_lookup_fmap, Hr' in Hh. exact Hh.
    + intros j r Hj Hr'. rewrite Hout by lia.
      change (map with_geohint frame) with (with_geohint <$> frame).
      now rewrite list_lookup_fmap, Hr'.
    + intros Hne. rewrite after_rows_index.
      apply Hidx. destruct frame; [congruence | discriminate].
Qed.
End Invariant.
End Pass.

(** ** What a row yields *)

Section Rows.
Context `{Services}.

Lemma exact_hit_try_each w e :
  exact_hit w e = true -> snd (try_each w (candidates e)) <> None.
Proof.
  unfold exact_hit, candidates.
  destruct (get_country_code_from_text e) as [cc filtered].
  cbn [try_each]. unfold query_of at 1. cbn [fst snd].
  destruct (first_result w (build_query e Unrestricted)) as [w' [out|]];
    [discriminate | discriminate].
Qed.

(** A row whose flag is true has a result. *)
Lemma resolve_elem_flag_result a elem :
  (snd a = true -> snd (fst a) <> []) ->
  snd (resolve_elem a elem) = true -> snd (fst (resolve_elem a elem)) <> [].
Proof.
  destruct a as [[w result] flag]. cbn [fst snd]. intros Ha.
  destruct (decide (normalize_elem elem = [])) as [He|He].
  - rewrite resolve_elem_empty by exact He. exact Ha.
  - rewrite resolve_elem_try_each by exact He. unfold conclude. cbn [fst snd].
    intros Hf. apply orb_true_iff in Hf as [Hhit|Hf].
    + apply exact_hit_try_each in Hhit.
      destruct (snd (try_each w (candidates (normalize_elem elem))));
        [|congruence].
      intros Hnil. now apply app_eq_nil in Hnil as [_ ?].
    + intros Hnil. apply app_eq_nil in Hnil as [Hnil _]. now apply Ha.
Qed.

Lemma resolve_row_flag_result w hint :
  snd (resolve_row w hint) = true -> snd (fst (resolve_row w hint)) <> [].
Proof.
  unfold resolve_row.
  generalize (Re.split Pat.tag (decode hint)). intros l.
  assert (Hgen : forall a, (snd a = true -> snd (fst a) <> []) ->
    snd (fold_left resolve_elem l a) = true ->
    snd (fst (fold_left resolve_elem l a)) <> []).
  { induction l as [|x l IH]; intros a Ha; [exact Ha|].
    cbn [fold_left]. apply IH. now apply resolve_elem_flag_result. }
  apply Hgen. discriminate.
Qed.

Section Dead.
(** Worlds in which no query has a first result. *)
Variable P : World -> Prop.
Hypothesis dead : forall w query,
  P w ->
  P (fst (fetch_cache_or_web w query))
  /\ snd (first_result w query) = None.

Lemma dead_first_result w query :
  P w -> exists w', first_result w query = (w', None) /\ P w'.
Proof.
  intros Hw. destruct (dead w query Hw) as [HP Hnone].
  unfold first_result in *.
  destruct (fetch_cache_or_web w query) as [w' r]. cbn [fst snd] in *.
  exists w'. split; [now f_equal | exact HP].
Qed.

Lemma dead_try_each cs : forall w,
  P w -> exists w', try_each w cs = (w', None) /\ P w'.
Proof.
  induction cs as [|c cs IH]; intros w Hw; cbn [try_each].
  - now exists w.
  - destruct (dead_first_result w (query_of c) Hw) as (w' & -> & Hw').
    now apply IH.
Qed.

Lemma dead_resolve_elem w result flag elem :
  P w ->
  exists w', resolve_elem (w, result, flag) elem = (w', result, flag)
             /\ P w'.
Proof.
  intros Hw. destruct (decide (normalize_elem elem = [])) as [He|He].
  - rewrite resolve_elem_empty by exact He. now exists w.
  - rewrite resolve_elem_try_each by exact He. unfold conclude, exact_hit.
    destruct (dead_try_each (candidates (normalize_elem elem)) w Hw)
      as (w' & -> & Hw').
    destruct (dead_first_result w
                (build_query (normalize_elem elem) Unrestricted) Hw)
      as (w1 & -> & _).
    exists w'. cbn [fst snd orb]. now rewrite app_nil_r.
Qed.

Lemma dead_resolve_row w hint :
  P w ->
  P (fst (fst (resolve_row w hint)))
  /\ (snd (fst (resolve_row w hint)) = []
      /\ snd (resolve_row w hint) = false).
Proof.
  unfold resolve_row. generalize (Re.split Pat.tag (decode hint)).
  intros l. revert w. induction l as [|x l IH]; intros w Hw.
  - cbn. auto.
  - cbn [fold_left].
    destruct (dead_resolve_elem w [] false x Hw) as (w' & -> & Hw').
    now apply IH.
Qed.
End Dead.

Lemma same_elsewhere_refl r : same_elsewhere r r.
Proof. intros col _. reflexivity. Qed.

Lemma same_elsewhere_trans r1 r2 r3 :
  same_elsewhere r1 r2 -> same_elsewhere r2 r3 -> same_elsewhere r1 r3.
Proof. intros H12 H23 col Hcol. now rewrite H23, H12. Qed.

Lemma same_elsewhere_write result flag r :
  same_elsewhere r (write_outcome result flag r).
Proof.
  intros col Hcol. unfold write_outcome, written in *.
  rewrite !lookup_insert_ne by set_solver. reflexivity.
Qed.

Lemma same_elsewhere_hint r : same_elsewhere r (with_geohint r).
Proof.
  intros col Hcol. unfold with_geohint, written in *.
  destruct (r !! "adr"%string) as [[adr|b]|].
  - rewrite lookup_insert_ne by set_solver. reflexivity.
  - rewrite lookup_insert_ne by set_solver. reflexivity.
  - rewrite lookup_delete_ne by set_solver. reflexivity.
Qed.

Lemma rows_loop_frame progress killswitch entries todo : forall i st,
  Forall2 same_elsewhere (data st)
    (data (rows_loop progress killswitch entries i todo st)).
Proof.
  induction todo as [|r todo IH]; intros i st; cbn [rows_loop].
  - apply Forall_Forall2_diag, Forall_forall. intros; apply same_elsewhere_refl.
  - destruct (set_at killswitch i).
    + rewrite !data_emit. cbn [data].
      apply Forall_Forall2_diag, Forall_forall.
      intros; apply same_elsewhere_refl.
    + destruct (r !! "geohint"%string) as [[hint|b]|].
      * rewrite world_emit. cbn [world].
        destruct (resolve_row (world st) hint) as [[w result] flag].
        eapply Forall2_trans; [| |apply IH].
        { intros r1 r2 r3. apply same_elsewhere_trans. }
        cbn [data]. rewrite data_emit. cbn [data].
        apply Forall2_same_length_lookup. split.
        { now rewrite length_alter. }
        intros j x y Hx Hy. destruct (decide (i = j)) as [->|Hne].
        -- rewrite list_lookup_alter_eq, Hx in Hy. injection Hy as <-.
           apply same_elsewhere_write.
        -- rewrite list_lookup_alter_ne, Hx in Hy by exact Hne.
           injection Hy as <-. apply same_elsewhere_refl.
      * cbn [data]. rewrite data_emit. cbn [data].
        apply Forall_Forall2_diag, Forall_forall.
        intros; apply same_elsewhere_refl.
      * cbn [data]. rewrite data_emit. cbn [data].
        apply Forall_Forall2_diag, Forall_forall.
        intros; apply same_elsewhere_refl.
Qed.

(** With another answer of the probe, two states with the same outcome go
    through the loop alike. *)
Lemma rows_loop_probe reached progress killswitch entries todo :
  forall i (st : @state H) (st' : @state (with_probe H reached)),
    @outcome H st = @outcome (with_probe H reached) st' ->
    @outcome H (@rows_loop H progress killswitch entries i todo st) =
    @outcome (with_probe H reached)
      (@rows_loop (with_probe H reached) progress killswitch entries i
         todo st').
Proof.
  induction todo as [|r todo IH]; intros i st st' Heq; cbn [rows_loop].
  - exact Heq.
  - unfold outcome in Heq. injection Heq as Hw Hd Hi Hr.
    destruct (set_at killswitch i).
    + destruct progress; unfold outcome; cbn; congruence.
    + destruct (r !! "geohint"%string) as [[hint|b]|].
      * change (@resolve_row (with_probe H reached)) with (@resolve_row H).
        destruct progress; cbn [emit world data index raised emitted];
          rewrite <- Hw;
          destruct (resolve_row (world st) hint) as [[w result] flag];
          apply IH; unfold outcome; cbn;
          change (@write_outcome (with_probe H reached))
            with (@write_outcome H);
          congruence.
      * destruct progress; unfold outcome; cbn; congruence.
      * destruct progress; unfold outcome; cbn; congruence.
Qed.

Lemma after_rows_outcome progress entries st :
  outcome (after_rows progress entries st) =
    (world st, data st, index st,
     match raised st with
     | Some e => Some e
     | None =>
         if progress then
           match index st with
           | Some _ => None
           | None => Some UnboundLocalError
           end
         else None
     end).
Proof.
  unfold outcome.
  now rewrite after_rows_world, after_rows_data, after_rows_index,
    after_rows_raised.
Qed.
End Rows.

(** ** The claims on the whole call *)

Section Claims_of_the_pass.
Context `{Services}.

(** C6: when every row has an address and the switch is not set, the call
    writes an outcome into every row: the cells [geoID] and
    [exactlocation] are there and hold the result and the flag that
    [resolve_row] gives for the [geohint] of the row, and a row without
    result has [not found] and a false flag. The call raises only on a
    frame without rows, when a progress signal is given. *)
Theorem every_row_gets_an_outcome (frame : list row) (progress : bool)
    (killswitch : option (nat -> bool)) (w : World) :
  forallb has_adr frame = true ->
  quiet_below killswitch (length frame) = true ->
  let st' := get_geoID frame progress killswitch w in
  raised st' =
    (if progress && (length frame =? 0)%nat
     then Some UnboundLocalError else None)
  /\ length (data st') = length frame
  /\ forall j r, frame !! j = Some r ->
       exists hint w0 result flag_accurate r',
         with_geohint r !! "geohint"%string = Some (Str hint)
         /\ snd (fst (resolve_row w0 hint)) = result
         /\ snd (resolve_row w0 hint) = flag_accurate
         /\ data st' !! j = Some r'
         /\ r' !! "geoID"%string = Some (geoID_cell result)
         /\ r' !! "exactlocation"%string = Some (Bool flag_accurate)
         /\ (result = [] ->
             geoID_cell result = Str (py "not found")
             /\ flag_accurate = false).
Proof.
  intros Hadr Hquiet.
  destruct (get_geoID_until (fun _ => True)
              (fun hint result flag =>
                 exists w0, snd (fst (resolve_row w0 hint)) = result
                            /\ snd (resolve_row w0 hint) = flag)
              (fun w hint _ => conj I (ex_intro _ w (conj eq_refl eq_refl)))
              frame progress killswitch w (length frame))
    as (_ & Hr & Hlen & Hin & _); try assumption; try exact I.
  - lia.
  - now rewrite take_ge by lia.
  - split; [exact Hr|]. split; [exact Hlen|].
    intros j r Hj.
    destruct (Hin j r) as (hint & result & flag & Hh & (w0 & Hres & Hfl) & Hrow);
      [|exact Hj|].
    { apply lookup_lt_Some in Hj. lia. }
    exists hint, w0, result, flag,
      (write_outcome result flag (with_geohint r)).
    split; [exact Hh|]. split; [exact Hres|]. split; [exact Hfl|].
    split; [exact Hrow|]. unfold write_outcome.
    split; [|split].
    + rewrite lookup_insert_ne by discriminate. apply lookup_insert_eq.
    + apply lookup_insert_eq.
    + intros Hnil. split; [now rewrite Hnil|].
      destruct flag; [|reflexivity].
      pose proof (resolve_row_flag_result w0 hint Hfl) as Hne.
      congruence.
Qed.

(** C10: on a frame without rows the call raises when a progress signal
    is given, the last report reading an [index] that no row has bound;
    without signal it returns the frame, empty. *)
Theorem no_row_and_progress (killswitch : option (nat -> bool)) (w : World) :
  raised (get_geoID [] true killswitch w) = Some UnboundLocalError
  /\ raised (get_geoID [] false killswitch w) = None
  /\ data (get_geoID [] false killswitch w) = [].
Proof.
  unfold get_geoID.
  pose proof (before_rows_outcome [] true w) as Ht.
  pose proof (before_rows_outcome [] false w) as Hf.
  unfold outcome in Ht, Hf.
  injection Ht as Hwt Hdt Hit Hrt. injection Hf as Hwf Hdf Hif Hrf.
  rewrite Hdt, Hdf. cbn [map rows_loop length].
  rewrite !after_rows_raised, after_rows_data, Hrt, Hit, Hrf, Hdf.
  auto.
Qed.

(** C9, as the code has it: the call writes into the frame of the caller,
    and into the columns [geohint], [geoID] and [exactlocation] only; in
    every row the address and every other column are what they were. *)
Theorem only_written_columns_change (frame : list row) (progress : bool)
    (killswitch : option (nat -> bool)) (w : World) :
  Forall2
    (fun r r' => r' !! "adr"%string = r !! "adr"%string
                 /\ same_elsewhere r r')
    frame (data (get_geoID frame progress killswitch w)).
Proof.
  assert (Hall : Forall2 same_elsewhere frame
                   (data (get_geoID frame progress killswitch w))).
  { unfold get_geoID. rewrite after_rows_data.
    pose proof (before_rows_outcome frame progress w) as Hb.
    unfold outcome in Hb. injection Hb as _ Hd _ _.
    eapply Forall2_trans; [| |apply rows_loop_frame].
    { intros r1 r2 r3. apply same_elsewhere_trans. }
    rewrite Hd. change (map with_geohint frame) with (with_geohint <$> frame).
    apply Forall2_fmap_r, Forall_Forall2_diag, Forall_forall.
    intros r _. apply same_elsewhere_hint. }
  eapply Forall2_impl; [exact Hall|].
  intros r r' Hr. split; [|exact Hr]. apply Hr. unfold written.
  rewrite !elem_of_union, !elem_of_singleton.
  intros [[Hcol|Hcol]|Hcol]; discriminate.
Qed.

End Claims_of_the_pass.

(** ** Where a pattern cannot match *)

Section Stuck.
Import Re.

Lemma rmatch_stuck r : forall b s k,
  stuck r s = true ->
  rmatch r b s k = None \/ (nullable r = true /\ rmatch r b s k = k b s).
Proof.
  induction r as [| |p|r1 IH1 r2 IH2|r1 IH1 r2 IH2|r1 IH1]; intros b s k Hs.
  - right. split; reflexivity.
  - destruct b; [right; split; reflexivity | left; reflexivity].
  - left. destruct s as [|c s]; [reflexivity|]. simpl in *.
    apply negb_true_iff in Hs. now rewrite Hs.
  - assert (H1 : stuck r1 s = true).
    { destruct s as [|c s]; [reflexivity|]. simpl in *.
      apply negb_true_iff, orb_false_iff in Hs as [-> _]. reflexivity. }
    cbn [rmatch nullable].
    destruct (IH1 b s (fun b' s' => rmatch r2 b' s' k) H1) as [->|[Hn ->]];
      [now left|].
    assert (H2 : stuck r2 s = true).
    { destruct s as [|c s]; [reflexivity|]. simpl in *.
      apply negb_true_iff, orb_false_iff in Hs as [_ Hs].
      rewrite Hn in Hs. simpl in Hs. now rewrite Hs. }
    destruct (IH2 b s k H2) as [->|[Hn2 ->]]; [now left|].
    right. now rewrite Hn, Hn2.
  - assert (H1 : stuck r1 s = true /\ stuck r2 s = true).
    { destruct s as [|c s]; [split; reflexivity|]. simpl in *.
      apply negb_true_iff, orb_false_iff in Hs as [-> ->]. now split. }
    destruct H1 as [H1 H2]. cbn [rmatch nullable].
    destruct (IH1 b s k H1) as [->|[Hn ->]].
    + destruct (IH2 b s k H2) as [->|[Hn2 ->]]; [now left|].
      right. split; [now rewrite Hn2, orb_true_r | reflexivity].
    + destruct (k b s) as [rest|] eqn:Hk.
      * right. now rewrite Hn.
      * destruct (IH2 b s k H2) as [->|[Hn2 ->]]; [now left|].
        left. exact Hk.
  - right. split; [reflexivity|].
    cbn [rmatch star_loop].
    assert (H1 : stuck r1 s = true) by exact Hs.
    destruct (IH1 b s
                (fun b' s' =>
                   if (length s' <? length s)%nat
                   then star_loop (rmatch r1) (length s) b' s' k
                   else None) H1) as [->|[_ ->]]; [reflexivity|].
    now rewrite Nat.ltb_irrefl.
Qed.

Lemma match_at_stuck r b s : stuck r s = true -> match_at r b s = None.
Proof.
  intros Hs. unfold match_at.
  destruct (rmatch_stuck r b s (fun _ rest => Some rest) Hs) as [->|[_ ->]];
    [reflexivity|].
  now rewrite Nat.ltb_irrefl.
Qed.

Lemma sub_loop_stuck r repl s :
  Forall (fun c => first r c = false) s ->
  forall fuel b, sub_loop r repl fuel b s = s.
Proof.
  induction 1 as [|c s Hc Hs IH]; intros [|fuel] b; try reflexivity.
  cbn [sub_loop]. rewrite match_at_stuck by (simpl; now rewrite Hc).
  now rewrite IH.
Qed.

Lemma split_loop_stuck r s :
  Forall (fun c => first r c = false) s ->
  forall fuel b, split_loop r fuel b s = (s, []).
Proof.
  induction 1 as [|c s Hc Hs IH]; intros [|fuel] b; try reflexivity.
  cbn [split_loop]. rewrite match_at_stuck by (simpl; now rewrite Hc).
  now rewrite IH.
Qed.

(** Past the start of the text, a pattern that begins with [^] has no
    match. *)
Lemma sub_loop_anchored r repl s : forall fuel,
  sub_loop (Seq Bol r) repl fuel false s = s.
Proof.
  induction s as [|c s IH]; intros [|fuel]; try reflexivity.
  cbn [sub_loop]. change (match_at (Seq Bol r) false (c :: s)) with (@None str).
  now rewrite IH.
Qed.
End Stuck.

(** ** Normalization of a tidy text *)

Section Tidy.
Import Re.

Import Pat.

Lemma space_not_comma c : Py.is_space c = true -> (44 =? c) = false.
Proof.
  intros Hc. destruct (N.eqb_spec 44 c) as [<-|]; [|reflexivity].
  discriminate.
Qed.

(** A round does not start where the text has neither a comma nor white
    space followed by a comma. *)
Lemma round_fails s b k :
  match s with
  | c :: s' =>
      (44 =? c) = false
      /\ (Py.is_space c = true ->
          match s' with d :: _ => (44 =? d) = false | [] => True end)
  | [] => True
  end ->
  rmatch round b s k = None.
Proof.
  destruct s as [|c s]; [reflexivity|]. intros [Hc Hsp].
  cbn [round Opt Space Chr rmatch]. rewrite Hc.
  destruct (Py.is_space c); [|reflexivity].
  specialize (Hsp eq_refl).
  destruct s as [|d s]; [reflexivity|]. now rewrite Hsp.
Qed.

Lemma no_loose_comma_tail c s :
  no_loose_comma (c :: s) = true -> no_loose_comma s = true.
Proof. cbn [no_loose_comma]. now intros [_ ?]%andb_true_iff. Qed.

Lemma no_loose_comma_next c d s :
  no_loose_comma (c :: d :: s) = true ->
  Py.is_space c = true \/ c = 44 -> (44 =? d) = false.
Proof.
  cbn [no_loose_comma]. intros [Hcd _]%andb_true_iff Hc.
  apply negb_true_iff, andb_false_iff in Hcd as [Hcd|Hcd].
  - apply orb_false_iff in Hcd as [Hsp Hcomma].
    destruct Hc as [Hc| ->]; [congruence | discriminate].
  - now rewrite N.eqb_sym.
Qed.

Lemma round_fails_after c s b k :
  no_loose_comma (c :: s) = true ->
  Py.is_space c = true \/ c = 44 ->
  rmatch round b s k = None.
Proof.
  intros Hl Hc. apply round_fails. destruct s as [|d s]; [exact I|].
  split; [exact (no_loose_comma_next c d s Hl Hc)|].
  intros Hd. destruct s as [|e s]; [exact I|].
  apply (no_loose_comma_next d e s); [|now left].
  exact (no_loose_comma_tail c _ Hl).
Qed.

Lemma match_at_commas b c s :
  no_loose_comma (c :: s) = true ->
  match_at Pat.commas b (c :: s) = if 44 =? c then Some s else None.
Proof.
  intros Hl. unfold match_at, Pat.commas, Plus. fold round.
  cbn [rmatch]. destruct (N.eqb_spec 44 c) as [<-|Hc].
  - (* a comma: the round takes it, and no second round follows *)
    change (rmatch round b (44 :: s) ?k) with (k false s).
    cbn [star_loop]. rewrite (round_fails_after 44 s) by (auto; now right).
    replace (length s <? length (44%N :: s))%nat with true; [reflexivity|].
    symmetry. apply Nat.ltb_lt. simpl. lia.
  - rewrite round_fails; [reflexivity|].
    split; [now apply N.eqb_neq|]. intros Hsp.
    destruct s as [|d s]; [exact I|].
    apply (no_loose_comma_next c d s Hl). now left.
Qed.

Lemma sub_commas_tidy s : forall fuel b,
  no_loose_comma s = true -> sub_loop Pat.commas [44] fuel b s = s.
Proof.
  induction s as [|c s IH]; intros [|fuel] b Hl; try reflexivity.
  cbn [sub_loop]. rewrite match_at_commas by exact Hl.
  pose proof (no_loose_comma_tail c s Hl) as Hs.
  destruct (N.eqb_spec 44 c) as [<-|Hc]; cbn [app]; now rewrite IH.
Qed.

Lemma drop_while_head p s :
  match s with c :: _ => p c = false | [] => True end ->
  Py.drop_while p s = s.
Proof. destruct s as [|c s]; [reflexivity|]. simpl. now intros ->. Qed.

Lemma strip_ends chars s :
  match s with c :: _ => Py.mem c chars = false | [] => True end ->
  match rev s with c :: _ => Py.mem c chars = false | [] => True end ->
  Py.strip chars s = s.
Proof.
  intros Hhead Hlast. unfold Py.strip, Py.rstrip, Py.lstrip.
  rewrite (drop_while_head _ s) by exact Hhead.
  rewrite (drop_while_head _ (rev s)) by exact Hlast.
  apply rev_involutive.
Qed.

Lemma lower_no_capital s :
  Forall (fun c => Py.is_upper c = false) s -> Py.lower s = s.
Proof.
  induction 1 as [|c s Hc _ IH]; [reflexivity|].
  unfold Py.lower in *. cbn [map]. unfold Py.lower_char at 1.
  now rewrite Hc, IH.
Qed.

Lemma replace_absent a old new s :
  Forall (fun c => (a =? c) = false) s ->
  forall fuel, Py.replace_loop fuel (a :: old) new s = s.
Proof.
  induction 1 as [|c s Hc _ IH]; intros [|fuel]; try reflexivity.
  cbn [Py.replace_loop Py.strip_prefix]. now rewrite Hc, IH.
Qed.

Lemma plain_char_spec c :
  plain_char c = true ->
  (c <? 128) = true /\ Py.is_upper c = false
  /\ (10 =? c) = false /\ (13 =? c) = false /\ (34 =? c) = false
  /\ (40 =? c) = false /\ (45 =? c) = false /\ (64 =? c) = false
  /\ (91 =? c) = false /\ (93 =? c) = false /\ (123 =? c) = false
  /\ (125 =? c) = false.
Proof.
  unfold plain_char, Py.mem. cbn [existsb].
  rewrite !andb_true_iff, !negb_true_iff, !orb_false_iff.
  rewrite !(N.eqb_sym c). tauto.
Qed.
End Tidy.

(** ** The claims on examples *)

Section Log.
Variable reachable : nat -> bool.
Variable search : str -> list str.
Variable detect : str -> option str * str.

(** In the world of the examples, the queries that a chain asks are its
    attempts. *)
Lemma asked_first_result w query :
  Demo.asked
    (fst (@first_result (Demo.services reachable search detect) w query)) =
  Demo.asked w ++ [query].
Proof.
  unfold first_result.
  change (@fetch_cache_or_web (Demo.services reachable search detect))
    with (Demo.fetch reachable search).
  unfold Demo.fetch.
  destruct (Demo.get query (Demo.cache w)); [reflexivity|].
  destruct (reachable (Demo.clock w)); reflexivity.
Qed.

Lemma asked_attempts cs : forall w,
  Demo.asked (fst (@try_each (Demo.services reachable search detect) w cs)) =
  Demo.asked w
  ++ map query_of
       (@attempts (Demo.services reachable search detect) w cs).
Proof.
  induction cs as [|c cs IH]; intros w; cbn [try_each attempts map].
  - now rewrite app_nil_r.
  - pose proof (asked_first_result w (query_of c)) as Hq.
    destruct (first_result w (query_of c)) as [w' [out|]]; cbn [fst] in Hq.
    + exact Hq.
    + rewrite IH, Hq. cbn [map]. now rewrite <- app_assoc.
Qed.
End Log.

(** C2 on [a,b], with a service that knows nothing. *)
Lemma candidates_bound_and_order_witness :
  normalize_elem (py "a,b") <> []
  /\ length (@candidates Demo.nothing (normalize_elem (py "a,b"))) = 4%nat
  /\ (length (@attempts Demo.nothing Demo.start
                (@candidates Demo.nothing (normalize_elem (py "a,b"))))
      <= 4)%nat.
Proof.
  assert (He : normalize_elem (py "a,b") <> []) by (vm_compute; discriminate).
  split; [exact He|].
  destruct (@candidates_bound_and_order Demo.nothing Demo.start [] false
              (py "a,b") He) as (_ & _ & Hlen & _ & Hatt & _).
  split; [exact Hlen | exact Hatt].
Defined.

(** C4 on [paris, france], with a service that is reached late. *)
Lemma any_failure_advances_witness :
  normalize_elem (py "paris, france") <> []
  /\ @resolve_elem Demo.late (Demo.start, [], false) (py "paris, france") =
       @conclude Demo.late (Demo.start, [], false)
         (normalize_elem (py "paris, france"))
         (@try_each Demo.late Demo.start
            (@candidates Demo.late (normalize_elem (py "paris, france")))).
Proof.
  assert (He : normalize_elem (py "paris, france") <> [])
    by (vm_compute; discriminate).
  split; [exact He|].
  exact (proj1 (@any_failure_advances Demo.late Demo.start [] false
                  (py "paris, france") He)).
Defined.

(** C6 on one contact, with a service that knows its query. *)
Lemma every_row_gets_an_outcome_witness :
  forallb has_adr [Demo.contact "paris"] = true
  /\ quiet_below None 1 = true
  /\ @raised (Demo.only (py "q=paris&format=json"))
       (@get_geoID (Demo.only (py "q=paris&format=json"))
          [Demo.contact "paris"] true None Demo.start) = None
  /\ length (@data (Demo.only (py "q=paris&format=json"))
       (@get_geoID (Demo.only (py "q=paris&format=json"))
          [Demo.contact "paris"] true None Demo.start)) = 1%nat.
Proof.
  assert (Hadr : forallb has_adr [Demo.contact "paris"] = true)
    by (vm_compute; reflexivity).
  split; [exact Hadr|]. split; [reflexivity|].
  destruct (@every_row_gets_an_outcome (Demo.only (py "q=paris&format=json"))
              [Demo.contact "paris"] true None Demo.start Hadr eq_refl)
    as (Hr & Hlen & _).
  split; [exact Hr | exact Hlen].
Defined.


(** C8 fails as stated. A parenthesis that closes after a line break stays
    in the first pass, which turns the line break into a comma, and goes in
    the second: the only piece of the text made of an opening parenthesis,
    [a], a line feed and a closing parenthesis is [(a, )], whose
    normalization is the empty piece. And an address with two tags has two
    pieces, where the normalization of its first piece has one. *)
Lemma normalize_twice_differs :
  (let x := [40; 97; 10; 41] in
   @normalize Demo.nothing x = [py "(a, )"]
   /\ @normalize Demo.nothing (py "(a, )") = [[]]
   /\ @normalize Demo.nothing (nth 0 (@normalize Demo.nothing x) []) <>
      @normalize Demo.nothing x)
  /\ (let x := py "HOME: a WORK: b" in
      @segments Demo.nothing x = [py "a"; py "b"]
      /\ @normalize Demo.nothing (nth 0 (@segments Demo.nothing x) []) <>
         @normalize Demo.nothing x).
Proof.
  split; [split; [|split]|split].
  - vm_compute. reflexivity.
  - vm_compute. reflexivity.
  - vm_compute. discriminate.
  - vm_compute. reflexivity.
  - vm_compute. discriminate.
Qed.

(** C9 fails as stated: a [geohint] column of the caller is overwritten. *)
Lemma caller_column_overwritten :
  let st := @get_geoID Demo.nothing [Demo.annotated] false None Demo.start in
  [Demo.annotated] !! 0%nat ≫= (fun r => r !! "geohint"%string)
  = Some (Str (py "kept by the caller"))
  /\ @data Demo.nothing st !! 0%nat ≫= (fun r => r !! "geohint"%string)
     = Some (Str (py "paris"))
  /\ ~ Forall2
         (fun r r' : row =>
            forall col, is_Some (r !! col) -> r' !! col = r !! col)
         [Demo.annotated] (@data Demo.nothing st).
Proof.
  split; [vm_compute; reflexivity|]. split; [vm_compute; reflexivity|].
  intros Hall.
  assert (Hd : @data Demo.nothing
                 (@get_geoID Demo.nothing [Demo.annotated] false None
                    Demo.start) !! 0%nat
               = Some (@write_outcome Demo.nothing [] false
                         (with_geohint Demo.annotated)))
    by (vm_compute; reflexivity).
  pose proof (Forall2_lookup_lr _ _ _ 0%nat _ _ Hall eq_refl Hd) as Hrow.
  specialize (Hrow "geohint"%string ltac:(vm_compute; eauto)).
  vm_compute in Hrow. discriminate.
Qed.

(** * Further properties of [get_geoID] *)

(** ** What a match consumes *)

Section Suffix.
Import Re.

(** Whatever a pattern matches, its continuation is called on a suffix
    of the text. *)
Lemma rmatch_suffix r : forall b s k rest,
  rmatch r b s k = Some rest ->
  exists b' s', s' `suffix_of` s /\ k b' s' = Some rest.
Proof.
  induction r as [| |p|r1 IH1 r2 IH2|r1 IH1 r2 IH2|r1 IH1];
    intros b s k rest Hm; cbn [rmatch] in Hm.
  - now exists b, s.
  - destruct b; [|discriminate]. now exists true, s.
  - destruct s as [|c s]; [discriminate|].
    destruct (p c); [|discriminate].
    exists false, s. split; [apply suffix_cons_r; reflexivity | exact Hm].
  - apply IH1 in Hm as (b1 & s1 & Hs1 & Hm).
    apply IH2 in Hm as (b2 & s2 & Hs2 & Hm).
    exists b2, s2. split; [now transitivity s1 | exact Hm].
  - destruct (rmatch r1 b s k) as [rest'|] eqn:H1.
    + injection Hm as <-. now apply IH1 in H1.
    + now apply IH2 in Hm.
  - revert Hm. generalize (S (length s)). intros fuel. revert b s.
    induction fuel as [|fuel IHf]; intros b s Hm; cbn [star_loop] in Hm.
    + now exists b, s.
    + destruct (rmatch r1 b s _) as [rest'|] eqn:H1.
      * injection Hm as <-. apply IH1 in H1 as (b1 & s1 & Hs1 & H1).
        destruct (length s1 <? length s)%nat; [|discriminate].
        apply IHf in H1 as (b2 & s2 & Hs2 & H1).
        exists b2, s2. split; [now transitivity s1 | exact H1].
      * now exists b, s.
Qed.

Lemma match_at_suffix r b s rest :
  match_at r b s = Some rest ->
  rest `suffix_of` s /\ (length rest < length s)%nat.
Proof.
  unfold match_at. intros Hm.
  destruct (rmatch r b s _) as [rest'|] eqn:H1; [|discriminate].
  destruct (length rest' <? length s)%nat eqn:Hlt; [|discriminate].
  injection Hm as <-. apply Nat.ltb_lt in Hlt. split; [|exact Hlt].
  apply rmatch_suffix in H1 as (b' & s' & Hs' & [= <-]). exact Hs'.
Qed.

Lemma Forall_suffix (P : N -> Prop) (s t : str) :
  t `suffix_of` s -> Forall P s -> Forall P t.
Proof. intros [u ->] Hs. now apply Forall_app in Hs as [_ ?]. Qed.

(** A substitution brings no character that is neither in the text nor
    in the replacement. *)
Lemma sub_loop_Forall (P : N -> Prop) r repl : forall fuel b s,
  Forall P repl -> Forall P s -> Forall P (sub_loop r repl fuel b s).
Proof.
  induction fuel as [|fuel IH]; intros b s Hrepl Hs; [exact Hs|].
  destruct s as [|c s]; [constructor|]. cbn [sub_loop].
  destruct (match_at r b (c :: s)) as [rest|] eqn:Hm.
  - apply match_at_suffix in Hm as [Hsuf _].
    apply Forall_app. split; [exact Hrepl|].
    apply IH; [exact Hrepl|]. exact (Forall_suffix P _ _ Hsuf Hs).
  - apply Forall_cons in Hs as [Hc Hs]. constructor; [assumption|].
    now apply IH.
Qed.

Lemma sub_Forall (P : N -> Prop) r repl s :
  Forall P repl -> Forall P s -> Forall P (sub r repl s).
Proof. apply sub_loop_Forall. Qed.

Lemma split_loop_Forall (P : N -> Prop) r : forall fuel b s,
  Forall P s ->
  Forall P (fst (split_loop r fuel b s))
  /\ Forall (Forall P) (snd (split_loop r fuel b s)).
Proof.
  induction fuel as [|fuel IH]; intros b s Hs; [split; [exact Hs|constructor]|].
  destruct s as [|c s]; [split; constructor|]. cbn [split_loop].
  destruct (match_at r b (c :: s)) as [rest|] eqn:Hm.
  - apply match_at_suffix in Hm as [Hsuf _].
    destruct (IH false rest (Forall_suffix P _ _ Hsuf Hs)) as [H1 H2].
    destruct (split_loop r fuel false rest) as [p ps]. cbn [fst snd] in *.
    split; [constructor | now constructor].
  - apply Forall_cons in Hs as [Hc Hs].
    destruct (IH false s Hs) as [H1 H2].
    destruct (split_loop r fuel false s) as [p ps]. cbn [fst snd] in *.
    split; [now constructor | assumption].
Qed.

Lemma split_Forall (P : N -> Prop) r s :
  Forall P s -> Forall (Forall P) (Re.split r s).
Proof.
  intros Hs. unfold Re.split.
  destruct (split_loop_Forall P r (S (length s)) true s Hs) as [H1 H2].
  destruct (split_loop r (S (length s)) true s) as [p ps].
  now constructor.
Qed.
End Suffix.

(** ** Runs of one class of characters *)

Section Runs.
Import Re.
Variable p : N -> bool.
Variable repl : str.

Lemma drop_while_length s : (length (Py.drop_while p s) <= length s)%nat.
Proof.
  induction s as [|c s IH]; cbn [Py.drop_while length]; [lia|].
  destruct (p c); cbn [length]; lia.
Qed.

(** The star of a class takes the whole run. *)
Lemma star_class : forall fuel b s,
  (length s < fuel)%nat ->
  star_loop (rmatch (Cls p)) fuel b s (fun _ rest => Some rest)
  = Some (Py.drop_while p s).
Proof.
  induction fuel as [|fuel IH]; intros b s Hlt; [lia|].
  cbn [star_loop rmatch]. destruct s as [|c s]; [reflexivity|].
  cbn [Py.drop_while]. destruct (p c); [|reflexivity].
  cbn [length] in *.
  replace (length s <? S (length s))%nat with true
    by (symmetry; apply Nat.ltb_lt; lia).
  now rewrite IH by lia.
Qed.

Lemma match_at_class_plus b c s :
  match_at (Plus (Cls p)) b (c :: s)
  = if p c then Some (Py.drop_while p s) else None.
Proof.
  unfold match_at, Plus. cbn [rmatch]. destruct (p c); [|reflexivity].
  rewrite star_class by lia.
  pose proof (drop_while_length s) as Hle.
  replace (length (Py.drop_while p s) <? length (c :: s))%nat with true;
    [reflexivity|].
  symmetry. apply Nat.ltb_lt. cbn [length]. lia.
Qed.

Lemma squeeze_run s :
  squeeze_from p repl true s = squeeze_from p repl false (Py.drop_while p s).
Proof.
  induction s as [|c s IH]; [reflexivity|].
  cbn [squeeze_from Py.drop_while]. destruct (p c) eqn:Hc; [exact IH|].
  cbn [squeeze_from]. now rewrite Hc.
Qed.

Lemma sub_loop_class_plus : forall fuel b s,
  (length s < fuel)%nat ->
  sub_loop (Plus (Cls p)) repl fuel b s = squeeze p repl s.
Proof.
  induction fuel as [|fuel IH]; intros b s Hlt; [lia|].
  destruct s as [|c s]; [reflexivity|].
  cbn [sub_loop]. rewrite match_at_class_plus.
  unfold squeeze. cbn [squeeze_from]. cbn [length] in Hlt.
  destruct (p c).
  - pose proof (drop_while_length s) as Hle.
    rewrite IH by lia. unfold squeeze. now rewrite squeeze_run.
  - now rewrite IH by lia.
Qed.

(** [re.sub] of the pattern [[class]+] replaces every longest run of the
    class. *)
Lemma sub_class_plus s : Re.sub (Plus (Cls p)) repl s = squeeze p repl s.
Proof. apply sub_loop_class_plus. lia. Qed.

Lemma squeeze_from_keep f a c b :
  p c = false ->
  squeeze_from p repl f (a ++ c :: b)
  = squeeze_from p repl f a ++ c :: squeeze_from p repl false b.
Proof.
  intros Hc. revert f.
  induction a as [|d a IH]; intros f; cbn [app squeeze_from].
  - now rewrite Hc.
  - destruct (p d); [destruct f|]; rewrite IH; try reflexivity.
    now rewrite app_assoc.
Qed.

Lemma squeeze_absent_app a b :
  Forall (fun c => p c = false) a ->
  squeeze p repl (a ++ b) = a ++ squeeze p repl b.
Proof.
  unfold squeeze. induction 1 as [|c a Hc _ IH]; [reflexivity|].
  cbn [app squeeze_from]. now rewrite Hc, IH.
Qed.

Lemma squeeze_from_Forall (P : N -> Prop) f s :
  Forall P repl -> Forall P s -> Forall P (squeeze_from p repl f s).
Proof.
  intros Hrepl Hs. revert f.
  induction Hs as [|c s Hc _ IH]; intros f; cbn [squeeze_from];
    [constructor|].
  destruct (p c); [destruct f|].
  - apply IH.
  - apply Forall_app. split; [exact Hrepl | apply IH].
  - constructor; [exact Hc | apply IH].
Qed.

Lemma squeeze_from_class f s :
  Forall (fun c => p c = false) repl ->
  Forall (fun c => p c = false) (squeeze_from p repl f s).
Proof.
  intros Hrepl. revert f.
  induction s as [|c s IH]; intros f; cbn [squeeze_from]; [constructor|].
  destruct (p c) eqn:Hc; [destruct f|].
  - apply IH.
  - apply Forall_app. split; [exact Hrepl | apply IH].
  - constructor; [exact Hc | apply IH].
Qed.

Lemma squeeze_from_twice f a c d b :
  p c = true -> p d = true ->
  squeeze_from p repl f (a ++ c :: d :: b)
  = squeeze_from p repl f (a ++ c :: b).
Proof.
  intros Hc Hd. revert f.
  induction a as [|e a IH]; intros f; cbn [app squeeze_from].
  - rewrite Hc, Hd. reflexivity.
  - destruct (p e); [destruct f|]; now rewrite IH.
Qed.
End Runs.

(** ** The text of a query *)

Section Queries.

Lemma quote_plus_app a b :
  Url.quote_plus (a ++ b) = Url.quote_plus a ++ Url.quote_plus b.
Proof. apply flat_map_app. Qed.

Lemma strip_between chars a v b :
  match a with c :: _ => Py.mem c chars = false | [] => False end ->
  match rev b with c :: _ => Py.mem c chars = false | [] => False end ->
  Py.strip chars (a ++ v ++ b) = a ++ v ++ b.
Proof.
  intros Ha Hb. apply strip_ends.
  - destruct a as [|c a]; [contradiction | exact Ha].
  - rewrite !rev_app_distr.
    destruct (rev b) as [|c b']; [contradiction | exact Hb].
Qed.

Lemma one_plus_between a v c b :
  Forall (fun c => (43 =? c) = false) a ->
  (43 =? c) = false ->
  one_plus (a ++ v ++ c :: b) = a ++ one_plus v ++ c :: one_plus b.
Proof.
  intros Ha Hc. unfold one_plus.
  rewrite squeeze_absent_app by exact Ha. f_equal.
  unfold squeeze. now rewrite squeeze_from_keep by exact Hc.
Qed.

(** The query of a text: the final [strip] removes nothing, and the runs
    of [+] that are made one are those of the encoded values. *)
Lemma build_query_unrestricted q :
  build_query q Unrestricted
  = py "q=" ++ one_plus (Url.quote_plus q) ++ py "&format=json".
Proof.
  unfold build_query, params, Url.urlencode. cbn [map Url.join].
  change (Url.quote_plus (py "q")) with (py "q").
  change (Url.quote_plus (py "format")) with (py "format").
  change (Url.quote_plus (py "json")) with (py "json").
  change ((py "q" ++ py "=" ++ Url.quote_plus q)
          ++ py "&" ++ py "format" ++ py "=" ++ py "json")
    with ((py "q=" ++ Url.quote_plus q) ++ py "&format=json").
  rewrite <- app_assoc.
  change Pat.pluses with (Re.Plus (Re.Cls (N.eqb 43))).
  rewrite sub_class_plus. fold (one_plus (py "q=" ++ Url.quote_plus q
                                         ++ py "&format=json")).
  change (py "&format=json") with (38 :: py "format=json").
  rewrite one_plus_between by (repeat constructor).
  change (one_plus (py "format=json")) with (py "format=json").
  apply strip_between; reflexivity.
Qed.

Lemma build_query_country q country_code :
  build_query q (Country country_code)
  = py "q=" ++ one_plus (Url.quote_plus q) ++ py "&countrycodes="
    ++ one_plus (Url.quote_plus (code_text country_code))
    ++ py "&format=json".
Proof.
  unfold build_query, params, Url.urlencode. cbn [map Url.join].
  change (Url.quote_plus (py "q")) with (py "q").
  change (Url.quote_plus (py "countrycodes")) with (py "countrycodes").
  change (Url.quote_plus (py "format")) with (py "format").
  change (Url.quote_plus (py "json")) with (py "json").
  set (Q := Url.quote_plus q).
  set (C := Url.quote_plus (code_text country_code)).
  change ((py "q" ++ py "=" ++ Q) ++ py "&"
          ++ (py "countrycodes" ++ py "=" ++ C)
          ++ py "&" ++ py "format" ++ py "=" ++ py "json")
    with ((py "q=" ++ Q) ++ py "&countrycodes=" ++ C ++ py "&format=json").
  rewrite <- app_assoc.
  change Pat.pluses with (Re.Plus (Re.Cls (N.eqb 43))).
  rewrite sub_class_plus.
  fold (one_plus (py "q=" ++ Q ++ py "&countrycodes=" ++ C
                  ++ py "&format=json")).
  change (py "&countrycodes=" ++ C ++ py "&format=json")
    with (38 :: py "countrycodes=" ++ C ++ 38 :: py "format=json").
  rewrite !one_plus_between by (repeat constructor).
  change (one_plus (py "format=json")) with (py "format=json").
  change (38 :: py "countrycodes=" ++ one_plus C ++ 38 :: py "format=json")
    with (py "&countrycodes=" ++ one_plus C ++ py "&format=json").
  rewrite (app_assoc (one_plus Q)), (app_assoc (one_plus Q ++ _)).
  rewrite strip_between by reflexivity.
  now rewrite <- !app_assoc.
Qed.
Lemma hex_digit_safe n : n < 16 -> Url.always_safe (Url.hex_digit n) = true.
Proof.
  intros Hn. unfold Url.always_safe, Url.hex_digit.
  destruct (N.ltb_spec n 10) as [Hlt|Hge].
  - apply orb_true_iff. left. apply orb_true_iff. right.
    unfold Py.is_digit. apply andb_true_iff. split; apply N.leb_le; lia.
  - apply orb_true_iff. left. apply orb_true_iff. left.
    apply orb_true_iff. left.
    unfold Py.is_upper. apply andb_true_iff. split; apply N.leb_le; lia.
Qed.

Lemma always_safe_url c : Url.always_safe c = true -> url_char c = true.
Proof. unfold url_char. now intros ->. Qed.

Lemma percent_url b :
  b < 256 -> Forall (fun c => url_char c = true) (Url.percent b).
Proof.
  intros Hb. unfold Url.percent. repeat constructor.
  - apply always_safe_url, hex_digit_safe.
    apply N.Div0.div_lt_upper_bound. lia.
  - apply always_safe_url, hex_digit_safe. apply N.mod_lt. lia.
Qed.

Lemma utf8_bytes c :
  code_point c = true -> Forall (fun b => b < 256) (Url.utf8 c).
Proof.
  unfold code_point, Url.utf8. intros Hc.
  assert (Hmax : c < 1114112).
  { apply orb_true_iff in Hc as [Hc|Hc].
    - apply N.ltb_lt in Hc. lia.
    - apply andb_true_iff in Hc as [_ Hc]. now apply N.ltb_lt in Hc. }
  pose proof (N.mod_lt c 64 ltac:(lia)) as H0.
  pose proof (N.mod_lt (c / 64) 64 ltac:(lia)) as H1.
  pose proof (N.mod_lt (c / 4096) 64 ltac:(lia)) as H2.
  destruct (N.ltb_spec c 128) as [Ha|Ha]; [repeat constructor; lia|].
  destruct (N.ltb_spec c 2048) as [Hb|Hb].
  { pose proof (N.Div0.div_lt_upper_bound c 64 32 ltac:(lia)).
    repeat constructor; lia. }
  destruct (N.ltb_spec c 65536) as [Hd|Hd].
  { pose proof (N.Div0.div_lt_upper_bound c 4096 16 ltac:(lia)).
    repeat constructor; lia. }
  pose proof (N.Div0.div_lt_upper_bound c 262144 16 ltac:(lia)).
  repeat constructor; lia.
Qed.

(** An encoded value holds letters, digits, [_.-~], [+] and [%] only. *)
Lemma quote_plus_url q :
  Forall (fun c => code_point c = true) q ->
  Forall (fun c => url_char c = true) (Url.quote_plus q).
Proof.
  intros Hq. unfold Url.quote_plus. apply Forall_flat_map.
  apply Forall_forall. intros c Hin.
  rewrite Forall_forall in Hq. specialize (Hq c Hin).
  destruct (c =? 32); [repeat constructor|].
  destruct (Url.always_safe c) eqn:Hs.
  - repeat constructor. now apply always_safe_url.
  - apply Forall_flat_map. pose proof (utf8_bytes c Hq) as Hb.
    apply Forall_forall. intros b Hbin.
    rewrite Forall_forall in Hb. apply percent_url, Hb, Hbin.
Qed.

Lemma one_plus_url v :
  Forall (fun c => url_char c = true) v ->
  Forall (fun c => url_char c = true) (one_plus v).
Proof. apply squeeze_from_Forall. repeat constructor. Qed.

Lemma count_app c a b : count c (a ++ b) = (count c a + count c b)%nat.
Proof.
  induction a as [|d a IH]; [reflexivity|].
  cbn [app count]. rewrite IH. lia.
Qed.

Lemma count_url v :
  Forall (fun c => url_char c = true) v ->
  count 38 v = 0%nat /\ count 61 v = 0%nat.
Proof.
  induction 1 as [|d v Hd _ [IH1 IH2]]; [split; reflexivity|].
  cbn [count]. rewrite IH1, IH2.
  destruct (N.eqb_spec 38 d) as [<-|_]; [discriminate Hd|].
  destruct (N.eqb_spec 61 d) as [<-|_]; [discriminate Hd|].
  split; reflexivity.
Qed.
End Queries.

(** ** The alphabet of the hint and of its pieces *)

Section Alphabet.
Context `{Services}.

Lemma strip_prefix_suffix old : forall s rest,
  Py.strip_prefix old s = Some rest -> rest `suffix_of` s.
Proof.
  induction old as [|a old IH]; intros s rest; cbn [Py.strip_prefix].
  - destruct s; intros [= <-]; reflexivity.
  - destruct s as [|c s]; [discriminate|].
    destruct (a =? c); [|discriminate].
    intros Hr. apply IH in Hr. now apply suffix_cons_r.
Qed.

Lemma replace_loop_Forall (P : N -> Prop) old new : forall fuel s,
  Forall P new -> Forall P s -> Forall P (Py.replace_loop fuel old new s).
Proof.
  induction fuel as [|fuel IH]; intros s Hnew Hs; [exact Hs|].
  destruct s as [|c s]; [constructor|]. cbn [Py.replace_loop].
  destruct (Py.strip_prefix old (c :: s)) as [rest|] eqn:Hp.
  - apply strip_prefix_suffix in Hp.
    apply Forall_app. split; [exact Hnew|].
    apply IH; [exact Hnew|]. exact (Forall_suffix P _ _ Hp Hs).
  - apply Forall_cons in Hs as [Hc Hs]. constructor; [exact Hc|].
    now apply IH.
Qed.

Lemma replace_Forall (P : N -> Prop) old s :
  Forall P s -> Forall P (Py.replace old [] s).
Proof. apply replace_loop_Forall. constructor. Qed.

(** Removing a character leaves none of it. *)
Lemma replace_char_gone a : forall fuel s,
  (length s < fuel)%nat ->
  Forall (fun c => c <> a) (Py.replace_loop fuel [a] [] s).
Proof.
  induction fuel as [|fuel IH]; intros s Hlt; [lia|].
  destruct s as [|c s]; [constructor|].
  cbn [Py.replace_loop Py.strip_prefix length] in *.
  destruct (N.eqb_spec a c) as [->|Hne].
  - cbn [app]. apply IH. lia.
  - constructor; [congruence|]. apply IH. lia.
Qed.

Lemma strip_Forall (P : N -> Prop) chars s :
  Forall P s -> Forall P (Py.strip chars s).
Proof.
  intros Hs. unfold Py.strip, Py.rstrip, Py.lstrip.
  apply Forall_rev, drop_while_Forall, Forall_rev, drop_while_Forall, Hs.
Qed.

Lemma decode_alphabet hint :
  Forall (fun c => c <> 34 /\ c <> 64) (decode hint).
Proof.
  unfold decode. apply Forall_and. split.
  - do 2 apply replace_Forall. apply replace_char_gone. lia.
  - apply (replace_char_gone 64). lia.
Qed.

Lemma lower_char_alphabet c :
  c <> 34 /\ c <> 64 ->
  Py.is_upper (Py.lower_char c) = false
  /\ Py.lower_char c <> 34 /\ Py.lower_char c <> 64.
Proof.
  intros [H1 H2]. unfold Py.lower_char.
  destruct (Py.is_upper c) eqn:Hu; [|now repeat split].
  unfold Py.is_upper in *. apply andb_true_iff in Hu as [Hlo Hhi].
  apply N.leb_le in Hlo, Hhi. split; [|lia].
  apply andb_false_iff. right. apply N.leb_gt. lia.
Qed.

Lemma normalize_elem_alphabet e :
  Forall (fun c => c <> 34 /\ c <> 64) e ->
  Forall (fun c => Py.is_upper c = false /\ c <> 34 /\ c <> 64)
    (normalize_elem e).
Proof.
  intros He. unfold normalize_elem. apply sub_Forall.
  - repeat constructor; discriminate.
  - unfold Py.lower. apply Forall_map.
    eapply List.Forall_impl; [apply lower_char_alphabet|].
    now apply strip_Forall.
Qed.

Lemma fold_resolve_count l : forall a,
  (length (snd (fst (fold_left resolve_elem l a)))
   <= length (snd (fst a))
      + length (filter (fun e => e <> []) (map normalize_elem l)))%nat.
Proof.
  induction l as [|e l IH]; intros a; [cbn; lia|].
  cbn [fold_left map]. etransitivity; [apply IH|].
  destruct (decide (normalize_elem e = [])) as [He|He].
  - rewrite resolve_elem_empty by exact He.
    rewrite filter_cons_False by (intros Hne; now apply Hne). lia.
  - rewrite filter_cons_True by exact He. cbn [length].
    destruct a as [[w result] flag].
    rewrite resolve_elem_try_each by exact He.
    unfold conclude. cbn [fst snd]. rewrite length_app.
    destruct (snd (try_each w _)); cbn [length]; lia.
Qed.
End Alphabet.

(** ** The reports of the pass *)

Section Reports.
Context `{Services}.

Lemma rows_loop_silent killswitch entries todo : forall i st,
  emitted (rows_loop false killswitch entries i todo st) = emitted st.
Proof.
  induction todo as [|r todo IH]; intros i st; [reflexivity|].
  cbn [rows_loop emit]. destruct (set_at killswitch i); [reflexivity|].
  cbn [world emitted data index raised].
  destruct (r !! "geohint"%string) as [[hint|b]|]; try reflexivity.
  destruct (resolve_row (world st) hint) as [[w result] flag].
  now rewrite IH.
Qed.

(** Two states with the same outcome go through the loop alike, whether
    a signal is given or not. *)
Lemma rows_loop_progress p1 p2 killswitch e1 e2 todo : forall i st1 st2,
  outcome st1 = outcome st2 ->
  outcome (rows_loop p1 killswitch e1 i todo st1)
  = outcome (rows_loop p2 killswitch e2 i todo st2).
Proof.
  induction todo as [|r todo IH]; intros i st1 st2 Heq; cbn [rows_loop].
  - exact Heq.
  - unfold outcome in Heq. injection Heq as Hw Hd Hi Hr.
    destruct (set_at killswitch i).
    + rewrite !outcome_emit. unfold outcome; cbn. congruence.
    + destruct (r !! "geohint"%string) as [[hint|b]|].
      * rewrite !world_emit. cbn [world]. rewrite <- Hw.
        destruct (resolve_row (world st1) hint) as [[w result] flag].
        apply IH. unfold outcome.
        cbn [world data index raised].
        rewrite !data_emit, !index_emit, !raised_emit. cbn. congruence.
      * unfold outcome. cbn [world data index raised].
        rewrite !world_emit, !data_emit, !index_emit. cbn. congruence.
      * unfold outcome. cbn [world data index raised].
        rewrite !world_emit, !data_emit, !index_emit. cbn. congruence.
Qed.

Lemma rows_loop_index progress killswitch entries todo : forall i st,
  todo <> [] ->
  index (rows_loop progress killswitch entries i todo st) <> None.
Proof.
  induction todo as [|r todo IH]; intros i st Hne; [congruence|].
  cbn [rows_loop]. destruct (set_at killswitch i).
  - rewrite !index_emit. discriminate.
  - destruct (r !! "geohint"%string) as [[hint|b]|];
      try (cbn [index]; rewrite index_emit; discriminate).
    rewrite world_emit. cbn [world].
    destruct (resolve_row (world st) hint) as [[w result] flag].
    destruct todo as [|r' todo'].
    + cbn [rows_loop index]. rewrite index_emit. discriminate.
    + apply IH. discriminate.
Qed.

(** The loop over the rows that run to their end, then over the others. *)
Lemma rows_loop_app progress killswitch entries l2 : forall l1 i st,
  (forall j, (i <= j < i + length l1)%nat -> set_at killswitch j = false) ->
  Forall has_hint l1 ->
  rows_loop progress killswitch entries i (l1 ++ l2) st
  = rows_loop progress killswitch entries (i + length l1) l2
      (rows_loop progress killswitch entries i l1 st).
Proof.
  induction l1 as [|r l1 IH]; intros i st Hquiet Hhint.
  - cbn [app length rows_loop]. now rewrite Nat.add_0_r.
  - apply Forall_cons in Hhint as [[hint Hh] Hhint].
    cbn [app rows_loop length]. rewrite Hquiet by (cbn [length]; lia).
    rewrite Hh. rewrite world_emit. cbn [world].
    destruct (resolve_row (world st) hint) as [[w result] flag].
    rewrite IH; [f_equal; lia| |exact Hhint].
    intros j Hj. apply Hquiet. cbn [length]. lia.
Qed.

Lemma rows_loop_events progress killswitch entries : forall todo i st,
  (forall j, (i <= j < i + length todo)%nat -> set_at killswitch j = false) ->
  Forall has_hint todo ->
  emitted (rows_loop progress killswitch entries i todo st)
  = emitted st
    ++ (if progress then map (row_event entries) (seq i (length todo))
        else []).
Proof.
  induction todo as [|r todo IH]; intros i st Hquiet Hhint.
  - cbn. destruct progress; now rewrite app_nil_r.
  - apply Forall_cons in Hhint as [[hint Hh] Hhint].
    cbn [rows_loop length]. rewrite Hquiet by (cbn [length]; lia).
    rewrite Hh. rewrite world_emit. cbn [world].
    destruct (resolve_row (world st) hint) as [[w result] flag].
    rewrite IH; [| |exact Hhint].
    + cbn [emitted]. destruct progress; cbn [emit emitted seq map].
      * rewrite <- app_assoc. reflexivity.
      * reflexivity.
    + intros j Hj. apply Hquiet. cbn [length]. lia.
Qed.

Lemma before_rows_emitted frame progress w :
  emitted (before_rows frame progress w)
  = if progress
    then row_event (length frame) 0
         :: probe_events (length frame) (snd (requests_get w))
    else [].
Proof.
  unfold before_rows. destruct progress; cbn [emit world emitted].
  - destruct (requests_get w) as [w1 [|]]; reflexivity.
  - destruct (requests_get w) as [w1 [|]]; reflexivity.
Qed.

Lemma has_adr_hint r : has_adr r = true -> has_hint (with_geohint r).
Proof. apply with_geohint_has_adr. Qed.

Lemma no_adr_no_hint r :
  has_adr r = false ->
  match with_geohint r !! "geohint"%string with
  | Some (Str _) => False
  | _ => True
  end.
Proof.
  unfold has_adr, with_geohint.
  destruct (r !! "adr"%string) as [[adr|b]|]; try discriminate; intros _.
  - now rewrite lookup_insert_eq.
  - now rewrite lookup_delete_eq.
Qed.

Lemma take_hints frame k :
  forallb has_adr (take k frame) = true ->
  Forall has_hint (take k (map with_geohint frame)).
Proof.
  intros Hadr. change (map with_geohint frame) with (with_geohint <$> frame).
  rewrite <- fmap_take. apply Forall_fmap.
  rewrite forallb_forall in Hadr. apply Forall_forall.
  intros r Hr. apply has_adr_hint, Hadr, list_elem_of_In, Hr.
Qed.

(** The state after the first [k] rows, when each has an address and the
    switch is not set at any of them. *)
Lemma loop_prefix frame progress killswitch entries w k :
  (k <= length frame)%nat ->
  quiet_below killswitch k = true ->
  forallb has_adr (take k frame) = true ->
  let st0 := before_rows frame progress w in
  let st1 := rows_loop progress killswitch entries 0
               (take k (map with_geohint frame)) st0 in
  rows_loop progress killswitch entries 0 (map with_geohint frame) st0
  = rows_loop progress killswitch entries k
      (drop k (map with_geohint frame)) st1
  /\ raised st1 = None
  /\ emitted st1 = emitted st0
       ++ (if progress then map (row_event entries) (seq 0 k) else [])
  /\ length (data st1) = length frame
  /\ (forall j r, (j < k)%nat -> frame !! j = Some r ->
        exists result flag_accurate,
          data st1 !! j
          = Some (write_outcome result flag_accurate (with_geohint r)))
  /\ (forall j, (k <= j)%nat -> data st1 !! j = with_geohint <$> frame !! j)
  /\ (k <> 0%nat -> index st1 = Some (k - 1)%nat).
Proof.
  intros Hk Hquiet Hadr st0 st1.
  pose proof (take_hints frame k Hadr) as Hhints.
  assert (Hlen1 : length (take k (map with_geohint frame)) = k).
  { rewrite length_take, length_map. lia. }
  assert (Hq : forall j,
             (0 <= j < 0 + length (take k (map with_geohint frame)))%nat ->
             set_at killswitch j = false).
  { intros j Hj. apply (quiet_below_spec _ _ Hquiet). lia. }
  pose proof (before_rows_outcome frame progress w) as Hb.
  unfold outcome in Hb. injection Hb as Hw0 Hd0 Hi0 Hr0. fold st0 in Hd0, Hr0.
  destruct (rows_loop_until (fun _ => True) (fun _ _ _ => True)
              (fun _ _ _ => conj I I) progress killswitch entries k
              (take k (map with_geohint frame)) 0%nat st0)
    as (_ & Hr & Hlen & Hout & Hin & Hidx).
  { lia. }
  { intros j Hj. apply Hq. lia. }
  { rewrite Hlen1. lia. }
  { intros j r _ Hr. exact (Forall_lookup_1 _ _ _ _ Hhints Hr). }
  { exact I. }
  fold st1 in Hr, Hlen, Hout, Hin, Hidx. rewrite Hlen1 in Hout, Hin, Hidx.
  replace (Nat.min k (0 + k)) with k in * by lia.
  split; [|split; [|split; [|split; [|split; [|split]]]]].
  - rewrite <- (take_drop k (map with_geohint frame)) at 1.
    rewrite rows_loop_app by assumption. now rewrite Hlen1.
  - now rewrite Hr.
  - unfold st1. rewrite rows_loop_events by assumption. now rewrite Hlen1.
  - now rewrite Hlen, Hd0, length_map.
  - intros j r Hj Hrow.
    destruct (Hin j (with_geohint r)) as (hint & res & fl & _ & _ & Hd).
    + lia.
    + rewrite Hd0. change (map with_geohint frame) with (with_geohint <$> frame).
      now rewrite list_lookup_fmap, Hrow.
    + now exists res, fl.
  - intros j Hj. rewrite Hout by lia. rewrite Hd0.
    change (map with_geohint frame) with (with_geohint <$> frame).
    apply list_lookup_fmap.
  - intros Hne. rewrite Hidx; [f_equal; lia|].
    intros Hnil. rewrite Hnil in Hlen1. cbn in Hlen1. lia.
Qed.

(** ** The worlds of the rows *)

Lemma write_outcome_cells result flag (r : row) :
  write_outcome result flag r !! "geoID"%string = Some (geoID_cell result)
  /\ write_outcome result flag r !! "exactlocation"%string
     = Some (Bool flag)
  /\ forall col, col <> "geoID"%string -> col <> "exactlocation"%string ->
       write_outcome result flag r !! col = r !! col.
Proof.
  unfold write_outcome. split; [|split].
  - rewrite lookup_insert_ne by discriminate. apply lookup_insert_eq.
  - apply lookup_insert_eq.
  - intros col Hg He. now rewrite !lookup_insert_ne by congruence.
Qed.

Lemma with_geohint_cells (r : row) col :
  col <> "geohint"%string -> with_geohint r !! col = r !! col.
Proof.
  intros Hcol. unfold with_geohint.
  destruct (r !! "adr"%string) as [[adr|b]|].
  - now rewrite lookup_insert_ne by congruence.
  - now rewrite lookup_insert_ne by congruence.
  - now rewrite lookup_delete_ne by congruence.
Qed.

(** The loop over rows that all run to their end: the world it reaches,
    and the outcome it writes into each of them, which is the one of its
    hint in the world that the rows before left. *)
Lemma rows_loop_exact progress killswitch entries : forall todo i st,
  (forall j, (i <= j < i + length todo)%nat -> set_at killswitch j = false) ->
  Forall has_hint todo ->
  let st' := rows_loop progress killswitch entries i todo st in
  world st' = fold_left after_row todo (world st)
  /\ (forall j, (j < i)%nat -> data st' !! j = data st !! j)
  /\ (forall j r hint r0,
        todo !! j = Some r ->
        r !! "geohint"%string = Some (Str hint) ->
        data st !! (i + j)%nat = Some r0 ->
        data st' !! (i + j)%nat
        = Some (write_outcome
                  (snd (fst (resolve_row
                               (fold_left after_row (take j todo) (world st))
                               hint)))
                  (snd (resolve_row
                          (fold_left after_row (take j todo) (world st))
                          hint))
                  r0)).
Proof.
  induction todo as [|r todo IH]; intros i st Hquiet Hhint.
  - cbn. split; [reflexivity|]. split; [reflexivity|].
    intros j r hint r0 Hr. discriminate Hr.
  - apply Forall_cons in Hhint as [[h Hh] Hhint].
    cbn [rows_loop length]. rewrite Hquiet by (cbn [length]; lia).
    rewrite Hh, world_emit. cbn [world].
    assert (Hafter : after_row (world st) r
                     = fst (fst (resolve_row (world st) h))).
    { unfold after_row. now rewrite Hh. }
    destruct (resolve_row (world st) h) as [[w' res] fl] eqn:Hres.
    cbn [fst] in Hafter.
    set (st2 := {| world := w' |}).
    destruct (IH (S i) st2) as (IHw & IHlow & IHrows).
    { intros j Hj. apply Hquiet. cbn [length]. lia. }
    { exact Hhint. }
    assert (Hd2 : data st2 = alter (write_outcome res fl) i (data st)).
    { unfold st2. cbn [data]. now rewrite data_emit. }
    split; [|split].
    + rewrite IHw. cbn [fold_left]. now rewrite Hafter.
    + intros j Hj. rewrite IHlow by lia. rewrite Hd2.
      apply list_lookup_alter_ne. lia.
    + intros j r1 hint r0 Hr1 Hhint1 Hr0. destruct j as [|j].
      * cbn in Hr1. injection Hr1 as <-.
        rewrite Hh in Hhint1. injection Hhint1 as <-.
        rewrite Nat.add_0_r in *. rewrite IHlow by lia.
        rewrite Hd2, list_lookup_alter_eq, Hr0.
        cbn [take fold_left]. now rewrite Hres.
      * cbn [lookup list_lookup] in Hr1.
        replace (i + S j)%nat with (S i + j)%nat in * by lia.
        rewrite (IHrows j r1 hint r0 Hr1 Hhint1).
        -- cbn [take fold_left]. now rewrite Hafter.
        -- rewrite Hd2, list_lookup_alter_ne by lia. exact Hr0.
Qed.

Lemma world_at_S frame w j r hint :
  frame !! j = Some r ->
  with_geohint r !! "geohint"%string = Some (Str hint) ->
  world_at frame w (S j)
  = fst (fst (resolve_row (world_at frame w j) hint)).
Proof.
  intros Hr Hh. unfold world_at.
  rewrite (take_S_r _ _ (with_geohint r)).
  - rewrite fold_left_app. cbn [fold_left]. unfold after_row at 1.
    now rewrite Hh.
  - change (map with_geohint frame) with (with_geohint <$> frame).
    now rewrite list_lookup_fmap, Hr.
Qed.

(** The call up to row [k], when the rows before it have an address and
    the switch is not set at any of them: the loop is at row [k] in the
    world [world_at frame w k], each row before [k] holds the outcome of
    its hint in the world it was reached in, and the other rows have
    their [geohint] only. *)
Lemma run_to_row frame progress killswitch w k r :
  frame !! k = Some r ->
  quiet_below killswitch k = true ->
  forallb has_adr (take k frame) = true ->
  let n := length frame in
  exists st1 rest,
    get_geoID frame progress killswitch w
    = after_rows progress n
        (rows_loop progress killswitch n k (with_geohint r :: rest) st1)
    /\ world st1 = world_at frame w k
    /\ raised st1 = None
    /\ length (data st1) = n
    /\ emitted st1
       = (if progress
          then row_event n 0 :: probe_events n (snd (requests_get w))
               ++ map (row_event n) (seq 0 k)
          else [])
    /\ (forall j r0, (j < k)%nat -> frame !! j = Some r0 ->
          exists hint result flag_accurate,
            with_geohint r0 !! "geohint"%string = Some (Str hint)
            /\ resolve_row (world_at frame w j) hint
               = (world_at frame w (S j), result, flag_accurate)
            /\ data st1 !! j
               = Some (write_outcome result flag_accurate (with_geohint r0)))
    /\ (forall j r0, (k <= j)%nat -> frame !! j = Some r0 ->
          data st1 !! j = Some (with_geohint r0)).
Proof.
  intros Hrow Hquiet Hadr n.
  pose proof (lookup_lt_Some _ _ _ Hrow) as Hk.
  destruct (loop_prefix frame progress killswitch n w k)
    as (Happ & Hr & Hem & Hlen & _ & Hout & _);
    [lia | exact Hquiet | exact Hadr |].
  pose proof (take_hints frame k Hadr) as Hhints.
  assert (Hlen1 : length (take k (map with_geohint frame)) = k).
  { rewrite length_take, length_map. lia. }
  pose proof (before_rows_outcome frame progress w) as Hb.
  unfold outcome in Hb. injection Hb as Hw0 Hd0 _ _.
  destruct (rows_loop_exact progress killswitch n
              (take k (map with_geohint frame)) 0%nat
              (before_rows frame progress w))
    as (Hw1 & _ & Hrows); [|exact Hhints|].
  { intros j Hj. apply (quiet_below_spec _ _ Hquiet). lia. }
  set (st1 := rows_loop progress killswitch n 0
                (take k (map with_geohint frame))
                (before_rows frame progress w)) in *.
  exists st1, (drop (S k) (map with_geohint frame)).
  split; [|split; [|split; [exact Hr|split; [exact Hlen|split; [|split]]]]].
  - unfold get_geoID. rewrite Hd0. fold n. rewrite Happ. fold st1.
    do 2 f_equal. apply drop_S.
    change (map with_geohint frame) with (with_geohint <$> frame).
    now rewrite list_lookup_fmap, Hrow.
  - rewrite Hw1, Hw0. reflexivity.
  - rewrite Hem, before_rows_emitted. now destruct progress.
  - intros j r0 Hj Hr0.
    assert (Hin : In r0 (take k frame)).
    { apply list_elem_of_In, list_elem_of_lookup. exists j.
      now rewrite lookup_take_lt by exact Hj. }
    rewrite forallb_forall in Hadr.
    destruct (has_adr_hint r0 (Hadr r0 Hin)) as [hint Hh].
    exists hint.
    pose proof (world_at_S frame w j r0 hint Hr0 Hh) as HS.
    specialize (Hrows j (with_geohint r0) hint (with_geohint r0)).
    cbn [Nat.add] in Hrows.
    rewrite take_take in Hrows.
    replace (j `min` k)%nat with j in Hrows by lia.
    rewrite Hw0 in Hrows. fold (world_at frame w j) in Hrows.
    destruct (resolve_row (world_at frame w j) hint) as [[w' res] fl].
    cbn [fst snd] in HS, Hrows. exists res, fl.
    split; [exact Hh|]. split; [now rewrite HS|].
    apply Hrows; [|exact Hh|].
    + rewrite lookup_take_lt by exact Hj.
      change (map with_geohint frame) with (with_geohint <$> frame).
      now rewrite list_lookup_fmap, Hr0.
    + rewrite Hd0.
      change (map with_geohint frame) with (with_geohint <$> frame).
      now rewrite list_lookup_fmap, Hr0.
  - intros j r0 Hj Hr0. rewrite Hout by exact Hj. now rewrite Hr0.
Qed.
End Reports.

(** ** More on the whole call *)

Section More_of_the_pass.
Context `{Services}.

(** X1: the progress signal only reports. Without it nothing is emitted,
    and with it the call reaches the same world and leaves the same
    frame and the same [index]; it ends the same way too, but on a frame
    without rows, where the last report raises. *)
Theorem progress_only_reports (frame : list row)
    (killswitch : option (nat -> bool)) (w : World) :
  let quiet := get_geoID frame false killswitch w in
  let loud := get_geoID frame true killswitch w in
  emitted quiet = []
  /\ world loud = world quiet
  /\ data loud = data quiet
  /\ index loud = index quiet
  /\ raised loud = match frame with
                   | [] => Some UnboundLocalError
                   | _ :: _ => raised quiet
                   end.
Proof.
  intros quiet loud. split.
  - unfold quiet, get_geoID.
    set (st1 := rows_loop _ _ _ _ _ _).
    assert (Hst : after_rows false (length frame) st1 = st1).
    { unfold after_rows. now destruct (raised st1). }
    rewrite Hst. unfold st1. rewrite rows_loop_silent.
    now rewrite before_rows_emitted.
  - pose proof (before_rows_outcome frame true w) as Ht.
    pose proof (before_rows_outcome frame false w) as Hf.
    assert (Hd : data (before_rows frame true w)
                 = data (before_rows frame false w)).
    { unfold outcome in Ht, Hf. congruence. }
    pose proof (rows_loop_progress true false killswitch (length frame)
                  (length frame) (data (before_rows frame false w)) 0%nat
                  _ _ (eq_trans Ht (eq_sym Hf))) as Hloop.
    assert (Hout : outcome loud
                   = (world quiet, data quiet, index quiet,
                      match frame with
                      | [] => Some UnboundLocalError
                      | _ :: _ => raised quiet
                      end)).
    { unfold loud, quiet, get_geoID. rewrite Hd.
      rewrite after_rows_outcome.
      rewrite after_rows_world, after_rows_data, after_rows_index,
        after_rows_raised.
      unfold outcome in Hloop. injection Hloop as Hw1 Hd1 Hi1 Hr1.
      rewrite Hw1, Hd1, Hi1, Hr1. f_equal.
      destruct frame as [|r frame].
      - unfold outcome in Hf. injection Hf as _ Hdf Hif Hrf.
        rewrite Hdf. cbn [map rows_loop]. now rewrite Hrf, Hif.
      - set (st1 := rows_loop false _ _ _ _ _).
        destruct (raised st1) eqn:Hr; [reflexivity|].
        destruct (index st1) eqn:Hi; [reflexivity|].
        exfalso. revert Hi. apply rows_loop_index.
        unfold outcome in Hf. injection Hf as _ Hdf _ _.
        rewrite Hdf. discriminate. }
    unfold outcome in Hout. injection Hout as Hw1 Hd1 Hi1 Hr1. auto.
Qed.

(** X2: the reports of a run that goes through every row of a frame of
    [n] rows, each with an address: the opening report, the report of
    the probe if it failed, one report [(i, 0, n)] for each row in order,
    and a last report [(n - 1, n, n)], which carries the word [cancel]
    although nothing was cancelled. *)
Theorem reports_of_a_complete_run (frame : list row)
    (killswitch : option (nat -> bool)) (w : World) :
  frame <> [] ->
  forallb has_adr frame = true ->
  quiet_below killswitch (length frame) = true ->
  let n := length frame in
  emitted (get_geoID frame true killswitch w)
  = row_event n 0 :: probe_events n (snd (requests_get w))
    ++ map (row_event n) (seq 0 n)
    ++ [((n - 1)%nat, n, n, "cancel"%string, stage)].
Proof.
  intros Hne Hadr Hquiet n.
  destruct (loop_prefix frame true killswitch n w n)
    as (Happ & Hr & Hem & _ & _ & _ & Hidx);
    [reflexivity | exact Hquiet | now rewrite take_ge by reflexivity |].
  unfold get_geoID.
  pose proof (before_rows_outcome frame true w) as Hb.
  unfold outcome in Hb. injection Hb as _ Hd0 _ _.
  rewrite Hd0. fold n. rewrite Happ.
  rewrite (drop_ge (map with_geohint frame) n)
    by (rewrite length_map; reflexivity).
  cbn [rows_loop]. set (st1 := rows_loop _ _ _ _ _ _) in *.
  unfold after_rows. rewrite Hr, Hidx.
  - cbn [emit emitted]. rewrite Hem, before_rows_emitted.
    cbn [app]. now rewrite <- !app_assoc.
  - destruct frame; [congruence | discriminate].
Qed.

(** X3: the reports of a run that the switch stops at row [k]: the
    opening report, the report of the probe if it failed, the reports
    of the rows up to [k] itself, then [(k, 0, k)] for the
    cancellation and the last report [(k, n, n)] all the same. *)
Theorem reports_when_cancelled (frame : list row) (is_set : nat -> bool)
    (w : World) (k : nat) :
  (k < length frame)%nat ->
  quiet_below (Some is_set) k = true ->
  is_set k = true ->
  forallb has_adr (take k frame) = true ->
  let n := length frame in
  emitted (get_geoID frame true (Some is_set) w)
  = row_event n 0 :: probe_events n (snd (requests_get w))
    ++ map (row_event n) (seq 0 (S k))
    ++ [(k, 0%nat, k, "cancel"%string, stage);
        (k, n, n, "cancel"%string, stage)].
Proof.
  intros Hk Hquiet Hset Hadr n.
  destruct (loop_prefix frame true (Some is_set) n w k)
    as (Happ & Hr & Hem & _ & _ & _ & _);
    [lia | exact Hquiet | exact Hadr |].
  unfold get_geoID.
  pose proof (before_rows_outcome frame true w) as Hb.
  unfold outcome in Hb. injection Hb as _ Hd0 _ _.
  rewrite Hd0. fold n. rewrite Happ.
  set (st1 := rows_loop _ _ _ _ (take _ _) _) in *.
  destruct (drop k (map with_geohint frame)) as [|r rest] eqn:Hdrop.
  { apply (f_equal length) in Hdrop.
    rewrite length_drop, length_map in Hdrop. cbn in Hdrop. lia. }
  cbn [rows_loop set_at]. rewrite Hset.
  unfold after_rows. cbn [emit raised index emitted].
  rewrite Hr. cbn [emit raised index emitted world data].
  rewrite Hem, before_rows_emitted.
  rewrite seq_S, map_app. cbn [app map Nat.add].
  now rewrite <- !app_assoc.
Qed.

(** The call on a frame whose row [k] is the first without a string
    for address. *)
Lemma run_to_attribute_error (frame : list row) (progress : bool)
    (killswitch : option (nat -> bool)) (w : World) (k : nat) (r : row) :
  frame !! k = Some r ->
  has_adr r = false ->
  quiet_below killswitch (S k) = true ->
  forallb has_adr (take k frame) = true ->
  let n := length frame in
  let st' := get_geoID frame progress killswitch w in
  raised st' = Some AttributeError
  /\ index st' = Some k
  /\ world st' = world_at frame w k
  /\ (forall j r0, (j < k)%nat -> frame !! j = Some r0 ->
        exists hint result flag_accurate r',
          with_geohint r0 !! "geohint"%string = Some (Str hint)
          /\ resolve_row (world_at frame w j) hint
             = (world_at frame w (S j), result, flag_accurate)
          /\ data st' !! j = Some r'
          /\ r' !! "geoID"%string = Some (geoID_cell result)
          /\ r' !! "exactlocation"%string = Some (Bool flag_accurate)
          /\ forall col, col <> "geoID"%string ->
               col <> "exactlocation"%string ->
               r' !! col = with_geohint r0 !! col)
  /\ (forall j r0, (k <= j)%nat -> frame !! j = Some r0 ->
        exists r',
          data st' !! j = Some r'
          /\ r' = with_geohint r0
          /\ r' !! "geoID"%string = r0 !! "geoID"%string
          /\ r' !! "exactlocation"%string = r0 !! "exactlocation"%string)
  /\ emitted st'
     = if progress
       then row_event n 0 :: probe_events n (snd (requests_get w))
            ++ map (row_event n) (seq 0 (S k))
       else [].
Proof.
  intros Hrow Hno Hquiet Hadr n st'.
  assert (Hquiet' : quiet_below killswitch k = true).
  { destruct killswitch as [is_set|]; [|reflexivity].
    unfold quiet_below in *. rewrite seq_S, forallb_app in Hquiet.
    now apply andb_true_iff in Hquiet as [? _]. }
  destruct (run_to_row frame progress killswitch w k r Hrow Hquiet' Hadr)
    as (st1 & rest & Hrun & Hw & Hr & Hlen & Hem & Hin & Hout).
  fold n in Hrun, Hem, Hlen.
  pose proof (no_adr_no_hint r Hno) as Hh.
  set (st2 := emit progress (row_event n k)
                {| world := world st1; emitted := emitted st1;
                   data := data st1; index := Some k;
                   raised := raised st1 |}).
  assert (Hst : st' = {| world := world st2; emitted := emitted st2;
                         data := data st2; index := index st2;
                         raised := Some AttributeError |}).
  { unfold st'. rewrite Hrun. cbn [rows_loop].
    rewrite (quiet_below_spec _ _ Hquiet k) by lia.
    fold (row_event n k). fold st2.
    destruct (with_geohint r !! "geohint"%string) as [[hint|b]|];
      [contradiction | reflexivity | reflexivity]. }
  rewrite Hst. cbn [raised index world data emitted]. unfold st2.
  rewrite index_emit, world_emit, data_emit. cbn [index world data].
  split; [reflexivity|]. split; [reflexivity|]. split; [exact Hw|].
  split; [|split].
  - intros j r0 Hj Hr0.
    destruct (Hin j r0 Hj Hr0) as (hint & res & fl & Hh0 & Hres & Hd).
    destruct (write_outcome_cells res fl (with_geohint r0))
      as (Hg & He & Hother).
    exists hint, res, fl, (write_outcome res fl (with_geohint r0)).
    repeat split; assumption.
  - intros j r0 Hj Hr0. exists (with_geohint r0).
    split; [exact (Hout j r0 Hj Hr0)|]. split; [reflexivity|].
    split; apply with_geohint_cells; discriminate.
  - destruct progress; cbn [emit emitted]; rewrite Hem; [|reflexivity].
    rewrite seq_S, map_app. cbn [app map Nat.add].
    now rewrite <- !app_assoc.
Qed.

(** X4: a row whose address is not a string (a missing value, or a
    boolean) ends the call with an [AttributeError] at that row, when the
    rows before it have an address and the switch is not set up to it.
    No query is sent for that row: the world is the one the rows before
    left. Each row before it holds, in [geoID] and [exactlocation], the
    result and the flag of its hint resolved in the world that the rows
    before it left; the other rows have only their [geohint], nothing
    being written into [geoID] and [exactlocation]; and the reports stop
    at the one that opens the row: there is no last report. *)
Theorem row_without_address (frame : list row) (progress : bool)
    (killswitch : option (nat -> bool)) (w : World) (k : nat) (r : row) :
  frame !! k = Some r ->
  has_adr r = false ->
  quiet_below killswitch (S k) = true ->
  forallb has_adr (take k frame) = true ->
  let n := length frame in
  let st' := get_geoID frame progress killswitch w in
  raised st' = Some AttributeError
  /\ index st' = Some k
  /\ world st' = world_at frame w k
  /\ (forall j r0, (j < k)%nat -> frame !! j = Some r0 ->
        exists hint result flag_accurate r',
          with_geohint r0 !! "geohint"%string = Some (Str hint)
          /\ resolve_row (world_at frame w j) hint
             = (world_at frame w (S j), result, flag_accurate)
          /\ data st' !! j = Some r'
          /\ r' !! "geoID"%string = Some (geoID_cell result)
          /\ r' !! "exactlocation"%string = Some (Bool flag_accurate)
          /\ forall col, col <> "geoID"%string ->
               col <> "exactlocation"%string ->
               r' !! col = with_geohint r0 !! col)
  /\ (forall j r0, (k <= j)%nat -> frame !! j = Some r0 ->
        exists r',
          data st' !! j = Some r'
          /\ r' = with_geohint r0
          /\ r' !! "geoID"%string = r0 !! "geoID"%string
          /\ r' !! "exactlocation"%string = r0 !! "exactlocation"%string)
  /\ emitted st'
     = if progress
       then row_event n 0 :: probe_events n (snd (requests_get w))
            ++ map (row_event n) (seq 0 (S k))
       else [].
Proof. apply run_to_attribute_error. Qed.

(** C7: when the switch is first set at row [k], the call ends without
    exception and the run stops there: no query is sent for row [k] or
    after it, the world at the end being the one that the [k] rows
    before left. Each of these [k] rows holds its outcome, the result
    and the flag of its hint resolved in the world that the rows before
    it left, in [geoID] and [exactlocation]; row [k] and the rows after
    it have their [geohint] and nothing written into [geoID] and
    [exactlocation]. *)
Theorem cancelled_before_row (frame : list row) (progress : bool)
    (is_set : nat -> bool) (w : World) (k : nat) :
  (k < length frame)%nat ->
  quiet_below (Some is_set) k = true ->
  is_set k = true ->
  forallb has_adr (take k frame) = true ->
  let st' := get_geoID frame progress (Some is_set) w in
  raised st' = None
  /\ length (data st') = length frame
  /\ index st' = Some k
  /\ world st' = world_at frame w k
  /\ (forall j r, (j < k)%nat -> frame !! j = Some r ->
        exists hint result flag_accurate r',
          with_geohint r !! "geohint"%string = Some (Str hint)
          /\ resolve_row (world_at frame w j) hint
             = (world_at frame w (S j), result, flag_accurate)
          /\ data st' !! j = Some r'
          /\ r' !! "geoID"%string = Some (geoID_cell result)
          /\ r' !! "exactlocation"%string = Some (Bool flag_accurate)
          /\ forall col, col <> "geoID"%string ->
               col <> "exactlocation"%string ->
               r' !! col = with_geohint r !! col)
  /\ (forall j r, (k <= j)%nat -> frame !! j = Some r ->
        exists r',
          data st' !! j = Some r'
          /\ r' = with_geohint r
          /\ r' !! "geoID"%string = r !! "geoID"%string
          /\ r' !! "exactlocation"%string = r !! "exactlocation"%string).
Proof.
  intros Hk Hquiet Hset Hadr st'.
  destruct (lookup_lt_is_Some_2 frame k Hk) as [r Hrow].
  destruct (run_to_row frame progress (Some is_set) w k r Hrow Hquiet Hadr)
    as (st1 & rest & Hrun & Hw & Hr & Hlen & _ & Hin & Hout).
  unfold st'. rewrite Hrun. cbn [rows_loop set_at]. rewrite Hset.
  rewrite after_rows_raised, after_rows_data, after_rows_index,
    after_rows_world.
  rewrite !raised_emit, !data_emit, !index_emit, !world_emit.
  cbn [raised data index world]. rewrite Hr.
  split; [now destruct progress|]. split; [exact Hlen|].
  split; [reflexivity|]. split; [exact Hw|]. split.
  - intros j r0 Hj Hr0.
    destruct (Hin j r0 Hj Hr0) as (hint & res & fl & Hh0 & Hres & Hd).
    destruct (write_outcome_cells res fl (with_geohint r0))
      as (Hg & He & Hother).
    exists hint, res, fl, (write_outcome res fl (with_geohint r0)).
    repeat split; assumption.
  - intros j r0 Hj Hr0. exists (with_geohint r0).
    split; [exact (Hout j r0 Hj Hr0)|]. split; [reflexivity|].
    split; apply with_geohint_cells; discriminate.
Qed.

End More_of_the_pass.

(** ** More on the pieces and their queries *)

Section More_of_the_chain.
Context `{Services}.

(** X5: a hint whose pieces are all empty once trimmed costs nothing:
    no query is sent, the world is the one before, the result is empty
    and the flag false. *)
Theorem empty_pieces_send_nothing (w : World) (hint : str) :
  Forall (fun e => normalize_elem e = []) (pieces hint) ->
  resolve_row w hint = (w, [], false).
Proof.
  unfold resolve_row, pieces. generalize (Re.split Pat.tag (decode hint)).
  intros l Hl. generalize (w, @nil payload, false).
  induction Hl as [|e l He _ IH]; intros a; [reflexivity|].
  cbn [fold_left]. rewrite resolve_elem_empty by exact He. apply IH.
Qed.

(** X6: a row gets at most one entry of [result] for each piece of its
    hint that is not empty, however many queries the piece sent. *)
Theorem one_result_per_piece (w : World) (hint : str) :
  (length (snd (fst (resolve_row w hint)))
   <= length (filter (fun e => e <> []) (elems_of_hint hint)))%nat.
Proof.
  unfold resolve_row, elems_of_hint.
  exact (fold_resolve_count _ (w, [], false)).
Qed.

(** X10: whatever the address, no piece that is queried holds a capital
    letter from A to Z, a double quote or an at sign. *)
Theorem pieces_alphabet (raw : str) :
  Forall (Forall (fun c => Py.is_upper c = false /\ c <> 34 /\ c <> 64))
    (normalize raw).
Proof.
  unfold normalize, elems_of_hint. apply Forall_map.
  eapply List.Forall_impl; [apply normalize_elem_alphabet|].
  apply split_Forall, decode_alphabet.
Qed.
End More_of_the_chain.

(** ** Normalization twice *)

Section Tidy_pieces.
Context `{Services}.
Import Re.

Lemma tidy_spec s :
  tidy s = true ->
  Forall (fun c => plain_char c = true) s
  /\ no_loose_comma s = true
  /\ match s with
     | c :: _ => Py.mem c trimmed = false /\ Py.is_space c = false
     | [] => True
     end
  /\ match rev s with
     | c :: _ => Py.mem c trimmed = false
     | [] => True
     end
  /\ single_spaces s = true.
Proof.
  unfold tidy. rewrite !andb_true_iff.
  intros [[[[Hall Hl] Hsingle] Hhead] Hlast].
  split; [|split; [exact Hl|split; [|split; [|exact Hsingle]]]].
  - apply Forall_forall. intros c Hc.
    rewrite forallb_forall in Hall. apply Hall.
    now apply list_elem_of_In.
  - destruct s as [|c s]; [exact I|].
    apply andb_true_iff in Hhead as [H1 H2].
    now rewrite !negb_true_iff in *.
  - destruct (rev s) as [|c t]; [exact I|]. now apply negb_true_iff.
Qed.

Lemma squeeze_single_spaces : forall s inrun,
  single_spaces s = true ->
  (inrun = true ->
   match s with c :: _ => Py.is_space c = false | [] => True end) ->
  squeeze_from Py.is_space [32] inrun s = s.
Proof.
  induction s as [|c s IH]; intros inrun Hs Hrun; [reflexivity|].
  cbn [single_spaces] in Hs. apply andb_true_iff in Hs as [Hc Hs].
  cbn [squeeze_from]. destruct (Py.is_space c) eqn:Hsp.
  - cbn [negb orb] in Hc. apply andb_true_iff in Hc as [H32 Hnext].
    apply N.eqb_eq in H32. subst c.
    destruct inrun; [now specialize (Hrun eq_refl)|].
    cbn [app]. f_equal. apply IH; [exact Hs|]. intros _.
    destruct s as [|d s]; [exact I|]. now apply negb_true_iff.
  - f_equal. apply IH; [exact Hs|]. discriminate.
Qed.

(** The collapse of white space of line 188 builds the text it is
    given, when the text is tidy. *)
Lemma collapse_tidy s :
  tidy s = true -> Re.sub Pat.spaces (py " ") s = s.
Proof.
  intros (_ & _ & _ & _ & Hs)%tidy_spec.
  unfold Pat.spaces, Re.Space. rewrite sub_class_plus.
  apply squeeze_single_spaces; [exact Hs | discriminate].
Qed.

(** The characters a match of each pattern can start with. *)
Ltac first_set :=
  cbv -[N.eqb orb Py.mem Py.is_space Py.is_upper]; cbn [orb];
  rewrite ?orb_false_r; reflexivity.

Lemma first_parenthesis c :
  first Pat.parenthesis c = (40 =? c) || (64 =? c).
Proof. first_set. Qed.

Lemma first_dashes c :
  first Pat.dashes c = Py.mem c [45; 91; 93; 123; 125].
Proof. first_set. Qed.

Lemma first_newlines c : first Pat.newlines c = Py.mem c [10; 13].
Proof. first_set. Qed.

Lemma first_leading_comma c :
  first Pat.leading_comma c = Py.is_space c || (44 =? c).
Proof. first_set. Qed.

Lemma first_tag c : first Pat.tag c = Py.is_upper c.
Proof. first_set. Qed.

(** Each replacement of lines 181-191 leaves a tidy text as it is, the
    one of line 188 too, whether its result is kept or not. *)
Lemma geohint_tidy s : tidy s = true -> geohint s = s.
Proof.
  intros Hs. pose proof (tidy_spec s Hs) as (Hall & _ & Hhead & _).
  assert (Hspaces : forall inplace,
             series_replace Pat.spaces (py " ") inplace s = s).
  { intros [|]; [now apply collapse_tidy | reflexivity]. }
  assert (Hpar : series_replace Pat.parenthesis (py " ") true s = s).
  { unfold series_replace, sub. apply sub_loop_stuck.
    eapply Forall_impl; [exact Hall|]. intros c Hc.
    apply plain_char_spec in Hc as (_ & _ & _ & _ & _ & H40 & _ & H64 & _).
    now rewrite first_parenthesis, H40, H64. }
  assert (Hdash : series_replace Pat.dashes (py " ") true s = s).
  { unfold series_replace, sub. apply sub_loop_stuck.
    eapply Forall_impl; [exact Hall|]. intros c Hc.
    apply plain_char_spec in Hc
      as (_ & _ & _ & _ & _ & _ & H45 & _ & H91 & H93 & H123 & H125).
    rewrite first_dashes. unfold Py.mem. cbn [existsb].
    rewrite !(N.eqb_sym c). now rewrite H45, H91, H93, H123, H125. }
  assert (Hnl : series_replace Pat.newlines (py ", ") true s = s).
  { unfold series_replace, sub. apply sub_loop_stuck.
    eapply Forall_impl; [exact Hall|]. intros c Hc.
    apply plain_char_spec in Hc as (_ & _ & H10 & H13 & _).
    rewrite first_newlines. unfold Py.mem. cbn [existsb].
    rewrite !(N.eqb_sym c). now rewrite H10, H13. }
  assert (Hlead : series_replace Pat.leading_comma [] true s = s).
  { unfold series_replace, sub. destruct s as [|c s]; [reflexivity|].
    change (sub_loop Pat.leading_comma [] (S (length (c :: s))) true (c :: s))
      with (match match_at Pat.leading_comma true (c :: s) with
            | Some rest =>
                [] ++ sub_loop Pat.leading_comma [] (length (c :: s)) false rest
            | None =>
                c :: sub_loop Pat.leading_comma [] (length (c :: s)) false s
            end).
    rewrite match_at_stuck.
    - unfold Pat.leading_comma. now rewrite sub_loop_anchored.
    - destruct Hhead as [Htrim Hsp].
      cbn [stuck]. rewrite first_leading_comma, Hsp.
      unfold Py.mem, trimmed in Htrim. cbn [existsb] in Htrim.
      rewrite !orb_false_iff in Htrim.
      destruct Htrim as (_ & _ & _ & _ & _ & H44 & _).
      rewrite N.eqb_sym in H44. now rewrite H44. }
  unfold geohint. cbv zeta.
  now rewrite Hpar, Hdash, Hnl, Hspaces, Hlead.
Qed.

Lemma decode_tidy s : tidy s = true -> decode s = s.
Proof.
  intros (Hall & _)%tidy_spec. unfold decode, Py.replace.
  assert (Hu : unidecode s = s).
  { unfold unidecode. induction Hall as [|c s Hc _ IH]; [reflexivity|].
    cbn [flat_map]. apply plain_char_spec in Hc as (-> & _).
    now rewrite IH. }
  rewrite Hu.
  rewrite (replace_absent 34).
  2:{ eapply Forall_impl; [exact Hall|]. intros c Hc.
      now apply plain_char_spec in Hc as (_ & _ & _ & _ & ? & _). }
  change (py "(c)") with [40; 99; 41]. rewrite (replace_absent 40).
  2:{ eapply Forall_impl; [exact Hall|]. intros c Hc.
      now apply plain_char_spec in Hc as (_ & _ & _ & _ & _ & ? & _). }
  change (py "@") with [64]. rewrite (replace_absent 64); [reflexivity|].
  eapply Forall_impl; [exact Hall|]. intros c Hc.
  now apply plain_char_spec in Hc as (_ & _ & _ & _ & _ & _ & _ & ? & _).
Qed.

Lemma split_tag_tidy s : tidy s = true -> Re.split Pat.tag s = [s].
Proof.
  intros (Hall & _)%tidy_spec. unfold Re.split.
  rewrite split_loop_stuck; [reflexivity|].
  eapply Forall_impl; [exact Hall|]. intros c Hc.
  apply plain_char_spec in Hc as (_ & Hup & _).
  now rewrite first_tag.
Qed.

Lemma normalize_elem_tidy s : tidy s = true -> normalize_elem s = s.
Proof.
  intros (Hall & Hl & Hhead & Hlast & _)%tidy_spec. unfold normalize_elem.
  rewrite strip_ends.
  - rewrite lower_no_capital.
    + unfold sub. change (py ",") with [44]. now apply sub_commas_tidy.
    + eapply Forall_impl; [exact Hall|]. intros c Hc.
      now apply plain_char_spec in Hc as (_ & ? & _).
  - destruct s as [|c s]; [exact I|]. now destruct Hhead.
  - exact Hlast.
Qed.

(** Normalization gives a tidy text back as its only piece. *)
Lemma normalize_of_tidy (s : str) : tidy s = true -> normalize s = [s].
Proof.
  intros Hs. unfold normalize, elems_of_hint.
  rewrite geohint_tidy, decode_tidy, split_tag_tidy by exact Hs.
  cbn [map]. now rewrite normalize_elem_tidy.
Qed.

Lemma flat_map_normalize l :
  Forall (fun e => normalize e = [e]) l -> flat_map normalize l = l.
Proof.
  induction 1 as [|e l He _ IH]; [reflexivity|].
  cbn [flat_map]. now rewrite He, IH.
Qed.

(** C8, as the code has it. Normalization gives a tidy text back as its
    only piece. So, for every raw address whose pieces are tidy, each
    piece is its own normalization, a second pass over the pieces gives
    the pieces of the first, and when there is one piece its
    normalization is the one of the address. The collapse of white
    space of line 188, whose result the source drops, would leave a tidy
    piece as it is: none of this depends on its result being dropped. *)
Theorem normalize_tidy (x : str) :
  (tidy x = true -> normalize x = [x])
  /\ (Forall (fun e => tidy e = true) (normalize x) ->
      Forall (fun e => normalize e = [e]
                       /\ series_replace Pat.spaces (py " ") true e = e)
        (normalize x)
      /\ flat_map normalize (normalize x) = normalize x
      /\ (length (normalize x) = 1%nat ->
          normalize (nth 0 (normalize x) []) = normalize x)).
Proof.
  split; [apply normalize_of_tidy|]. intros Hall.
  assert (Hid : Forall (fun e => normalize e = [e]) (normalize x)).
  { eapply Forall_impl; [exact Hall|]. intros e. apply normalize_of_tidy. }
  split; [|split].
  - eapply Forall_impl; [exact Hall|]. intros e He.
    split; [now apply normalize_of_tidy | now apply collapse_tidy].
  - now apply flat_map_normalize.
  - intros Hlen. destruct (normalize x) as [|e [|e' l]]; try discriminate.
    cbn [nth]. now apply Forall_cons in Hid as [He _].
Qed.
End Tidy_pieces.

(** X7: the text of a query. The final [strip] of [+] never removes
    anything, since the text starts with [q=] and ends with [json]; and
    the runs of [+] made one are those inside the encoded values, so a
    space at either end of the text stays in the query as a [+]. *)
Theorem query_shape (q : str) (country_code : option str) :
  build_query q Unrestricted
  = py "q=" ++ one_plus (Url.quote_plus q) ++ py "&format=json"
  /\ build_query q (Country country_code)
     = py "q=" ++ one_plus (Url.quote_plus q) ++ py "&countrycodes="
       ++ one_plus (Url.quote_plus (code_text country_code))
       ++ py "&format=json".
Proof.
  split; [apply build_query_unrestricted | apply build_query_country].
Qed.

(** X8: two texts that differ by the length of a run of spaces give the
    same query, with or without a country code: the runs of spaces that
    line 188 leaves in the hint are made one when the query is built. *)
Theorem space_runs_make_one_query (a b : str) (r : restriction) :
  build_query (a ++ 32 :: 32 :: b) r = build_query (a ++ 32 :: b) r.
Proof.
  assert (Hq : one_plus (Url.quote_plus (a ++ 32 :: 32 :: b))
               = one_plus (Url.quote_plus (a ++ 32 :: b))).
  { rewrite !quote_plus_app.
    change (Url.quote_plus (32 :: 32 :: b)) with (43 :: 43 :: Url.quote_plus b).
    change (Url.quote_plus (32 :: b)) with (43 :: Url.quote_plus b).
    unfold one_plus, squeeze. now apply squeeze_from_twice. }
  destruct r as [|country_code].
  - now rewrite !build_query_unrestricted, Hq.
  - now rewrite !build_query_country, Hq.
Qed.

(** X9: the text of an address cannot add a parameter to the query. For
    every text that can be encoded, the query has one [&] and two [=],
    those of [q] and [format]; with a country code that can be encoded it
    has two [&] and three [=]. *)
Theorem query_parameters (q : str) :
  Forall (fun c => code_point c = true) q ->
  count 38 (build_query q Unrestricted) = 1%nat
  /\ count 61 (build_query q Unrestricted) = 2%nat
  /\ forall country_code,
       Forall (fun c => code_point c = true) (code_text country_code) ->
       count 38 (build_query q (Country country_code)) = 2%nat
       /\ count 61 (build_query q (Country country_code)) = 3%nat.
Proof.
  intros Hq.
  destruct (count_url _ (one_plus_url _ (quote_plus_url q Hq))) as [Ha He].
  rewrite build_query_unrestricted, !count_app, Ha, He.
  split; [reflexivity|]. split; [reflexivity|].
  intros country_code Hc.
  destruct (count_url _ (one_plus_url _ (quote_plus_url _ Hc))) as [Ha' He'].
  rewrite build_query_country, !count_app, Ha, He, Ha', He'.
  split; reflexivity.
Qed.

(** X11: the [geohint] of an address holds no dash, bracket or brace and
    no line break, whatever the address. *)
Theorem geohint_alphabet (adr : str) :
  Forall (fun c => Py.mem c (py "-[]{}") = false /\ Py.mem c [10; 13] = false)
    (geohint adr).
Proof.
  unfold geohint, series_replace.
  apply sub_Forall; [constructor|].
  change Pat.newlines with (Re.Plus (Re.Cls (fun c => Py.mem c [10; 13]))).
  change Pat.dashes with (Re.Plus (Re.Cls (fun c => Py.mem c (py "-[]{}")))).
  rewrite !sub_class_plus. apply Forall_and. split.
  - apply squeeze_from_Forall; [repeat constructor|].
    apply squeeze_from_class. repeat constructor.
  - apply squeeze_from_class. repeat constructor.
Qed.

(** * [cleanup_contact] *)

(** ** The replacements on the text of a cell *)

Section Greedy.
Import Rg.
Variable p : N -> bool.

(** A star over a class gives up characters only when what follows
    fails: a way to go on after a longer run is the one taken. *)
Lemma star_class_longer g k found : forall u w fuel b,
  Forall (fun c => p c = true) u ->
  (length (u ++ w) < fuel)%nat ->
  (forall fuel' b', (length w < fuel')%nat ->
     star_loop (rmatch false (Cls p)) fuel' b' w g k = Some found) ->
  star_loop (rmatch false (Cls p)) fuel b (u ++ w) g k = Some found.
Proof.
  induction u as [|c u IH]; intros w fuel b Hu Hlt Hw.
  - apply Hw. exact Hlt.
  - apply Forall_cons in Hu as [Hc Hu].
    destruct fuel as [|fuel]; [cbn in Hlt; lia|].
    assert (Hlt' : (length (u ++ w) < fuel)%nat)
      by (cbn [app length] in Hlt; lia).
    cbn [app star_loop rmatch]. rewrite Hc. cbn [length].
    replace (length (u ++ w) <? S (length (u ++ w)))%nat with true
      by (symmetry; apply Nat.ltb_lt; lia).
    rewrite (IH w fuel _ Hu Hlt' Hw). reflexivity.
Qed.

Lemma star_class_step g k fuel b c s :
  star_loop (rmatch false (Cls p)) (S fuel) b (c :: s) g k
  = if p c
    then match star_loop (rmatch false (Cls p)) fuel false s g k with
         | Some found => Some found
         | None => k b (c :: s) g
         end
    else k b (c :: s) g.
Proof.
  cbn [star_loop]. change (rmatch false (Cls p) b (c :: s) g ?k')
    with (if p c then k' false s g else None).
  destruct (p c); [|reflexivity]. cbn [length].
  replace (length s <? S (length s))%nat with true
    by (symmetry; apply Nat.ltb_lt; lia).
  reflexivity.
Qed.

(** It fails when what follows fails wherever the star stops. *)
Lemma star_class_fails g k : forall fuel b s,
  (forall b' s', s' `suffix_of` s -> k b' s' g = None) ->
  star_loop (rmatch false (Cls p)) fuel b s g k = None.
Proof.
  induction fuel as [|fuel IH]; intros b s Hk; cbn [star_loop rmatch].
  - apply Hk. reflexivity.
  - destruct s as [|c s]; [apply Hk; reflexivity|].
    destruct (p c); [|apply Hk; reflexivity].
    destruct (length s <? length (c :: s))%nat.
    + rewrite IH; [apply Hk; reflexivity|].
      intros b' s' Hs'. apply Hk. now apply suffix_cons_r.
    + apply Hk. reflexivity.
Qed.
End Greedy.

Section Basic_tag.
Import Rg.

(** What follows the name in the pattern of line 114. *)
Let after_name : regex :=
  Seq (Chr 123) (Seq (Chr 125)
    (Seq (Grp 1 (Star Dot)) (Seq (Chr 62) (Chr 93)))).

Let done : bool -> str -> groups -> option (str * groups) :=
  fun _ rest g => Some (rest, g).

Lemma after_name_fails b s g :
  match s with c :: _ => c <> 123 | [] => True end ->
  rmatch false after_name b s g done = None.
Proof.
  destruct s as [|c s]; [reflexivity|]. intros Hc.
  cbn [after_name rmatch Chr].
  destruct (N.eqb_spec 123 c) as [<-|_]; [congruence | reflexivity].
Qed.

Lemma value_taken (v : str) g b :
  Forall (fun c => c <> 10) v ->
  rmatch false (Seq (Grp 1 (Star Dot)) (Seq (Chr 62) (Chr 93))) b
    (v ++ [62; 93]) g done
  = Some ([], (1%nat, v) :: g).
Proof.
  intros Hv. cbn [rmatch Dot].
  apply star_class_longer.
  - eapply Forall_impl; [exact Hv|]. intros c Hc. cbn.
    now destruct (N.eqb_spec c 10).
  - lia.
  - intros fuel' b' Hlt. cbn [length] in Hlt.
    destruct fuel' as [|[|[|fuel']]]; try lia.
    cbn. rewrite length_app. cbn [length].
    replace (length v + 2 - 2)%nat with (length v) by lia.
    now rewrite take_app_length.
Qed.

Lemma name_taken (t v : str) b :
  Forall (fun c => Py.is_space c = false) t ->
  Forall (fun c => c <> 123 /\ c <> 10) v ->
  forall fuel,
    (length (t ++ (123 :: 125 :: v ++ [62; 93])%N) < fuel)%nat ->
  star_loop (rmatch false NonSpace) fuel b
    (t ++ 123 :: 125 :: v ++ [62; 93]) []
    (fun b' s' g' => rmatch false after_name b' s' g' done)
  = Some ([], [(1%nat, v)]).
Proof.
  intros Ht Hv fuel Hlt. apply Forall_and in Hv as [Hv1 Hv2].
  apply star_class_longer.
  - eapply Forall_impl; [exact Ht|]. intros c Hc. cbn. now rewrite Hc.
  - exact Hlt.
  - intros fuel' b' Hlt'. destruct fuel' as [|fuel']; [lia|].
    unfold NonSpace. rewrite star_class_step.
    change (negb (Py.is_space 123)) with true. cbv iota.
    rewrite star_class_fails.
    + cbn [after_name rmatch Chr]. change (123 =? 123) with true.
      change (125 =? 125) with true. cbv iota.
      exact (value_taken v [] false Hv2).
    + intros b'' s' Hs'. apply after_name_fails.
      assert (Hall : Forall (fun c => c <> 123) (125 :: v ++ [62; 93])).
      { constructor; [discriminate|]. apply Forall_app. split; [exact Hv1|].
        repeat constructor; discriminate. }
      pose proof (Forall_suffix _ _ _ Hs' Hall) as Hs.
      destruct s' as [|c s']; [exact I|]. now apply Forall_cons in Hs as [? _].
Qed.

Lemma basic_tag_matched (t v : str) :
  t <> [] ->
  Forall (fun c => Py.is_space c = false) t ->
  Forall (fun c => c <> 123 /\ c <> 10) v ->
  match_at false Pat2.basic true
    (91 :: 60 :: t ++ 123 :: 125 :: v ++ [62; 93])
  = Some ([], [(1%nat, v)]).
Proof.
  intros Hne Ht Hv. destruct t as [|c t]; [congruence|].
  apply Forall_cons in Ht as [Hc Ht].
  unfold match_at, Pat2.basic.
  cbn [rmatch Chr Plus NonSpace app]. change (91 =? 91) with true.
  change (60 =? 60) with true. cbv iota. rewrite Hc. cbn [negb].
  fold NonSpace.
  rewrite (name_taken t v false Ht Hv) by lia.
  reflexivity.
Qed.
End Basic_tag.

(** X17: the first replacement of [cleanup_contact] turns the text of a
    basic tag into its value: [[<name{}value>]] becomes [value], for
    every name without white space and every value without line feed and
    without opening brace. *)
Theorem basic_tag_cleaned (t v : str) :
  t <> [] ->
  Forall (fun c => Py.is_space c = false) t ->
  Forall (fun c => c <> 123 /\ c <> 10) v ->
  clean_basic (py "[<" ++ t ++ py "{}" ++ v ++ py ">]") = v.
Proof.
  intros Hne Ht Hv. unfold clean_basic, Rg.sub.
  change (py "[<" ++ t ++ py "{}" ++ v ++ py ">]")
    with (91 :: 60 :: t ++ 123 :: 125 :: v ++ [62; 93]).
  cbn [length Rg.sub_loop].
  rewrite (basic_tag_matched t v Hne Ht Hv).
  cbn [Rg.expand flat_map Rg.group Nat.eqb]. rewrite !app_nil_r.
  reflexivity.
Qed.

(** ** Frames *)

Section Frame_lemmas.
Context {A : Type}.
Implicit Types (r : gmap string A) (t : table A).

Lemma lookup_restrict cols r c :
  restrict cols r !! c = if bool_decide (c ∈ cols) then r !! c else None.
Proof.
  unfold restrict. case_bool_decide as Hc.
  - destruct (r !! c) as [x|] eqn:Hr.
    + apply map_lookup_filter_Some. split; [exact Hr | exact Hc].
    + apply map_lookup_filter_None. now left.
  - apply map_lookup_filter_None. right. intros x _. exact Hc.
Qed.

Lemma lookup_fill_row v cols r c :
  fill_row v cols r !! c
  = match r !! c with
    | Some x => Some x
    | None => if bool_decide (c ∈ cols) then Some v else None
    end.
Proof.
  induction cols as [|d cols IH]; cbn [fill_row fold_right].
  - destruct (r !! c); [reflexivity|]. now rewrite bool_decide_eq_false_2
      by apply not_elem_of_nil.
  - fold (fill_row v cols r). unfold value_in.
    destruct (decide (c = d)) as [->|Hne].
    + rewrite (bool_decide_eq_true_2 (d ∈ d :: cols)) by apply list_elem_of_here.
      destruct (r !! d) as [a|] eqn:Hr.
      * rewrite IH. exact IH.
      * destruct (bool_decide (d ∈ cols)); rewrite IH;
          [exact IH | apply lookup_insert_eq].
    + assert (Hin : bool_decide (c ∈ d :: cols) = bool_decide (c ∈ cols)).
      { apply bool_decide_ext. rewrite elem_of_cons. tauto. }
      rewrite Hin.
      destruct (fill_row v cols r !! d); [exact IH|].
      rewrite lookup_insert_ne by congruence. exact IH.
Qed.

Lemma columns_dropna t c :
  bool_decide (c ∈ columns (dropna t)) = holds_value t c.
Proof.
  unfold dropna, holds_value. cbn [columns].
  apply eq_true_iff_eq. rewrite bool_decide_eq_true, andb_true_iff.
  rewrite bool_decide_eq_true, !list_elem_of_In, filter_In. tauto.
Qed.

Lemma dropna_sublist t : columns (dropna t) `sublist_of` columns t.
Proof.
  unfold dropna. cbn [columns].
  induction (columns t) as [|c l IH]; cbn [List.filter]; [constructor|].
  destruct (existsb _ _); [now apply sublist_skip | now apply sublist_cons].
Qed.
End Frame_lemmas.

(** ** The order of the columns *)

Section Order_of_columns.

Lemma elem_of_remove_first x l c :
  NoDup l -> c ∈ remove_first x l <-> c ∈ l /\ c <> x.
Proof.
  induction 1 as [|y l Hy Hl IH]; cbn [remove_first].
  - rewrite elem_of_nil. tauto.
  - destruct (decide (x = y)) as [->|Hne].
    + rewrite elem_of_cons. split.
      * intros Hc. split; [now right|]. intros ->. contradiction.
      * intros [[->|Hc] Hne]; [congruence | exact Hc].
    + rewrite !elem_of_cons, IH. split.
      * intros [->|[Hc Hcx]]; [split; [now left | congruence]|].
        split; [now right | exact Hcx].
      * intros [[->|Hc] Hcx]; [now left | right; now split].
Qed.

Lemma remove_first_sublist x l : remove_first x l `sublist_of` l.
Proof.
  induction l as [|y l IH]; cbn [remove_first]; [constructor|].
  destruct (decide (x = y)); [now apply sublist_cons | now apply sublist_skip].
Qed.

Lemma remove_first_Forall (P : string -> Prop) x l :
  Forall P l -> Forall P (remove_first x l).
Proof.
  induction 1 as [|y l Hy Hl IH]; cbn [remove_first]; [constructor|].
  destruct (decide (x = y)); [exact Hl | now constructor].
Qed.

Lemma remove_first_sorted x l :
  StronglySorted String.le l -> StronglySorted String.le (remove_first x l).
Proof.
  induction 1 as [|y l Hl IH Hy]; cbn [remove_first]; [constructor|].
  destruct (decide (x = y)); [exact Hl|].
  constructor; [exact IH|].
  now apply remove_first_Forall.
Qed.

(** The loop of lines 133-135 takes the forced names out of the sorted
    ones. *)
Lemma forced_removed forced : forall l,
  NoDup l -> StronglySorted String.le l ->
  let l' := fold_left (fun cols elem =>
                         if bool_decide (elem ∈ cols)
                         then remove_first elem cols else cols) forced l in
  NoDup l' /\ StronglySorted String.le l'
  /\ forall c, c ∈ l' <-> c ∈ l /\ c ∉ forced.
Proof.
  induction forced as [|x forced IH]; intros l Hnd Hs; cbn [fold_left].
  - split; [exact Hnd|]. split; [exact Hs|]. intros c.
    rewrite elem_of_nil. tauto.
  - assert (Hstep : NoDup (remove_first x l)
                    /\ StronglySorted String.le (remove_first x l)).
    { split; [|now apply remove_first_sorted].
      eapply sublist_NoDup; [exact Hnd | apply remove_first_sublist]. }
    case_bool_decide as Hx.
    + destruct (IH (remove_first x l)) as (H1 & H2 & H3);
        [apply Hstep | apply Hstep |].
      split; [exact H1|]. split; [exact H2|]. intros c.
      rewrite H3, elem_of_remove_first, elem_of_cons by exact Hnd.
      split; [intros [[? ?] ?]; split; [assumption|]; intros [?|?]; auto|].
      intros [? Hc]. split; [split; [assumption|]|]; intros ?; apply Hc; auto.
    + destruct (IH l Hnd Hs) as (H1 & H2 & H3).
      split; [exact H1|]. split; [exact H2|]. intros c.
      rewrite H3, elem_of_cons.
      split; [|intros [? Hc]; split; [assumption|]; intros ?; apply Hc; auto].
      intros [Hc Hcf]. split; [exact Hc|]. intros [->|?]; auto.
Qed.

Lemma sorted_spec l :
  StronglySorted String.le (sorted l) /\ sorted l ≡ₚ l.
Proof.
  split; [apply StronglySorted_merge_sort; apply _|].
  apply merge_sort_Permutation.
Qed.

Lemma reordered_spec names :
  NoDup names ->
  take 8 (reordered names) = forced_cols_start
  /\ StronglySorted String.le (drop 8 (reordered names))
  /\ NoDup (reordered names)
  /\ forall c, c ∈ reordered names <-> c ∈ forced_cols_start \/ c ∈ names.
Proof.
  intros Hnd. unfold reordered.
  destruct (sorted_spec names) as [Hs Hp].
  destruct (forced_removed forced_cols_start (sorted names)) as (H1 & H2 & H3);
    [now rewrite Hp | exact Hs |].
  set (rest := fold_left _ _ _) in *.
  split; [reflexivity|]. split; [exact H2|]. split.
  - apply NoDup_app. split; [|split; [|exact H1]].
    + apply (bool_decide_unpack _). vm_compute. exact I.
    + intros c Hc Hr. apply H3 in Hr as [_ Hr]. contradiction.
  - intros c. rewrite elem_of_app, H3, Hp.
    destruct (decide (c ∈ forced_cols_start)); tauto.
Qed.

Lemma elem_of_reordered names c :
  c ∈ names -> c ∈ reordered names.
Proof.
  intros Hc. unfold reordered. apply elem_of_app.
  destruct (decide (c ∈ forced_cols_start)) as [Hf|Hf]; [now left | right].
  assert (Hs : c ∈ sorted names).
  { unfold sorted. now rewrite merge_sort_Permutation. }
  revert Hs. generalize (sorted names). revert Hf.
  induction forced_cols_start as [|x forced IH]; intros Hf l Hl;
    cbn [fold_left]; [exact Hl|].
  apply not_elem_of_cons in Hf as [Hcx Hf].
  apply IH; [exact Hf|]. case_bool_decide; [|exact Hl].
  clear -Hcx Hl. induction l as [|y l IHl]; cbn [remove_first]; [exact Hl|].
  apply elem_of_cons in Hl as [->|Hl].
  - destruct (decide (x = y)); [congruence | apply list_elem_of_here].
  - destruct (decide (x = y)); [exact Hl|]. apply list_elem_of_further. auto.
Qed.
End Order_of_columns.

(** ** The frame that [cleanup_contact] returns, and the one it was given *)

Section Cleanup_props.
Context {obj : Type} (str_of : obj -> str).

(** The cell of row [r] in column [c] of the frame returned. *)
Lemma returned_rows (data : table (item obj)) progress killswitch :
  Forall2
    (fun r r' =>
       forall c, r' !! c
         = if holds_value data c
           then Some (Str (clean (match r !! c with
                                  | Some x => text_of str_of x
                                  | None => []
                                  end)))
           else None)
    (rows data)
    (rows (returned (cleanup_contact str_of data progress killswitch))).
Proof.
  unfold cleanup_contact. cbn [returned]. unfold reindex.
  cbn [rows columns replace_cells astype_str fillna dropna].
  set (kept := List.filter _ (columns data)).
  rewrite !map_map.
  change (map ?f (rows data)) with (f <$> rows data).
  apply Forall2_fmap_r, Forall_Forall2_diag, Forall_forall.
  intros r _ c. rewrite lookup_restrict.
  rewrite !lookup_fmap, lookup_fill_row, lookup_restrict.
  pose proof (columns_dropna data c) as Hk.
  unfold dropna in Hk. cbn [columns] in Hk. fold kept in Hk.
  rewrite Hk. destruct (holds_value data c) eqn:Hv.
  - rewrite bool_decide_eq_true_2.
    + now destruct (r !! c) as [x|].
    + apply elem_of_reordered. now apply bool_decide_eq_true in Hk.
  - destruct (bool_decide (c ∈ reordered kept)); reflexivity.
Qed.

Lemma caller_rows (data : table (item obj)) progress killswitch :
  Forall2
    (fun r r' =>
       forall c, r' !! c
         = if holds_value data c
           then Some (match r !! c with
                      | Some x => x
                      | None => Txt []
                      end)
           else None)
    (rows data)
    (rows (caller (cleanup_contact str_of data progress killswitch))).
Proof.
  unfold cleanup_contact. cbn [caller].
  cbn [rows columns fillna dropna].
  set (kept := List.filter _ (columns data)).
  rewrite !map_map.
  change (map ?f (rows data)) with (f <$> rows data).
  apply Forall2_fmap_r, Forall_Forall2_diag, Forall_forall.
  intros r _ c. rewrite lookup_fill_row, lookup_restrict.
  pose proof (columns_dropna data c) as Hk.
  unfold dropna in Hk. cbn [columns] in Hk. fold kept in Hk.
  rewrite Hk. destruct (holds_value data c); now destruct (r !! c).
Qed.

(** X12: the columns of the frame returned, for a frame whose columns
    have distinct names. The eight forced names come first, in the
    order of the source, whether the frame had them or not; then the
    other columns that hold a value, sorted; no name comes twice, and
    the columns that held no value are gone unless they are forced. *)
Theorem columns_of_the_cleaned_frame (data : table (item obj))
    (progress : bool) (killswitch : option (nat -> bool)) :
  NoDup (columns data) ->
  let cols := columns (returned (cleanup_contact str_of data progress
                                   killswitch)) in
  take 8 cols = forced_cols_start
  /\ StronglySorted String.le (drop 8 cols)
  /\ NoDup cols
  /\ forall c, c ∈ cols
       <-> c ∈ forced_cols_start \/ holds_value data c = true.
Proof.
  intros Hnd cols.
  assert (Hcols : cols = reordered (columns (dropna data))) by reflexivity.
  destruct (reordered_spec (columns (dropna data))) as (H1 & H2 & H3 & H4).
  { eapply sublist_NoDup; [exact Hnd | apply dropna_sublist]. }
  rewrite Hcols. split; [exact H1|]. split; [exact H2|].
  split; [exact H3|]. intros c.
  rewrite H4, <- columns_dropna, bool_decide_eq_true. reflexivity.
Qed.

(** X13: the cells of the frame returned. It has the rows of the frame
    given, in the same order; in a column that holds a value in some row
    every cell is a text: the text of the value, or the empty text where
    the row had none, after the four replacements; and a forced column
    that holds no value is NaN in every row. *)
Theorem cells_of_the_cleaned_frame (data : table (item obj))
    (progress : bool) (killswitch : option (nat -> bool)) :
  Forall2
    (fun r r' =>
       forall c, r' !! c
         = if holds_value data c
           then Some (Str (clean_leading (clean_blanks (clean_typed
                        (clean_basic (match r !! c with
                                      | Some x => text_of str_of x
                                      | None => []
                                      end))))))
           else None)
    (rows data)
    (rows (returned (cleanup_contact str_of data progress killswitch))).
Proof. apply returned_rows. Qed.

(** X14: what the call does to the frame it was given. The caller's
    frame loses the columns that hold no value and gets the empty text
    where it had NaN, but its values are not made texts and its tags
    are not cleaned: from the conversion on, the function works on
    another frame, the one it returns. *)
Theorem frame_of_the_caller (data : table (item obj))
    (progress : bool) (killswitch : option (nat -> bool)) :
  let mine := caller (cleanup_contact str_of data progress killswitch) in
  columns mine `sublist_of` columns data
  /\ (forall c, c ∈ columns mine <-> holds_value data c = true)
  /\ Forall2
       (fun r r' =>
          forall c, r' !! c
            = if holds_value data c
              then Some (match r !! c with
                         | Some x => x
                         | None => Txt []
                         end)
              else None)
       (rows data) (rows mine).
Proof.
  intros mine. split; [|split; [|apply caller_rows]].
  - apply dropna_sublist.
  - intros c. change (columns mine) with (columns (dropna data)).
    now rewrite <- columns_dropna, bool_decide_eq_true.
Qed.

Lemma cleaned_adr (data : table (item obj)) progress killswitch :
  Forall (fun r' => has_adr r' = holds_value data "adr")
    (rows (returned (cleanup_contact str_of data progress killswitch))).
Proof.
  pose proof (returned_rows data progress killswitch) as Hrows.
  induction Hrows as [|r r' l l' Hr _ IH]; constructor; [|exact IH].
  unfold has_adr. rewrite (Hr "adr"%string).
  now destruct (holds_value data "adr").
Qed.
End Cleanup_props.

(** ** From [cleanup_contact] to [get_geoID] *)

Section Pipeline.
Context `{Services} {obj : Type} (str_of : obj -> str).

(** X15: when some contact of the frame has an address, the frame that
    [cleanup_contact] returns is one that [get_geoID] goes through
    without exception, if it is not cancelled: every row has a text for
    address, the empty one for a contact without address, and every row
    gets its [geoID] and its [exactlocation]. *)
Theorem cleaned_frame_is_resolved (book : table (item obj))
    (told : bool) (unused : option (nat -> bool))
    (progress : bool) (killswitch : option (nat -> bool)) (w : World) :
  holds_value book "adr" = true ->
  quiet_below killswitch (length (rows book)) = true ->
  let frame := rows (returned (cleanup_contact str_of book told unused)) in
  let st' := get_geoID frame progress killswitch w in
  forallb has_adr frame = true
  /\ raised st' = None
  /\ length (data st') = length (rows book)
  /\ forall j r', data st' !! j = Some r' ->
       is_Some (r' !! "geoID"%string)
       /\ is_Some (r' !! "exactlocation"%string).
Proof.
  intros Hv Hquiet frame st'.
  pose proof (cleaned_adr str_of book told unused) as Hadr.
  rewrite Hv in Hadr. fold frame in Hadr.
  assert (Hlen : length frame = length (rows book)).
  { symmetry. eapply Forall2_length, returned_rows. }
  assert (Hall : forallb has_adr frame = true).
  { apply forallb_forall. intros r Hr.
    rewrite Forall_forall in Hadr. apply Hadr, list_elem_of_In, Hr. }
  assert (Hne : length (rows book) <> 0%nat).
  { unfold holds_value in Hv. apply andb_true_iff in Hv as [_ Hv].
    destruct (rows book); [discriminate | discriminate]. }
  destruct (get_geoID_until (fun _ => True) (fun _ _ _ => True)
              (fun _ _ _ => conj I I)
              frame progress killswitch w (length frame))
    as (_ & Hr & Hl & Hin & _); try exact I.
  { now rewrite Hlen. }
  { lia. }
  { now rewrite take_ge by lia. }
  fold st' in Hr, Hl, Hin.
  split; [exact Hall|]. split; [|split; [now rewrite Hl|]].
  - rewrite Hr, Hlen. destruct (length (rows book)); [congruence|].
    now rewrite andb_false_r.
  - intros j r' Hj.
    assert (Hlt : (j < length frame)%nat).
    { apply lookup_lt_Some in Hj. lia. }
    destruct (lookup_lt_is_Some_2 frame j Hlt) as [r Hrow].
    destruct (Hin j r) as (hint & res & fl & _ & _ & Hd); [lia | exact Hrow |].
    rewrite Hd in Hj. injection Hj as <-. unfold write_outcome. split.
    + rewrite lookup_insert_ne by discriminate. rewrite lookup_insert_eq. eauto.
    + rewrite lookup_insert_eq. eauto.
Qed.

End Pipeline.

(** * [list_vcf_in_directory] *)

(** ** The order of the names *)

Section Names.

Lemma str_leb_total a : forall b, str_leb a b = true \/ str_leb b a = true.
Proof.
  induction a as [|x a IH]; intros [|y b]; cbn [str_leb]; auto.
  destruct (N.ltb_spec x y) as [Hxy|Hxy]; [now left|].
  destruct (N.ltb_spec y x) as [Hyx|Hyx]; [now right|].
  assert (x = y) as -> by lia. rewrite N.eqb_refl. cbn [orb andb]. apply IH.
Qed.

Lemma str_leb_trans a : forall b c,
  str_leb a b = true -> str_leb b c = true -> str_leb a c = true.
Proof.
  induction a as [|x a IH]; intros [|y b] [|z c]; cbn [str_leb];
    try easy.
  intros Hab Hbc.
  apply orb_true_iff in Hab as [Hab|Hab], Hbc as [Hbc|Hbc].
  - apply N.ltb_lt in Hab, Hbc. apply orb_true_iff. left.
    apply N.ltb_lt. lia.
  - apply andb_true_iff in Hbc as [Hyz _]. apply N.eqb_eq in Hyz as <-.
    now rewrite Hab.
  - apply andb_true_iff in Hab as [Hxy _]. apply N.eqb_eq in Hxy as ->.
    now rewrite Hbc.
  - apply andb_true_iff in Hab as [Hxy Hab], Hbc as [Hyz Hbc].
    apply N.eqb_eq in Hxy as ->. rewrite Hyz, (IH b c Hab Hbc).
    cbn. apply orb_true_r.
Qed.

#[local] Instance str_le_total : Total str_le.
Proof. intros a b. apply str_leb_total. Qed.

#[local] Instance str_le_trans : Transitive str_le.
Proof. intros a b c. apply str_leb_trans. Qed.

Lemma sorted_names_spec l :
  StronglySorted str_le (sorted_names l) /\ sorted_names l ≡ₚ l.
Proof.
  split; [apply StronglySorted_merge_sort; apply _|].
  apply merge_sort_Permutation.
Qed.

Lemma filter_sorted (p : str -> bool) l :
  StronglySorted str_le l -> StronglySorted str_le (List.filter p l).
Proof.
  induction 1 as [|x l Hl IH Hx]; cbn [List.filter]; [constructor|].
  destruct (p x); [|exact IH]. constructor; [exact IH|].
  apply Forall_forall. intros y Hy.
  apply list_elem_of_In, filter_In in Hy as [Hy _].
  rewrite Forall_forall in Hx. apply Hx, list_elem_of_In, Hy.
Qed.
End Names.

(** ** The tags of a card *)

Section Groups.
Import Rg.
Variable P : N -> Prop.
Variable multiline : bool.

Abbreviation from_text := (texts_of_groups P).

Lemma rmatch_groups r : forall b s g k found,
  Forall P s -> from_text g ->
  rmatch multiline r b s g k = Some found ->
  exists b' s' g',
    s' `suffix_of` s /\ from_text g' /\ k b' s' g' = Some found.
Proof.
  induction r as [| |p|r1 IH1 r2 IH2|r1 IH1 r2 IH2|r1 IH1|n r1 IH1];
    intros b s g k found Hs Hg Hm; cbn [rmatch] in Hm.
  - now exists b, s, g.
  - destruct b; [|discriminate]. now exists true, s, g.
  - destruct s as [|c s]; [discriminate|].
    destruct (p c); [|discriminate].
    exists (multiline && (c =? 10)), s, g.
    split; [apply suffix_cons_r; reflexivity | now split].
  - apply IH1 in Hm as (b1 & s1 & g1 & Hs1 & Hg1 & Hm); [|assumption..].
    apply IH2 in Hm as (b2 & s2 & g2 & Hs2 & Hg2 & Hm);
      [|exact (Forall_suffix P _ _ Hs1 Hs) | exact Hg1].
    exists b2, s2, g2. split; [now transitivity s1 | now split].
  - destruct (rmatch multiline r1 b s g k) as [found'|] eqn:H1.
    + injection Hm as <-. now apply IH1 in H1.
    + now apply IH2 in Hm.
  - revert Hm. generalize (S (length s)). intros fuel. revert b s g Hs Hg.
    induction fuel as [|fuel IHf]; intros b s g Hs Hg Hm;
      cbn [star_loop] in Hm.
    + now exists b, s, g.
    + destruct (rmatch multiline r1 b s g _) as [found'|] eqn:H1.
      * injection Hm as <-.
        apply IH1 in H1 as (b1 & s1 & g1 & Hs1 & Hg1 & H1);
          [|assumption..].
        destruct (length s1 <? length s)%nat; [|discriminate].
        apply IHf in H1 as (b2 & s2 & g2 & Hs2 & Hg2 & H1);
          [|exact (Forall_suffix P _ _ Hs1 Hs) | exact Hg1].
        exists b2, s2, g2. split; [now transitivity s1 | now split].
      * now exists b, s, g.
  - apply IH1 in Hm as (b1 & s1 & g1 & Hs1 & Hg1 & Hm); [|assumption..].
    exists b1, s1, ((n, take (length s - length s1) s) :: g1).
    split; [exact Hs1|]. split; [|exact Hm].
    constructor; [|exact Hg1]. cbn. now apply Forall_take.
Qed.

Lemma match_at_groups r b s rest g :
  Forall P s ->
  match_at multiline r b s = Some (rest, g) ->
  rest `suffix_of` s /\ from_text g.
Proof.
  unfold match_at. intros Hs Hm.
  destruct (rmatch multiline r b s [] _) as [[rest' g']|] eqn:H1;
    [|discriminate].
  destruct (length rest' <? length s)%nat; [|discriminate].
  injection Hm as <- <-.
  apply rmatch_groups in H1 as (b' & s' & g'' & Hs' & Hg' & [= <- <-]);
    [now split | exact Hs | constructor].
Qed.

Lemma finditer_groups r : forall fuel b s,
  Forall P s -> Forall from_text (finditer_loop multiline r fuel b s).
Proof.
  induction fuel as [|fuel IH]; intros b s Hs; [constructor|].
  destruct s as [|c s]; [constructor|]. cbn [finditer_loop].
  destruct (match_at multiline r b (c :: s)) as [[rest g]|] eqn:Hm.
  - apply match_at_groups in Hm as [Hrest Hg]; [|exact Hs].
    constructor; [exact Hg|]. apply IH. exact (Forall_suffix P _ _ Hrest Hs).
  - apply Forall_cons in Hs as [_ Hs]. now apply IH.
Qed.

Lemma group_from_text n g : from_text g -> Forall P (group n g).
Proof.
  induction 1 as [|[m t] g Ht _ IH]; cbn [group]; [constructor|].
  destruct (n =? m)%nat; [exact Ht | exact IH].
Qed.
End Groups.

Section Tags.
Context `{Services}.

Lemma strip_prefix_Some old : forall s rest,
  Py.strip_prefix old s = Some rest -> s = old ++ rest.
Proof.
  induction old as [|a old IH]; intros s rest; cbn [Py.strip_prefix].
  - destruct s; now intros [= <-].
  - destruct s as [|c s]; [discriminate|].
    destruct (N.eqb_spec a c) as [<-|]; [|discriminate].
    intros Hr. apply IH in Hr. now subst.
Qed.

(** Replacing a text by itself changes nothing. *)
Lemma replace_same old : forall fuel s, Py.replace_loop fuel old old s = s.
Proof.
  induction fuel as [|fuel IH]; intros s; [reflexivity|].
  destruct s as [|c s]; [reflexivity|]. cbn [Py.replace_loop].
  destruct (Py.strip_prefix old (c :: s)) as [rest|] eqn:Hp.
  - rewrite IH. symmetry. now apply strip_prefix_Some.
  - now rewrite IH.
Qed.

Lemma unidecode_ascii s :
  Forall (fun c => c < 128) s -> unidecode s = s.
Proof.
  induction 1 as [|c s Hc _ IH]; [reflexivity|].
  unfold unidecode in *. cbn [flat_map].
  apply N.ltb_lt in Hc. now rewrite Hc, IH.
Qed.

Lemma tags_from_text (P : N -> Prop) content :
  Forall P content -> Forall (Forall P) (tags content).
Proof.
  intros Hc. unfold tags, Rg.finditer.
  apply Forall_map.
  eapply List.Forall_impl; [|now apply (finditer_groups P)].
  intros g. apply group_from_text.
Qed.

(** X22: a card in ASCII goes to the parser as it is: the replacement
    of the tags of lines 70-75 changes nothing in it. *)
Theorem ascii_card_unchanged (content : str) :
  Forall (fun c => c < 128) content -> clean_tags content = content.
Proof.
  intros Hc. unfold clean_tags.
  pose proof (tags_from_text _ content Hc) as Ht.
  induction Ht as [|tag l Htag _ IH]; [reflexivity|].
  cbn [fold_left]. rewrite (unidecode_ascii tag Htag).
  unfold Py.replace. rewrite replace_same. exact IH.
Qed.
End Tags.

(** ** The loop over the files *)

Section Directory_props.
Context `{Services} {obj : Type}.
Variable read_text : str -> option str.
Variable read_one : str -> option (list (string * obj)).

Abbreviation card := (contact_of read_text read_one).
Abbreviation cards := (contacts_of read_text read_one).
Abbreviation loop := (files_loop read_text read_one).
Abbreviation fine := (good read_text read_one).

Lemma contacts_of_cons directory file names :
  cards directory (file :: names)
  = match (if endswith (py ".vcf") file
           then card directory file else None) with
    | Some d => d :: cards directory names
    | None => cards directory names
    end.
Proof. reflexivity. Qed.

Lemma count_file_spec progress n (st : @scan obj) :
  contacts (count_file progress n st) = contacts st
  /\ failure (count_file progress n st) = failure st
  /\ current_file (count_file progress n st)
     = (if progress then S (current_file st) else current_file st)
  /\ sent (count_file progress n st)
     = sent st ++ if progress then [file_report n (current_file st)] else [].
Proof.
  unfold count_file, send. destruct progress; cbn.
  - repeat split.
  - rewrite app_nil_r. repeat split.
Qed.

(** The step of the loop on a name that is good, the switch not being
    set. *)
Lemma files_loop_step progress killswitch directory n i file todo
    (st : @scan obj) :
  set_at killswitch i = false ->
  fine directory file ->
  loop progress killswitch directory n i (file :: todo) st
  = loop progress killswitch directory n (S i) todo
      (let st1 := count_file progress n st in
       {| contacts := contacts st1 ++ cards directory [file];
          sent := sent st1; current_file := current_file st1;
          failure := failure st1 |}).
Proof.
  intros Hquiet Hfile. cbn [files_loop]. rewrite Hquiet.
  rewrite contacts_of_cons.
  destruct (endswith (py ".vcf") file) eqn:He.
  - destruct (Hfile He) as [d Hd]. rewrite Hd.
    unfold contact_of in Hd.
    destruct (read_text (path_join directory file)) as [content|];
      [|discriminate]. cbn [mbind option_bind] in Hd.
    destruct (forallb code_point content); [|discriminate].
    destruct (read_one (clean_tags content)) as [parsed|];
      [|discriminate]. cbn [mbind option_bind] in Hd.
    injection Hd as <-. reflexivity.
  - cbn [omap list_omap]. rewrite app_nil_r.
    now destruct (count_file progress n st).
Qed.

(** The loop over names that are all good, the switch not being set. *)
Lemma files_loop_good progress killswitch directory n :
  forall todo i (st : @scan obj),
  (forall j, (i <= j < i + length todo)%nat -> set_at killswitch j = false) ->
  Forall (fine directory) todo ->
  let st' := loop progress killswitch directory n i todo st in
  failure st' = failure st
  /\ contacts st' = contacts st ++ cards directory todo
  /\ current_file st'
     = (if progress then current_file st + length todo else current_file st)%nat
  /\ sent st'
     = sent st ++ if progress
                  then map (file_report n) (seq (current_file st) (length todo))
                  else [].
Proof.
  induction todo as [|file todo IH]; intros i st Hquiet Hgood.
  - cbn. rewrite !app_nil_r.
    destruct progress; rewrite ?app_nil_r; repeat split; lia.
  - apply Forall_cons in Hgood as [Hfile Hgood].
    assert (Hq : forall j, (S i <= j < S i + length todo)%nat ->
                           set_at killswitch j = false).
    { intros j Hj. apply Hquiet. cbn [length]. lia. }
    cbv zeta. rewrite files_loop_step;
      [|apply Hquiet; cbn [length]; lia | exact Hfile].
    destruct (count_file_spec progress n st) as (Hc1 & Hf1 & Hn1 & Hs1).
    cbv zeta. set (st1 := count_file progress n st) in *.
    destruct (IH (S i) {| contacts := contacts st1 ++ cards directory [file];
                          sent := sent st1;
                          current_file := current_file st1;
                          failure := failure st1 |} Hq Hgood)
      as (H1 & H2 & H3 & H4).
    cbn [contacts sent current_file failure] in H1, H2, H3, H4.
    rewrite H1, H2, H3, H4, Hf1, Hc1, Hn1, Hs1.
    split; [reflexivity|]. split; [|split].
    + rewrite <- app_assoc. f_equal.
      rewrite (contacts_of_cons directory file todo).
      rewrite (contacts_of_cons directory file []).
      now destruct (if endswith (py ".vcf") file
                    then card directory file else None).
    + destruct progress; cbn [length]; lia.
    + destruct progress; cbn [length seq map].
      * now rewrite <- app_assoc.
      * now rewrite !app_nil_r.
Qed.

Lemma files_loop_app progress killswitch directory n l2 :
  forall l1 i (st : @scan obj),
  (forall j, (i <= j < i + length l1)%nat -> set_at killswitch j = false) ->
  Forall (fine directory) l1 ->
  loop progress killswitch directory n i (l1 ++ l2) st
  = loop progress killswitch directory n (i + length l1) l2
      (loop progress killswitch directory n i l1 st).
Proof.
  induction l1 as [|file l1 IH]; intros i st Hquiet Hgood.
  - cbn [app length files_loop]. now rewrite Nat.add_0_r.
  - apply Forall_cons in Hgood as [Hfile Hgood].
    assert (Hq : forall j, (S i <= j < S i + length l1)%nat ->
                           set_at killswitch j = false).
    { intros j Hj. apply Hquiet. cbn [length]. lia. }
    cbn [app length].
    rewrite !files_loop_step;
      try exact Hfile; try (apply Hquiet; cbn [length]; lia).
    replace (i + S (length l1))%nat with (S i + length l1)%nat by lia.
    now apply IH.
Qed.

Lemma set_key_lookup {A : Type} (k : string) (v : A) d :
  (list_to_map (set_key k v d) : gmap string A) !! k = Some v.
Proof.
  induction d as [|[k' v'] d IH]; cbn [set_key].
  - cbn. apply lookup_insert_eq.
  - destruct (decide (k = k')) as [->|Hne].
    + rewrite list_to_map_cons. apply lookup_insert_eq.
    + rewrite list_to_map_cons, lookup_insert_ne by congruence. exact IH.
Qed.

Lemma card_file directory file d :
  card directory file = Some d ->
  (list_to_map d : gmap string (item obj)) !! "file"%string
  = Some (Txt (path_join directory file)).
Proof.
  unfold contact_of.
  destruct (read_text (path_join directory file)) as [content|];
    [|discriminate]. cbn [mbind option_bind].
  destruct (forallb code_point content); [|discriminate].
  destruct (read_one (clean_tags content)) as [parsed|];
    [|discriminate]. cbn [mbind option_bind].
  intros [= <-]. apply set_key_lookup.
Qed.

Lemma cards_rows directory names :
  Forall (fine directory) names ->
  Forall2 (fun file d => card directory file = Some d)
    (List.filter (endswith (py ".vcf")) names) (cards directory names).
Proof.
  induction 1 as [|file names Hfile _ IH]; [constructor|].
  rewrite contacts_of_cons. cbn [List.filter].
  destruct (endswith (py ".vcf") file) eqn:He; [|exact IH].
  destruct (Hfile He) as [d Hd]. rewrite Hd. now constructor.
Qed.

Lemma sorted_fine directory all_files :
  Forall (fine directory) all_files ->
  Forall (fine directory) (sorted_names all_files).
Proof.
  intros Hall. destruct (sorted_names_spec all_files) as [_ Hp].
  now rewrite Hp.
Qed.

Lemma sorted_length all_files :
  length (sorted_names all_files) = length all_files.
Proof.
  destruct (sorted_names_spec all_files) as [_ Hp]. now rewrite Hp.
Qed.

(** The call when every name is good and the switch is never set. *)
Lemma complete_listing directory all_files progress killswitch :
  quiet_below killswitch (length all_files) = true ->
  Forall (fine directory) all_files ->
  let n := length all_files in
  list_vcf_in_directory read_text read_one directory all_files
    progress killswitch
  = {| listed := Some (data_frame
                         (cards directory (sorted_names all_files)));
       file_reports :=
         if progress
         then map (file_report n) (seq 0 n)
              ++ [[Num n; Num n; Num n; Msg parsing; Msg reading]]
         else [];
       file_error := None |}.
Proof.
  intros Hquiet Hall n. unfold list_vcf_in_directory.
  destruct (files_loop_good progress killswitch directory n
              (sorted_names all_files) 0
              {| contacts := []; sent := []; current_file := 0;
                 failure := None |})
    as (H1 & H2 & H3 & H4).
  { intros j Hj. apply (quiet_below_spec _ _ Hquiet).
    rewrite sorted_length in Hj. lia. }
  { now apply sorted_fine. }
  fold n. cbn [contacts sent current_file failure app] in H1, H2, H3, H4.
  rewrite sorted_length in H3, H4. fold n in H3, H4.
  rewrite H1. unfold send.
  destruct progress; cbn [contacts sent]; rewrite ?H2, ?H3, ?H4;
    reflexivity.
Qed.

(** The state of the loop after the first [k] names, all good, the
    switch not being set at any of them. *)
Lemma listing_prefix directory all_files progress killswitch k :
  (k <= length all_files)%nat ->
  quiet_below killswitch k = true ->
  Forall (fine directory) (take k (sorted_names all_files)) ->
  let n := length all_files in
  let start := {| contacts := []; sent := []; current_file := 0%nat;
                  failure := None |} in
  let st1 := loop progress killswitch directory n 0
               (take k (sorted_names all_files)) start in
  loop progress killswitch directory n 0 (sorted_names all_files) start
  = loop progress killswitch directory n k
      (drop k (sorted_names all_files)) st1
  /\ failure st1 = None
  /\ contacts st1 = cards directory (take k (sorted_names all_files))
  /\ current_file st1 = (if progress then k else 0%nat)
  /\ sent st1 = if progress then map (file_report n) (seq 0 k) else [].
Proof.
  intros Hk Hquiet Hgood n start st1.
  assert (Hlen : length (take k (sorted_names all_files)) = k).
  { rewrite length_take, sorted_length. lia. }
  assert (Hq : forall j,
             (0 <= j < 0 + length (take k (sorted_names all_files)))%nat ->
             set_at killswitch j = false).
  { intros j Hj. apply (quiet_below_spec _ _ Hquiet). lia. }
  destruct (files_loop_good progress killswitch directory n
              (take k (sorted_names all_files)) 0 start Hq Hgood)
    as (H1 & H2 & H3 & H4).
  fold st1 in H1, H2, H3, H4. rewrite Hlen in H3, H4.
  split; [|split; [exact H1|split; [exact H2|split; [exact H3|exact H4]]]].
  rewrite <- (take_drop k (sorted_names all_files)) at 1.
  rewrite files_loop_app by assumption. now rewrite Hlen.
Qed.




End Directory_props.

(** ** The properties above on concrete runs *)


(** C7 on two contacts, the switch being set before the second: the
    second query is never asked. *)
Lemma cancelled_before_row_witness :
  (1 < length [Demo.contact "paris"; Demo.contact "lyon"])%nat
  /\ quiet_below (Some (Nat.eqb 1)) 1 = true
  /\ Nat.eqb 1 1 = true
  /\ forallb has_adr (take 1 [Demo.contact "paris"; Demo.contact "lyon"]) = true
  /\ @raised Demo.nothing
       (@get_geoID Demo.nothing [Demo.contact "paris"; Demo.contact "lyon"]
          true (Some (Nat.eqb 1)) Demo.start) = None
  /\ Demo.asked
       (@world Demo.nothing
          (@get_geoID Demo.nothing [Demo.contact "paris"; Demo.contact "lyon"]
             true (Some (Nat.eqb 1)) Demo.start))
     = Demo.asked
         (@world_at Demo.nothing [Demo.contact "paris"; Demo.contact "lyon"]
            Demo.start 1)
  /\ exists r',
       @data Demo.nothing
         (@get_geoID Demo.nothing [Demo.contact "paris"; Demo.contact "lyon"]
            true (Some (Nat.eqb 1)) Demo.start) !! 1%nat = Some r'
       /\ r' !! "geoID"%string = None
       /\ r' !! "exactlocation"%string = None.
Proof.
  assert (Hk : (1 < length [Demo.contact "paris"; Demo.contact "lyon"])%nat)
    by (simpl; lia).
  assert (Hadr : forallb has_adr
                   (take 1 [Demo.contact "paris"; Demo.contact "lyon"]) = true)
    by (vm_compute; reflexivity).
  split; [exact Hk|]. split; [reflexivity|]. split; [reflexivity|].
  split; [exact Hadr|].
  destruct (@cancelled_before_row Demo.nothing
              [Demo.contact "paris"; Demo.contact "lyon"] true (Nat.eqb 1)
              Demo.start 1%nat Hk eq_refl eq_refl Hadr)
    as (Hr & _ & _ & Hw & _ & Hafter).
  split; [exact Hr|]. split; [now rewrite Hw|].
  destruct (Hafter 1%nat (Demo.contact "lyon") (le_n 1) eq_refl)
    as (r' & Hd & _ & Hg & He).
  exists r'. split; [exact Hd|]. split; [exact Hg | exact He].
Defined.

(** C8 on an address of the specification, once it is tidy, and on a raw
    address in two lines with capitals, whose only piece is tidy. *)
Lemma normalize_tidy_witness :
  tidy (py "12 rue de la paix, 75002 paris, france") = true
  /\ @normalize Demo.nothing (py "12 rue de la paix, 75002 paris, france") =
       [py "12 rue de la paix, 75002 paris, france"]
  /\ Forall (fun e => tidy e = true)
       (@normalize Demo.nothing (py "12 Rue de la Paix" ++ [10] ++ py "Paris"))
  /\ flat_map (@normalize Demo.nothing)
       (@normalize Demo.nothing (py "12 Rue de la Paix" ++ [10] ++ py "Paris"))
     = @normalize Demo.nothing (py "12 Rue de la Paix" ++ [10] ++ py "Paris").
Proof.
  assert (Ht : tidy (py "12 rue de la paix, 75002 paris, france") = true)
    by (vm_compute; reflexivity).
  assert (Hall : Forall (fun e => tidy e = true)
                   (@normalize Demo.nothing
                      (py "12 Rue de la Paix" ++ [10] ++ py "Paris")))
    by (vm_compute; repeat constructor).
  split; [exact Ht|].
  split; [exact (proj1 (@normalize_tidy Demo.nothing _) Ht)|].
  split; [exact Hall|].
  exact (proj1 (proj2 (proj2 (@normalize_tidy Demo.nothing _) Hall))).
Defined.

(** X2 on one contact, with a service that is reached. *)
Lemma reports_of_a_complete_run_witness :
  [Demo.contact "paris"] <> []
  /\ forallb has_adr [Demo.contact "paris"] = true
  /\ quiet_below None 1 = true
  /\ @emitted Demo.nothing
       (@get_geoID Demo.nothing [Demo.contact "paris"] true None Demo.start)
     = [(0, 0, 1, downloading, stage); (0, 0, 1, downloading, stage);
        (0, 1, 1, "cancel"%string, stage)]%nat.
Proof.
  assert (Hne : [Demo.contact "paris"] <> []) by discriminate.
  assert (Hadr : forallb has_adr [Demo.contact "paris"] = true)
    by (vm_compute; reflexivity).
  split; [exact Hne|]. split; [exact Hadr|]. split; [reflexivity|].
  exact (@reports_of_a_complete_run Demo.nothing [Demo.contact "paris"] None
           Demo.start Hne Hadr eq_refl).
Defined.

(** X3 on two contacts, the switch being set before the second, with a
    service that is not reached at first. *)
Lemma reports_when_cancelled_witness :
  (1 < length [Demo.contact "paris"; Demo.contact "lyon"])%nat
  /\ quiet_below (Some (Nat.eqb 1)) 1 = true
  /\ Nat.eqb 1 1 = true
  /\ forallb has_adr (take 1 [Demo.contact "paris"; Demo.contact "lyon"]) = true
  /\ @emitted Demo.late
       (@get_geoID Demo.late [Demo.contact "paris"; Demo.contact "lyon"]
          true (Some (Nat.eqb 1)) Demo.start)
     = [(0, 0, 2, downloading, stage); (0, 0, 2, unreachable, stage);
        (0, 0, 2, downloading, stage); (1, 0, 2, downloading, stage);
        (1, 0, 1, "cancel"%string, stage);
        (1, 2, 2, "cancel"%string, stage)]%nat.
Proof.
  assert (Hk : (1 < length [Demo.contact "paris"; Demo.contact "lyon"])%nat)
    by (simpl; lia).
  assert (Hadr : forallb has_adr
                   (take 1 [Demo.contact "paris"; Demo.contact "lyon"]) = true)
    by (vm_compute; reflexivity).
  split; [exact Hk|]. split; [reflexivity|]. split; [reflexivity|].
  split; [exact Hadr|].
  exact (@reports_when_cancelled Demo.late
           [Demo.contact "paris"; Demo.contact "lyon"] (Nat.eqb 1)
           Demo.start 1%nat Hk eq_refl eq_refl Hadr).
Defined.

(** X4 on a contact with an address followed by one without. *)
Lemma row_without_address_witness :
  [Demo.contact "paris"; ∅] !! 1%nat = Some (∅ : row)
  /\ has_adr (∅ : row) = false
  /\ quiet_below None 2 = true
  /\ forallb has_adr (take 1 [Demo.contact "paris"; ∅]) = true
  /\ @raised Demo.nothing
       (@get_geoID Demo.nothing [Demo.contact "paris"; ∅] true None
          Demo.start) = Some AttributeError
  /\ @index Demo.nothing
       (@get_geoID Demo.nothing [Demo.contact "paris"; ∅] true None
          Demo.start) = Some 1%nat.
Proof.
  assert (Hadr : forallb has_adr (take 1 [Demo.contact "paris"; ∅]) = true)
    by (vm_compute; reflexivity).
  assert (Hrow : [Demo.contact "paris"; ∅] !! 1%nat = Some (∅ : row))
    by reflexivity.
  assert (Hno : has_adr (∅ : row) = false) by reflexivity.
  assert (Hquiet : quiet_below None 2 = true) by reflexivity.
  split; [exact Hrow|]. split; [exact Hno|]. split; [exact Hquiet|].
  split; [exact Hadr|].
  destruct (@row_without_address Demo.nothing [Demo.contact "paris"; ∅] true
              None Demo.start 1%nat ∅ Hrow Hno Hquiet Hadr)
    as (Hr & Hi & _).
  split; [exact Hr | exact Hi].
Defined.

(** X5 on a hint made of separators and of a tag. *)
Lemma empty_pieces_send_nothing_witness :
  Forall (fun e => normalize_elem e = [])
    (@pieces Demo.nothing (py " , HOME: ; "))
  /\ @resolve_row Demo.nothing Demo.start (py " , HOME: ; ")
     = (Demo.start, [], false).
Proof.
  assert (Hl : Forall (fun e => normalize_elem e = [])
                 (@pieces Demo.nothing (py " , HOME: ; ")))
    by (vm_compute; repeat constructor).
  split; [exact Hl|].
  exact (@empty_pieces_send_nothing Demo.nothing Demo.start _ Hl).
Defined.

(** X9 on a text that tries to add a parameter. *)
Lemma query_parameters_witness :
  Forall (fun c => code_point c = true) (py "paris&format=xml")
  /\ count 38 (build_query (py "paris&format=xml") Unrestricted) = 1%nat
  /\ count 61 (build_query (py "paris&format=xml") Unrestricted) = 2%nat.
Proof.
  assert (Hq : Forall (fun c => code_point c = true) (py "paris&format=xml"))
    by (repeat constructor).
  split; [exact Hq|].
  destruct (query_parameters _ Hq) as (Ha & He & _).
  split; [exact Ha | exact He].
Defined.

(** X12 on the frame of two contacts. *)
Lemma columns_of_the_cleaned_frame_witness :
  NoDup (columns Sample.two)
  /\ take 8 (columns (returned (cleanup_contact Sample.plain Sample.two
                                  true None)))
     = forced_cols_start.
Proof.
  assert (Hnd : NoDup (columns Sample.two))
    by (apply (bool_decide_unpack _); vm_compute; exact I).
  split; [exact Hnd|].
  exact (proj1 (columns_of_the_cleaned_frame Sample.plain Sample.two true
                  None Hnd)).
Defined.

(** X15 on the frame of two contacts, one of them with an address. *)
Lemma cleaned_frame_is_resolved_witness :
  holds_value Sample.two "adr" = true
  /\ quiet_below None (length (rows Sample.two)) = true
  /\ @raised Demo.nothing
       (@get_geoID Demo.nothing
          (rows (returned (cleanup_contact Sample.plain Sample.two true None)))
          true None Demo.start) = None.
Proof.
  assert (Hv : holds_value Sample.two "adr" = true)
    by (vm_compute; reflexivity).
  assert (Hq : quiet_below None (length (rows Sample.two)) = true)
    by reflexivity.
  split; [exact Hv|]. split; [exact Hq|].
  destruct (@cleaned_frame_is_resolved Demo.nothing str Sample.plain
              Sample.two true None true None Demo.start Hv Hq)
    as (_ & Hr & _).
  exact Hr.
Defined.


(** X17 on the tag of a name. *)
Lemma basic_tag_cleaned_witness :
  py "FN" <> []
  /\ Forall (fun c => Py.is_space c = false) (py "FN")
  /\ Forall (fun c => c <> 123 /\ c <> 10) (py "John Doe")
  /\ clean_basic (py "[<" ++ py "FN" ++ py "{}" ++ py "John Doe" ++ py ">]")
     = py "John Doe".
Proof.
  assert (Hne : py "FN" <> []) by discriminate.
  assert (Ht : Forall (fun c => Py.is_space c = false) (py "FN"))
    by (repeat constructor).
  assert (Hv : Forall (fun c => c <> 123 /\ c <> 10) (py "John Doe"))
    by (repeat constructor; discriminate).
  split; [exact Hne|]. split; [exact Ht|]. split; [exact Hv|].
  exact (basic_tag_cleaned _ _ Hne Ht Hv).
Defined.





(** X22 on the first lines of a card. *)
Lemma ascii_card_unchanged_witness :
  Forall (fun c => c < 128) (py "BEGIN:VCARD" ++ [10] ++ py "FN:Jo")
  /\ @clean_tags Demo.nothing (py "BEGIN:VCARD" ++ [10] ++ py "FN:Jo")
     = py "BEGIN:VCARD" ++ [10] ++ py "FN:Jo".
Proof.
  assert (Hc : Forall (fun c => c < 128)
                 (py "BEGIN:VCARD" ++ [10] ++ py "FN:Jo"))
    by (repeat (constructor; [reflexivity|]); constructor).
  split; [exact Hc|].
  exact (@ascii_card_unchanged Demo.nothing _ Hc).
Defined.
